(** * A shallow embedding of the comparison engine of llm_output_reconciler

    Sources: [json-utils] (extractJsonFromMarkdown, isValidJson, normalizeJson,
    normalizeJsonObject, deepEqual, calculateObjectSimilarity,
    calculateGranularSimilarity) and [diff] (calculateDiff, computeWordDiff,
    calculateStats, calculateLCSArrayDiff, calculateImprovedJsonChanges,
    calculateJsonDiff, generateImprovedJsonDiffHtml, generateStructuralDiffHtml,
    calculateLineDiff, computeLineDiff, calculateLineStats and the HTML
    generators).

    Modelling choices.
    - A JavaScript string is its sequence of UTF-16 code units, [list Z].
    - A JSON value is the tree [JSON.parse] builds.  An object keeps its own
      properties in JavaScript property order (array-index keys ascending,
      then the other keys in insertion order), without duplicates.
    - A finite JavaScript number is a binary64 double, held as the decimal
      [m * 10^e] that [Number::toString] writes for it: the fewest
      significant digits that read back as the double, [m] not a multiple
      of 10.  [JSON.parse] rounds a literal to the nearest double (ties to
      even, subnormals, underflow to [0]) and beyond the binary64 range
      gives [+/-Infinity].  Two parsed numbers are then equal exactly when
      their doubles are, and [String] writes them as JavaScript does.
      [-0] and [0] are the same number here, as for [===], [String] and
      [JSON.stringify].
    - Scores (similarities, diff scores) are exact rationals [Q]; a result
      field that the code sets to [NaN] is [RNaN].
    - Exceptions are the [Err] case of a result type.
    - The HTML renderings are strings of code units; the one of
      [calculateJsonDiff] can throw, which makes the whole call throw.
    - Assignment [o[k] = v] with [k = "__proto__"] runs the prototype setter
      in JavaScript; prototypes are not modelled, so such keys are outside
      the model. *)

From Stdlib Require Import ZArith QArith List Bool Lia String Ascii.
From Stdlib Require Import Permutation Sorted Qminmax Qround Lqa.
Import ListNotations.

Set Warnings "-register-all".

Open Scope Z_scope.

(** ** JavaScript strings *)

Definition jsstr := list Z.

(** The code units of a (Latin-1) Rocq string literal. *)
Fixpoint js (s : string) : jsstr :=
  match s with
  | EmptyString => []
  | String a r => Z.of_N (N_of_ascii a) :: js r
  end.

(** A literal in which the apostrophe stands for a double quote, for JSON
    texts written inline. *)
Definition jsq (s : string) : jsstr := map (fun c => if c =? 39 then 34 else c) (js s).

(** [String.prototype.trim] and the regular-expression class [\s] remove the
    same code units: WhiteSpace and LineTerminator. *)
Definition is_js_ws (c : Z) : bool :=
  (c =? 9) || (c =? 10) || (c =? 11) || (c =? 12) || (c =? 13) || (c =? 32)
  || (c =? 160) || (c =? 5760) || ((8192 <=? c) && (c <=? 8202))
  || (c =? 8232) || (c =? 8233) || (c =? 8239) || (c =? 8287)
  || (c =? 12288) || (c =? 65279).

Fixpoint drop_ws (s : jsstr) : jsstr :=
  match s with
  | c :: r => if is_js_ws c then drop_ws r else s
  | [] => []
  end.

Definition trim (s : jsstr) : jsstr := rev (drop_ws (rev (drop_ws s))).

Fixpoint jsstr_eqb (a b : jsstr) : bool :=
  match a, b with
  | [], [] => true
  | x :: a', y :: b' => (x =? y) && jsstr_eqb a' b'
  | _, _ => false
  end.

(** Code-unit order, the order of [<] on strings and of [Array.prototype.sort]
    without a comparator. *)
Fixpoint jsstr_compare (a b : jsstr) : comparison :=
  match a, b with
  | [], [] => Eq
  | [], _ :: _ => Lt
  | _ :: _, [] => Gt
  | x :: a', y :: b' =>
      match Z.compare x y with
      | Eq => jsstr_compare a' b'
      | c => c
      end
  end.

Fixpoint starts_with (p s : jsstr) : bool :=
  match p, s with
  | [], _ => true
  | x :: p', y :: s' => (x =? y) && starts_with p' s'
  | _ :: _, [] => false
  end.

(** ** JSON values *)

Inductive jsnum :=
| NFin (m e : Z)   (* the finite number m * 10^e, a double in the form make_number gives *)
| NPosInf
| NNegInf.

Inductive json :=
| JNull
| JBool (b : bool)
| JNum (n : jsnum)
| JStr (s : jsstr)
| JArr (l : list json)
| JObj (fields : list (jsstr * json)).

Section json_ind'.
Variable P : json -> Prop.
Hypothesis HNull : P JNull.
Hypothesis HBool : forall b, P (JBool b).
Hypothesis HNum : forall n, P (JNum n).
Hypothesis HStr : forall s, P (JStr s).
Hypothesis HArr : forall l, Forall P l -> P (JArr l).
Hypothesis HObj : forall fs, Forall (fun kv => P (snd kv)) fs -> P (JObj fs).

Fixpoint json_ind' (v : json) : P v :=
  match v with
  | JNull => HNull
  | JBool b => HBool b
  | JNum n => HNum n
  | JStr s => HStr s
  | JArr l =>
      HArr l ((fix go (l : list json) : Forall P l :=
                 match l with
                 | [] => Forall_nil _
                 | x :: r => Forall_cons _ (json_ind' x) (go r)
                 end) l)
  | JObj fs =>
      HObj fs ((fix go (fs : list (jsstr * json)) : Forall (fun kv => P (snd kv)) fs :=
                  match fs with
                  | [] => Forall_nil _
                  | (k, x) :: r =>
                      @Forall_cons _ (fun kv => P (snd kv)) (k, x) r (json_ind' x) (go r)
                  end) fs)
  end.
End json_ind'.

(** Errors that the modelled code can throw. *)
Inductive js_error := SyntaxError | TypeError.

Inductive result (A : Type) := Ok (a : A) | Err (e : js_error).
Arguments Ok {A} a.
Arguments Err {A} e.

Definition bind {A B} (r : result A) (f : A -> result B) : result B :=
  match r with Ok a => f a | Err e => Err e end.
Notation "x <- r ;; k" := (bind r (fun x => k)) (at level 61, r at next level, right associativity).

(** ** Numbers *)

Definition is_digit (c : Z) : bool := (48 <=? c) && (c <=? 57).

Definition digits_value (ds : list Z) : Z :=
  fold_left (fun acc d => acc * 10 + (d - 48)) ds 0.

(** Strip the factors 10 of the mantissa. *)
Fixpoint norm_dec (fuel : nat) (m e : Z) : Z * Z :=
  match fuel with
  | O => (m, e)
  | S f => if (m =? 0) then (0, 0)
           else if (m mod 10 =? 0) then norm_dec f (m / 10) (e + 1) else (m, e)
  end.

Definition normalize_dec (m e : Z) : Z * Z :=
  norm_dec (Z.to_nat (Z.log2 (Z.abs m)) + 1) m e.

(** The least magnitude that [JSON.parse] rounds to [Infinity]: the midpoint
    between [Number.MAX_VALUE] and [2^1024] (a tie, rounded to the even
    [2^1024]). *)
Definition overflow_bound : Z := 2 ^ 1024 - 2 ^ 970.

Definition dec_overflows (m e : Z) : bool :=
  if 0 <=? e then overflow_bound <=? Z.abs m * 10 ^ e
  else overflow_bound * 10 ^ (- e) <=? Z.abs m.

Fixpoint zdigits_aux (fuel : nat) (n : Z) (acc : list Z) : list Z :=
  match fuel with
  | O => acc
  | S f => if n <? 10 then (48 + n) :: acc else zdigits_aux f (n / 10) (48 + n mod 10 :: acc)
  end.

(** The decimal digits of a positive integer. *)
Definition zdigits (n : Z) : list Z := zdigits_aux (Z.to_nat (Z.log2 n) + 1) n [].

(** Strip the factors 2 of a binary mantissa. *)
Fixpoint norm_bin (fuel : nat) (m e : Z) : Z * Z :=
  match fuel with
  | O => (m, e)
  | S f => if m =? 0 then (0, 0) else if Z.even m then norm_bin f (m / 2) (e + 1) else (m, e)
  end.

Definition normalize_bin (m e : Z) : Z * Z :=
  norm_bin (Z.to_nat (Z.log2 (Z.abs m)) + 1) m e.

(** The binary64 value nearest to [num / den > 0], ties to the even
    mantissa: [(q, ex)] for [q * 2^ex], with [2^52 <= q <= 2^53] for a
    normal number, and [ex = -1074] for a subnormal one (or [0]).  Not
    meant for values that overflow. *)
Definition round_pos (num den : Z) : Z * Z :=
  let t := Z.log2 num - Z.log2 den in
  let fl := if den * 2 ^ Z.max 0 t <=? num * 2 ^ Z.max 0 (- t) then t else t - 1 in
  let ex := Z.max (fl - 52) (-1074) in
  let n := num * 2 ^ Z.max 0 (- ex) in
  let d := den * 2 ^ Z.max 0 ex in
  let q := n / d in
  let r := n mod d in
  ((if (d <? 2 * r) || ((2 * r =? d) && Z.odd q) then q + 1 else q), ex).

(** The double nearest to the decimal [m * 10^e], as [(M, E)] for
    [M * 2^E] with [M] odd (or [(0, 0)]). *)
Definition round_dec (m e : Z) : Z * Z :=
  if m =? 0 then (0, 0)
  else
    let '(q, ex) := round_pos (Z.abs m * 10 ^ Z.max 0 e) (10 ^ Z.max 0 (- e)) in
    normalize_bin (if m <? 0 then - q else q) ex.

(** For [x = num / den > 0], the [n] with [10^(n-1) <= x < 10^n]. *)
Definition dec_exponent (num den : Z) : Z :=
  if den <=? num then Z.of_nat (List.length (zdigits (num / den)))
  else 1 - Z.of_nat (List.length (zdigits ((num + den - 1) / num - 1))).

(** The decimals [s * 10^(n-k)] of [k] significant digits next to the
    double [d], for [k = 1 .. 17], the nearer of the two first (the even
    [s] on a tie), in the normalised form. *)
Definition digit_candidates (d : Z * Z) : list (Z * Z) :=
  let '(bm, be) := d in
  let num := Z.abs bm * 2 ^ Z.max 0 be in
  let den := 2 ^ Z.max 0 (- be) in
  let n := dec_exponent num den in
  List.concat
    (map (fun k =>
            let p := n - k in
            let a := num * 10 ^ Z.max 0 (- p) in
            let b := den * 10 ^ Z.max 0 p in
            let lo := a / b in
            let near := match Z.compare (2 * a) ((2 * lo + 1) * b) with
                        | Lt => [lo; lo + 1]
                        | Gt => [lo + 1; lo]
                        | Eq => if Z.even lo then [lo; lo + 1] else [lo + 1; lo]
                        end in
            map (fun s => normalize_dec (if bm <? 0 then - s else s) p) near)
         (map Z.of_nat (seq 1 17))).

Definition pair_eqb (x y : Z * Z) : bool := (fst x =? fst y) && (snd x =? snd y).

(** A normalised non-zero decimal that reads back as the double [d]. *)
Definition round_trips (d c : Z * Z) : bool :=
  negb (fst c =? 0) && negb (dec_overflows (fst c) (snd c))
  && pair_eqb (normalize_dec (fst c) (snd c)) c && pair_eqb (round_dec (fst c) (snd c)) d.

(** The decimal that [Number::toString] writes for [d]: the fewest
    significant digits that read back as [d], and among those the nearest
    to [d], the even one on a tie.  Seventeen digits always read back, so
    the search never fails. *)
Definition shortest (d : Z * Z) : option (Z * Z) := find (round_trips d) (digit_candidates d).

(** [Number(text)] for the decimal [m * 10^e] written in [text]: an
    infinity beyond the binary64 range, otherwise the nearest double (ties
    to even, down to the subnormals and [0]), held as the decimal
    [Number::toString] writes for it.  Two literals give the same [jsnum]
    exactly when they give the same double. *)
Definition make_number (m e : Z) : jsnum :=
  if dec_overflows m e then (if m <? 0 then NNegInf else NPosInf)
  else
    let '(m', e') := normalize_dec m e in
    let d := round_dec m' e' in
    if fst d =? 0 then NFin 0 0
    else match shortest d with
         | Some (s, p) => NFin s p
         | None => NFin m' e'
         end.

(** A non-negative integer below [2^53] (an array length): binary64 holds
    it exactly, and [Number::toString] writes its digits. *)
Definition int_num (z : Z) : jsnum := let '(m, e) := normalize_dec z 0 in NFin m e.

Fixpoint take_digits (s : jsstr) : list Z * jsstr :=
  match s with
  | c :: r => if is_digit c then let '(ds, r') := take_digits r in (c :: ds, r') else ([], s)
  | [] => ([], [])
  end.

(** [Some rest] when [s] starts with the code unit [c]. *)
Definition eat (c : Z) (s : jsstr) : option jsstr :=
  match s with
  | x :: r => if x =? c then Some r else None
  | [] => None
  end.

(** The number grammar of [JSON.parse]:
    [-? (0 | [1-9][0-9]* ) (. [0-9]+)? ([eE] [+-]? [0-9]+)?], read in four
    steps: the sign, the integer part, the fraction and the exponent. *)
Definition num_sign (s : jsstr) : bool * jsstr :=
  match eat 45 s with Some r => (true, r) | None => (false, s) end.

Definition num_int (s1 : jsstr) : option (list Z * jsstr) :=
  match eat 48 s1 with
  | Some r => Some ([48], r)
  | None =>
      match s1 with
      | c :: _ => if is_digit c then Some (take_digits s1) else None
      | [] => None
      end
  end.

Definition num_frac (s2 : jsstr) : option (list Z * jsstr) :=
  match eat 46 s2 with
  | Some r => let '(fds, r') := take_digits r in
              match fds with [] => None | _ => Some (fds, r') end
  | None => Some ([], s2)
  end.

Definition num_exp (s3 : jsstr) : option (Z * jsstr) :=
  match s3 with
  | c :: r =>
      if (c =? 101) || (c =? 69) then
        let '(esign, r1) :=
          match eat 43 r with
          | Some r' => (1, r')
          | None => match eat 45 r with Some r' => (-1, r') | None => (1, r) end
          end in
        let '(eds, r2) := take_digits r1 in
        match eds with [] => None | _ => Some (esign * digits_value eds, r2) end
      else Some (0, s3)
  | [] => Some (0, s3)
  end.

Definition parse_number (s : jsstr) : option (jsnum * jsstr) :=
  let '(neg, s1) := num_sign s in
  match num_int s1 with
  | None => None
  | Some (ids, s2) =>
      match num_frac s2 with
      | None => None
      | Some (fds, s3) =>
          match num_exp s3 with
          | None => None
          | Some (ex, s4) =>
              let mag := digits_value (ids ++ fds) in
              let m := if neg then - mag else mag in
              Some (make_number m (ex - Z.of_nat (List.length fds)), s4)
          end
      end
  end.

(** ** [JSON.parse] *)

Definition is_json_ws (c : Z) : bool := (c =? 32) || (c =? 9) || (c =? 10) || (c =? 13).

Fixpoint skip_jws (s : jsstr) : jsstr :=
  match s with
  | c :: r => if is_json_ws c then skip_jws r else s
  | [] => []
  end.

Definition hex_val (c : Z) : option Z :=
  if is_digit c then Some (c - 48)
  else if (97 <=? c) && (c <=? 102) then Some (c - 87)
  else if (65 <=? c) && (c <=? 70) then Some (c - 55)
  else None.

Definition hex4 (a b c d : Z) : option Z :=
  match hex_val a, hex_val b, hex_val c, hex_val d with
  | Some a', Some b', Some c', Some d' => Some (((a' * 16 + b') * 16 + c') * 16 + d')
  | _, _, _, _ => None
  end.

(** The one-letter escapes: quote, backslash, slash, b, f, n, r, t. *)
Definition simple_escape (e : Z) : option Z :=
  if e =? 34 then Some 34 else if e =? 92 then Some 92 else if e =? 47 then Some 47
  else if e =? 98 then Some 8 else if e =? 102 then Some 12 else if e =? 110 then Some 10
  else if e =? 114 then Some 13 else if e =? 116 then Some 9 else None.

(** The characters of a string literal after its opening quote, up to and
    including the closing quote. *)
Fixpoint str_body (s : jsstr) : option (jsstr * jsstr) :=
  match s with
  | [] => None
  | c :: r =>
      if c =? 34 then Some ([], r)
      else if c =? 92 then
        match r with
        | [] => None
        | e :: r1 =>
            if e =? 117 then
              match r1 with
              | h1 :: h2 :: h3 :: h4 :: r2 =>
                  match hex4 h1 h2 h3 h4 with
                  | Some u => match str_body r2 with
                              | Some (t, r3) => Some (u :: t, r3)
                              | None => None
                              end
                  | None => None
                  end
              | _ => None
              end
            else
              match simple_escape e with
              | Some u => match str_body r1 with
                          | Some (t, r3) => Some (u :: t, r3)
                          | None => None
                          end
              | None => None
              end
        end
      else if c <? 32 then None
      else match str_body r with
           | Some (t, r') => Some (c :: t, r')
           | None => None
           end
  end.

(** Array indices: canonical decimal strings of integers below [2^32 - 1]. *)
Definition is_array_index (k : jsstr) : bool :=
  match k with
  | [48] => true
  | c :: r => (49 <=? c) && (c <=? 57) && forallb is_digit r && (digits_value k <? 2 ^ 32 - 1)
  | [] => false
  end.

Fixpoint obj_get (k : jsstr) (fs : list (jsstr * json)) : option json :=
  match fs with
  | [] => None
  | (k', v) :: r => if jsstr_eqb k k' then Some v else obj_get k r
  end.

Fixpoint obj_replace (k : jsstr) (v : json) (fs : list (jsstr * json)) : list (jsstr * json) :=
  match fs with
  | [] => []
  | (k', v') :: r => if jsstr_eqb k k' then (k', v) :: r else (k', v') :: obj_replace k v r
  end.

(** A new array-index key goes before the first key that is not an index or
    is a larger index. *)
Fixpoint obj_insert_index (k : jsstr) (v : json) (fs : list (jsstr * json)) : list (jsstr * json) :=
  match fs with
  | [] => [(k, v)]
  | (k', v') :: r =>
      if is_array_index k' && (digits_value k' <? digits_value k)
      then (k', v') :: obj_insert_index k v r
      else (k, v) :: fs
  end.

(** [CreateDataProperty] / [[Set]] of an own data property [k]: an existing
    key keeps its place, a new one goes where JavaScript property order puts it. *)
Definition obj_set (k : jsstr) (v : json) (fs : list (jsstr * json)) : list (jsstr * json) :=
  match obj_get k fs with
  | Some _ => obj_replace k v fs
  | None => if is_array_index k then obj_insert_index k v fs else fs ++ [(k, v)]
  end.

(** Recursive descent over the text, bounded by [fuel]. *)
Fixpoint pvalue (fuel : nat) (s : jsstr) {struct fuel} : option (json * jsstr) :=
  match fuel with
  | O => None
  | S f =>
      match skip_jws s with
      | [] => None
      | c :: r =>
          if c =? 123 then
            match skip_jws r with
            | d :: r' => if d =? 125 then Some (JObj [], r') else pmembers f [] (skip_jws r)
            | [] => None
            end
          else if c =? 91 then
            match skip_jws r with
            | d :: r' => if d =? 93 then Some (JArr [], r') else pelems f [] (skip_jws r)
            | [] => None
            end
          else if c =? 34 then
            match str_body r with
            | Some (t, r') => Some (JStr t, r')
            | None => None
            end
          else if starts_with (js "true") (c :: r) then Some (JBool true, skipn 4 (c :: r))
          else if starts_with (js "false") (c :: r) then Some (JBool false, skipn 5 (c :: r))
          else if starts_with (js "null") (c :: r) then Some (JNull, skipn 4 (c :: r))
          else match parse_number (c :: r) with
               | Some (n, r') => Some (JNum n, r')
               | None => None
               end
      end
  end
with pelems (fuel : nat) (acc : list json) (s : jsstr) {struct fuel} : option (json * jsstr) :=
  match fuel with
  | O => None
  | S f =>
      match pvalue f s with
      | None => None
      | Some (v, r) =>
          match skip_jws r with
          | d :: r' =>
              if d =? 44 then pelems f (acc ++ [v]) r'
              else if d =? 93 then Some (JArr (acc ++ [v]), r')
              else None
          | [] => None
          end
      end
  end
with pmembers (fuel : nat) (acc : list (jsstr * json)) (s : jsstr) {struct fuel}
  : option (json * jsstr) :=
  match fuel with
  | O => None
  | S f =>
      match skip_jws s with
      | d :: r =>
          if d =? 34 then
            match str_body r with
            | Some (k, r1) =>
                match skip_jws r1 with
                | e :: r2 =>
                    if e =? 58 then
                      match pvalue f r2 with
                      | Some (v, r3) =>
                          match skip_jws r3 with
                          | g :: r4 =>
                              if g =? 44 then pmembers f (obj_set k v acc) r4
                              else if g =? 125 then Some (JObj (obj_set k v acc), r4)
                              else None
                          | [] => None
                          end
                      | None => None
                      end
                    else None
                | [] => None
                end
            | None => None
            end
          else None
      | [] => None
      end
  end.

(** [JSON.parse]: one value, surrounded by JSON whitespace only.  Every call
    of the descent either consumes a code unit or is followed by one that
    does, so twice the length of the text is enough fuel. *)
Definition JSON_parse (s : jsstr) : result json :=
  match pvalue (2 * List.length s + 2) s with
  | Some (v, r) => match skip_jws r with [] => Ok v | _ :: _ => Err SyntaxError end
  | None => Err SyntaxError
  end.

(** ** [JSON.stringify(v, null, 2)] and [String(v)] *)

(** [Number::toString] on the decimal [m * 10^e]: with [k] digits and
    [n = e + k], plain notation for [-6 < n <= 21], exponential otherwise. *)
Definition fin_to_string (m e : Z) : jsstr :=
  if m =? 0 then [48]
  else
    let sign := if m <? 0 then [45] else [] in
    let ds := zdigits (Z.abs m) in
    let k := Z.of_nat (List.length ds) in
    let n := e + k in
    sign ++
    (if (k <=? n) && (n <=? 21) then ds ++ List.repeat 48 (Z.to_nat (n - k))
     else if (0 <? n) && (n <=? 21) then firstn (Z.to_nat n) ds ++ [46] ++ skipn (Z.to_nat n) ds
     else if (-6 <? n) && (n <=? 0) then [48; 46] ++ List.repeat 48 (Z.to_nat (- n)) ++ ds
     else
       let ex := n - 1 in
       let exs := (if 0 <=? ex then [43] else [45]) ++ zdigits (Z.abs ex) in
       match ds with
       | [d] => [d; 101] ++ exs
       | d :: rest => [d; 46] ++ rest ++ [101] ++ exs
       | [] => []
       end).

Definition num_to_string (n : jsnum) : jsstr :=
  match n with
  | NFin m e => fin_to_string m e
  | NPosInf => js "Infinity"
  | NNegInf => js "-Infinity"
  end.

(** [JSON.stringify] writes non-finite numbers as [null]. *)
Definition num_json (n : jsnum) : jsstr :=
  match n with
  | NFin m e => fin_to_string m e
  | _ => js "null"
  end.

Definition hex_digit (d : Z) : Z := if d <? 10 then 48 + d else 87 + d.

Definition esc_u (c : Z) : jsstr :=
  [92; 117; hex_digit (c / 4096); hex_digit (c / 256 mod 16);
   hex_digit (c / 16 mod 16); hex_digit (c mod 16)].

Definition escape_unit (c : Z) : jsstr :=
  if c =? 8 then [92; 98] else if c =? 9 then [92; 116] else if c =? 10 then [92; 110]
  else if c =? 12 then [92; 102] else if c =? 13 then [92; 114]
  else if c =? 34 then [92; 34] else if c =? 92 then [92; 92]
  else if c <? 32 then esc_u c else [c].

Definition is_high (c : Z) : bool := (55296 <=? c) && (c <=? 56319).
Definition is_low (c : Z) : bool := (56320 <=? c) && (c <=? 57343).

(** QuoteJSONString: lone surrogates are written as [\uXXXX]. *)
Fixpoint quote_units (s : jsstr) : jsstr :=
  match s with
  | [] => []
  | c :: r =>
      if is_high c then
        match r with
        | d :: r' => if is_low d then c :: d :: quote_units r' else esc_u c ++ quote_units r
        | [] => esc_u c
        end
      else if is_low c then esc_u c ++ quote_units r
      else escape_unit c ++ quote_units r
  end.

Definition quote (s : jsstr) : jsstr := [34] ++ quote_units s ++ [34].

Definition indent (n : nat) : jsstr := List.repeat 32 (2 * n).

Fixpoint stringify_at (ind : nat) (v : json) {struct v} : jsstr :=
  match v with
  | JNull => js "null"
  | JBool b => if b then js "true" else js "false"
  | JNum n => num_json n
  | JStr s => quote s
  | JArr [] => js "[]"
  | JArr (x :: r) =>
      [91; 10] ++ indent (S ind) ++ stringify_at (S ind) x
      ++ List.concat (map (fun y => [44; 10] ++ indent (S ind) ++ stringify_at (S ind) y) r)
      ++ [10] ++ indent ind ++ [93]
  | JObj [] => js "{}"
  | JObj ((k, x) :: r) =>
      [123; 10] ++ indent (S ind) ++ quote k ++ [58; 32] ++ stringify_at (S ind) x
      ++ List.concat (map (fun '(k', y) =>
                        [44; 10] ++ indent (S ind) ++ quote k' ++ [58; 32] ++ stringify_at (S ind) y) r)
      ++ [10] ++ indent ind ++ [125]
  end.

Definition JSON_stringify (v : json) : jsstr := stringify_at 0 v.

(** [String(v)]: an array is joined with commas ([null] elements give the
    empty string); an object is ["[object Object]"], unless it has an own
    [toString] property, whose (non-callable) value makes [ToPrimitive]
    throw. *)
Fixpoint js_to_string (v : json) : result jsstr :=
  match v with
  | JNull => Ok (js "null")
  | JBool b => Ok (if b then js "true" else js "false")
  | JNum n => Ok (num_to_string n)
  | JStr s => Ok s
  | JArr l =>
      (fix join (l : list json) : result jsstr :=
         match l with
         | [] => Ok []
         | x :: r =>
             sx <- (match x with JNull => Ok [] | _ => js_to_string x end) ;;
             sr <- join r ;;
             Ok (match r with [] => sx | _ => sx ++ [44] ++ sr end)
         end) l
  | JObj fs =>
      match obj_get (js "toString") fs with
      | Some _ => Err TypeError
      | None => Ok (js "[object Object]")
      end
  end.

(** ** json-utils: extractJsonFromMarkdown and isValidJson *)

Definition to_lower (c : Z) : Z := if (65 <=? c) && (c <=? 90) then c + 32 else c.

(** Case-insensitive prefix test, [p] in lower case (flag [i] of a regular
    expression folds ASCII letters only). *)
Definition starts_with_ci (p s : jsstr) : bool :=
  starts_with p (map to_lower (firstn (List.length p) s)).

(** [.replace(/^```(?:json|javascript|js)?\s*\n?/i, '')]: the alternatives
    are tried in order; [\s*] already takes every newline, so [\n?] matches
    the empty string. *)
Definition strip_open_fence (s : jsstr) : jsstr :=
  if starts_with (js "```") s then
    let r := skipn 3 s in
    let r' := if starts_with_ci (js "json") r then skipn 4 r
              else if starts_with_ci (js "javascript") r then skipn 10 r
              else if starts_with_ci (js "js") r then skipn 2 r
              else r in
    drop_ws r'
  else s.

(** Does [/\n?```\s*$/] match at the start of [t]? *)
Definition close_fence_at (t : jsstr) : bool :=
  let fence_then_ws u := starts_with (js "```") u && forallb is_js_ws (skipn 3 u) in
  match t with
  | 10 :: u => fence_then_ws u || fence_then_ws t
  | _ => fence_then_ws t
  end.

(** [.replace(/\n?```\s*$/i, '')]: the leftmost match is removed. *)
Fixpoint strip_close_fence (s : jsstr) : jsstr :=
  match s with
  | [] => []
  | c :: r => if close_fence_at s then [] else c :: strip_close_fence r
  end.

Definition ends_with (p s : jsstr) : bool := starts_with (rev p) (rev s).

Definition extractJsonFromMarkdown (str : jsstr) : jsstr :=
  let trimmed := trim str in
  let extracted := trim (strip_close_fence (strip_open_fence trimmed)) in
  if starts_with [96] extracted && ends_with [96] extracted
  then trim (firstn (List.length extracted - 2) (skipn 1 extracted))
  else extracted.

Definition is_ok {A} (r : result A) : bool := match r with Ok _ => true | Err _ => false end.

Definition isValidJson (str : jsstr) : bool :=
  is_ok (JSON_parse (trim str)) || is_ok (JSON_parse (extractJsonFromMarkdown str)).

(** ** json-utils: deepEqual (default tolerance 0) *)

Definition jsnum_eqb (x y : jsnum) : bool :=
  match x, y with
  | NFin m e, NFin m' e' => (m =? m') && (e =? e')
  | NPosInf, NPosInf | NNegInf, NNegInf => true
  | _, _ => false
  end.

(** The property name of array index [i]. *)
Definition index_key (i : nat) : jsstr :=
  if (i =? 0)%nat then [48] else zdigits (Z.of_nat i).

(** [Object.keys]: the indices of an array, the own keys of an object. *)
Definition own_keys (v : json) : list jsstr :=
  match v with
  | JArr l => map index_key (seq 0 (List.length l))
  | JObj fs => map fst fs
  | _ => []
  end.

Definition arr_get (k : jsstr) (l : list json) : option json :=
  if is_array_index k then nth_error l (Z.to_nat (digits_value k)) else None.

(** [v[k]] for an own data property; an array also has [length]. *)
Definition get_data (v : json) (k : jsstr) : option json :=
  match v with
  | JObj fs => obj_get k fs
  | JArr l =>
      if jsstr_eqb k (js "length") then Some (JNum (int_num (Z.of_nat (List.length l))))
      else arr_get k l
  | _ => None
  end.

Fixpoint insert_str (k : jsstr) (l : list jsstr) : list jsstr :=
  match l with
  | [] => [k]
  | k' :: r => match jsstr_compare k k' with Gt => k' :: insert_str k r | _ => k :: l end
  end.

(** [Array.prototype.sort] without comparator, on strings. *)
Definition sort_strings (l : list jsstr) : list jsstr := fold_right insert_str [] l.

Fixpoint strs_eqb (a b : list jsstr) : bool :=
  match a, b with
  | [], [] => true
  | x :: a', y :: b' => jsstr_eqb x y && strs_eqb a' b'
  | _, _ => false
  end.

Definition is_objlike (v : json) : bool :=
  match v with JArr _ | JObj _ => true | _ => false end.

(** For two objects (or an array and an object), [keys1.every(key =>
    deepEqual(obj1[key], obj2[key]))] is read along the own properties of
    [obj1]: the test is pure, so the order does not matter. *)
Fixpoint deepEqual (a b : json) {struct a} : bool :=
  match a, b with
  | JNull, JNull => true
  | JBool x, JBool y => Bool.eqb x y
  | JNum x, JNum y => jsnum_eqb x y
  | JStr x, JStr y => jsstr_eqb x y
  | JArr l1, JArr l2 =>
      (List.length l1 =? List.length l2)%nat &&
      (fix go (l1 l2 : list json) : bool :=
         match l1, l2 with
         | x :: r1, y :: r2 => deepEqual x y && go r1 r2
         | [], [] => true
         | _, _ => false
         end) l1 l2
  | JArr l1, JObj _ =>
      strs_eqb (sort_strings (own_keys a)) (sort_strings (own_keys b)) &&
      (fix go (i : nat) (l1 : list json) : bool :=
         match l1 with
         | x :: r1 => match get_data b (index_key i) with
                      | Some y => deepEqual x y
                      | None => false
                      end && go (S i) r1
         | [] => true
         end) 0%nat l1
  | JObj f1, (JArr _ | JObj _) =>
      strs_eqb (sort_strings (own_keys a)) (sort_strings (own_keys b)) &&
      (fix go (f1 : list (jsstr * json)) : bool :=
         match f1 with
         | (k, x) :: r1 => match get_data b k with
                           | Some y => deepEqual x y
                           | None => false
                           end && go r1
         | [] => true
         end) f1
  | _, _ => false
  end.

(** ** json-utils: calculateGranularSimilarity and calculateObjectSimilarity *)

Definition typeof (v : json) : nat :=
  match v with
  | JNull | JArr _ | JObj _ => 0   (* object *)
  | JBool _ => 1                    (* boolean *)
  | JNum _ => 2                     (* number *)
  | JStr _ => 3                     (* string *)
  end.

Definition addmt (x y : Z * Z) : Z * Z := (fst x + fst y, snd x + snd y).

(** [calculateGranularSimilarity(n, v)] for a number [n]. *)
Definition granular_num (n : jsnum) (v : json) : Z * Z :=
  match v with
  | JNum m => (if jsnum_eqb n m then 1 else 0, 1)
  | _ => (0, 1)
  end.

(** For two objects (or an array and an object) the keys of [allKeys] are
    visited as the own keys of [obj1], then the keys of [obj2] that [obj1]
    lacks.  [key in obj] also holds for inherited, function-valued
    properties; recursing on a function gives [{0, 1}] (its [typeof]
    differs), the same as the branch for a missing key, so only data
    properties are looked up.  The one inherited data property is the
    [length] of an array. *)
Fixpoint granular (a b : json) {struct a} : Z * Z :=
  match a, b with
  | JNull, JNull => (1, 1)
  | JBool x, JBool y => (if Bool.eqb x y then 1 else 0, 1)
  | JNum x, JNum y => (if jsnum_eqb x y then 1 else 0, 1)
  | JStr x, JStr y => (if jsstr_eqb x y then 1 else 0, 1)
  | JArr l1, JArr l2 =>
      let n1 := List.length l1 in
      let n2 := List.length l2 in
      if (Nat.max n1 n2 =? 0)%nat then (1, 1)
      else
        addmt ((fix go (l1 l2 : list json) : Z * Z :=
                  match l1, l2 with
                  | x :: r1, y :: r2 => addmt (granular x y) (go r1 r2)
                  | _, _ => (0, 0)
                  end) l1 l2)
              (0, Z.of_nat (Nat.max n1 n2 - Nat.min n1 n2))
  | JArr l1, JObj f2 =>
      if ((List.length l1 =? 0)%nat && (List.length f2 =? 0)%nat) then (1, 1)
      else
        addmt ((fix go (i : nat) (l1 : list json) : Z * Z :=
                  match l1 with
                  | x :: r1 => addmt (match get_data b (index_key i) with
                                      | Some y => granular x y
                                      | None => (0, 1)
                                      end) (go (S i) r1)
                  | [] => (0, 0)
                  end) 0%nat l1)
              (fold_right addmt (0, 0)
                 (map (fun '(k, y) =>
                         if existsb (jsstr_eqb k) (own_keys a) then (0, 0)
                         else if jsstr_eqb k (js "length")
                         then granular_num (int_num (Z.of_nat (List.length l1))) y
                         else (0, 1)) f2))
  | JObj f1, (JArr _ | JObj _) =>
      if ((List.length f1 =? 0)%nat && (List.length (own_keys b) =? 0)%nat) then (1, 1)
      else
        addmt ((fix go (f1 : list (jsstr * json)) : Z * Z :=
                  match f1 with
                  | (k, x) :: r1 => addmt (match get_data b k with
                                           | Some y => granular x y
                                           | None => (0, 1)
                                           end) (go r1)
                  | [] => (0, 0)
                  end) f1)
              (fold_right addmt (0, 0)
                 (map (fun k => if existsb (jsstr_eqb k) (own_keys a) then (0, 0) else (0, 1))
                    (own_keys b)))
  | _, _ => (0, 1)
  end.

Definition calculateObjectSimilarity (a b : json) : Q :=
  if deepEqual a b then 1%Q
  else let '(m, t) := granular a b in (inject_Z m / inject_Z t)%Q.

Definition calculateJsonStructuralSimilarity (a b : json) : Q :=
  if deepEqual a b then 1%Q else calculateObjectSimilarity a b.

(** ** diff: calculateLCSArrayDiff *)

(** The comparison [x < y] on scores. *)
Definition Qlt_bool (x y : Q) : bool := negb (Qle_bool y x).

Inductive array_op_type := OpEqual | OpAdded | OpRemoved | OpMoved.

Record ArrayDiffOperation := {
  op_type : array_op_type;
  op_value : json;
  oldIndex : option nat;
  newIndex : option nat
}.

Section LCS.
Variables arr1 arr2 : list json.

Definition el1 (i : nat) : json := nth i arr1 JNull.
Definition el2 (j : nat) : json := nth j arr2 JNull.

(** The entry [lcs[i][j]] of the table filled by the first loop. *)
Fixpoint lcs (i : nat) {struct i} : nat -> nat :=
  match i with
  | O => fun _ => O
  | S i' =>
      fix row (j : nat) : nat :=
        match j with
        | O => O
        | S j' => if deepEqual (el1 i') (el2 j') then (lcs i' j' + 1)%nat
                  else Nat.max (lcs i' (S j')) (row j')
        end
  end.

(** One iteration of the backtracking [while (i > 0 || j > 0)] loop. *)
Definition lcs_step (i j : nat) (ops : list ArrayDiffOperation)
  : list ArrayDiffOperation * nat * nat :=
  if (0 <? i)%nat && (0 <? j)%nat && deepEqual (el1 (i - 1)) (el2 (j - 1)) then
    ({| op_type := OpEqual; op_value := el1 (i - 1);
        oldIndex := Some (i - 1)%nat; newIndex := Some (j - 1)%nat |} :: ops, (i - 1)%nat, (j - 1)%nat)
  else if (0 <? i)%nat && (0 <? j)%nat
          && Qlt_bool (8 # 10) (calculateObjectSimilarity (el1 (i - 1)) (el2 (j - 1))) then
    ({| op_type := OpEqual; op_value := el2 (j - 1);
        oldIndex := Some (i - 1)%nat; newIndex := Some (j - 1)%nat |} :: ops, (i - 1)%nat, (j - 1)%nat)
  else if (0 <? j)%nat && ((i =? 0)%nat || (lcs (i - 1) j <=? lcs i (j - 1))%nat) then
    ({| op_type := OpAdded; op_value := el2 (j - 1);
        oldIndex := None; newIndex := Some (j - 1)%nat |} :: ops, i, (j - 1)%nat)
  else
    ({| op_type := OpRemoved; op_value := el1 (i - 1);
        oldIndex := Some (i - 1)%nat; newIndex := None |} :: ops, (i - 1)%nat, j).

(** The loop, run for at most [fuel] iterations; it returns the operations
    and the final [i], [j]. *)
Fixpoint lcs_loop (fuel i j : nat) (ops : list ArrayDiffOperation)
  : list ArrayDiffOperation * nat * nat :=
  match fuel with
  | O => (ops, i, j)
  | S f =>
      if (0 <? i)%nat || (0 <? j)%nat then
        let '(ops', i', j') := lcs_step i j ops in lcs_loop f i' j' ops'
      else (ops, i, j)
  end.

Definition calculateLCSArrayDiff : list ArrayDiffOperation :=
  let '(ops, _, _) :=
    lcs_loop (List.length arr1 + List.length arr2) (List.length arr1) (List.length arr2) [] in
  ops.
End LCS.

(** ** diff: word-level diff (calculateDiff) *)

Inductive DiffOperation := EQUAL | DELETE | INSERT | REPLACE.

Record DiffPart := {
  operation : DiffOperation;
  text : jsstr;
  goldenText : option jsstr;
  outputText : option jsstr;
  cost : option Q
}.

(** [text.trim().split(/(\s+)/).filter(t => t.trim().length > 0).map(t =>
    t.trim())]: the maximal runs of non-whitespace code units. *)
Fixpoint tok (s : jsstr) (cur : jsstr) : list jsstr :=
  match s with
  | [] => match cur with [] => [] | _ => [rev cur] end
  | c :: r =>
      if is_js_ws c then
        match cur with [] => tok r [] | _ => rev cur :: tok r [] end
      else tok r (c :: cur)
  end.

Definition tokenize (t : jsstr) : list jsstr := tok (trim t) [].

(** One row of the edit-distance table: [diag] is [dp[i-1][j-1]], [ups]
    the rest of row [i-1], [left] is [dp[i][j-1]]. *)
Fixpoint lev_row (c : Z) (s2 : jsstr) (diag : nat) (ups : list nat) (left : nat) : list nat :=
  match s2, ups with
  | d :: s2', up :: ups' =>
      let v := if c =? d then diag else S (Nat.min (Nat.min up left) diag) in
      v :: lev_row c s2' up ups' v
  | _, _ => []
  end.

Fixpoint lev_rows (s1 s2 : jsstr) (i : nat) (prev : list nat) : list nat :=
  match s1 with
  | [] => prev
  | c :: r =>
      let row := (S i) :: lev_row c s2 (hd O prev) (tl prev) (S i) in
      lev_rows r s2 (S i) row
  end.

Definition levenshteinDistance (s1 s2 : jsstr) : nat :=
  last (lev_rows s1 s2 0 (seq 0 (S (List.length s2)))) O.

Definition calculateWordSimilarity (w1 w2 : jsstr) : Q :=
  if jsstr_eqb w1 w2 then 1%Q
  else
    let maxLength := Nat.max (List.length w1) (List.length w2) in
    if (maxLength =? 0)%nat then 1%Q
    else (1 - inject_Z (Z.of_nat (levenshteinDistance w1 w2)) / inject_Z (Z.of_nat maxLength))%Q.

Definition replace_cost (similar : bool) : Q := if similar then (1 # 2)%Q else 1%Q.

(** The tables [dp] and [operations] of computeWordDiff, entry [(i, j)];
    [eqt] and [sim] are the equality and similarity tests. *)
Section EditTable.
Variable eqt : jsstr -> jsstr -> bool.
Variable similar : jsstr -> jsstr -> bool.
Variables golden output : list jsstr.

Definition gw (i : nat) : jsstr := nth i golden [].
Definition ow (j : nat) : jsstr := nth j output [].

Fixpoint edit_table (i : nat) {struct i} : nat -> Q * DiffOperation :=
  match i with
  | O => fun j => (inject_Z (Z.of_nat j), INSERT)
  | S i' =>
      fix row (j : nat) : Q * DiffOperation :=
        match j with
        | O => (inject_Z (Z.of_nat (S i')), DELETE)
        | S j' =>
            if eqt (gw i') (ow j') then (fst (edit_table i' j'), EQUAL)
            else
              let deleteCost := (fst (edit_table i' (S j')) + 1)%Q in
              let insertCost := (fst (row j') + 1)%Q in
              let replaceCost := (fst (edit_table i' j') + replace_cost (similar (gw i') (ow j')))%Q in
              let minCost := Qmin (Qmin deleteCost insertCost) replaceCost in
              (minCost,
               if Qeq_bool minCost replaceCost then REPLACE
               else if Qeq_bool minCost deleteCost then DELETE
               else INSERT)
        end
  end.
End EditTable.

Definition word_similar (a b : jsstr) : bool := Qlt_bool (8 # 10) (calculateWordSimilarity a b).

(** The backtracking loop of computeWordDiff, at most [fuel] iterations. *)
Fixpoint word_back (g o : list jsstr) (fuel i j : nat) (parts : list DiffPart) : list DiffPart :=
  match fuel with
  | O => parts
  | S f =>
      if (0 <? i)%nat || (0 <? j)%nat then
        match snd (edit_table jsstr_eqb word_similar g o i j) with
        | EQUAL =>
            word_back g o f (i - 1) (j - 1)
              ({| operation := EQUAL; text := gw g (i - 1); goldenText := None;
                  outputText := None; cost := None |} :: parts)
        | DELETE =>
            word_back g o f (i - 1) j
              ({| operation := DELETE; text := gw g (i - 1); goldenText := None;
                  outputText := None; cost := None |} :: parts)
        | INSERT =>
            word_back g o f i (j - 1)
              ({| operation := INSERT; text := ow o (j - 1); goldenText := None;
                  outputText := None; cost := None |} :: parts)
        | REPLACE =>
            let replaceCost := replace_cost (word_similar (gw g (i - 1)) (ow o (j - 1))) in
            word_back g o f (i - 1) (j - 1)
              ({| operation := REPLACE; text := ow o (j - 1); goldenText := Some (gw g (i - 1));
                  outputText := Some (ow o (j - 1)); cost := Some replaceCost |} :: parts)
        end
      else parts
  end.

Definition computeWordDiff (g o : list jsstr) : list DiffPart :=
  word_back g o (List.length g + List.length o) (List.length g) (List.length o) [].

Record Changes := { added : nat; removed : nat; modified : nat }.

Record Stats := {
  st_diffScore : Q;
  st_levenshteinDistance : nat;
  st_changes : Changes
}.

(** [part.cost || 1.0]: a missing or zero cost counts as 1. *)
Definition part_cost (p : DiffPart) : Q :=
  match cost p with
  | Some c => if Qeq_bool c 0 then 1%Q else c
  | None => 1%Q
  end.

Definition diffop_eqb (a b : DiffOperation) : bool :=
  match a, b with
  | EQUAL, EQUAL | DELETE, DELETE | INSERT, INSERT | REPLACE, REPLACE => true
  | _, _ => false
  end.

(** The counters of the [switch (part.operation)] loop. *)
Definition count_op (o : DiffOperation) (ps : list DiffPart) : nat :=
  List.length (filter (fun p => diffop_eqb (operation p) o) ps).

(** The weighted cost each part adds to [totalCost]. *)
Definition op_cost (p : DiffPart) : Q :=
  match operation p with
  | INSERT | DELETE => 1%Q
  | REPLACE => part_cost p
  | EQUAL => 0%Q
  end.

Definition calculateStats (ps : list DiffPart) : Stats :=
  let add := count_op INSERT ps in
  let rem := count_op DELETE ps in
  let md := count_op REPLACE ps in
  let eq := count_op EQUAL ps in
  let totalCost := fold_left (fun acc p => acc + op_cost p)%Q ps 0%Q in
  let total := (add + rem + md + eq)%nat in
  {| st_diffScore := if (total =? 0)%nat then 0%Q
                     else (totalCost / inject_Z (Z.of_nat total))%Q;
     st_levenshteinDistance := (add + rem + md)%nat;
     st_changes := {| added := add; removed := rem; modified := md |} |}.

Record DiffResult := {
  diffScore : Q;
  levenshtein : nat;
  wordCount : nat * nat;
  similarity : Q;
  changes : Changes
}.

Definition calculateDiff (golden output : jsstr) : DiffResult :=
  let goldenWords := tokenize golden in
  let outputWords := tokenize output in
  let diffParts := computeWordDiff goldenWords outputWords in
  let stats := calculateStats diffParts in
  {| diffScore := st_diffScore stats;
     levenshtein := st_levenshteinDistance stats;
     wordCount := (List.length goldenWords, List.length outputWords);
     similarity := (1 - st_diffScore stats)%Q;
     changes := st_changes stats |}.

(** ** diff: line-level diff (calculateLineDiff) *)

(** [str.split('\n')]: always at least one line. *)
Fixpoint split_lines (s : jsstr) : list jsstr :=
  match s with
  | [] => [[]]
  | c :: r =>
      let ls := split_lines r in
      if c =? 10 then [] :: ls
      else match ls with
           | l :: ls' => (c :: l) :: ls'
           | [] => [[c]]
           end
  end.

Definition calculateLineSimilarity (line1 line2 : jsstr) : Q :=
  let trimmed1 := trim line1 in
  let trimmed2 := trim line2 in
  if jsstr_eqb trimmed1 trimmed2 then 1%Q
  else
    let maxLength := Nat.max (List.length trimmed1) (List.length trimmed2) in
    if (maxLength =? 0)%nat then 1%Q
    else (1 - inject_Z (Z.of_nat (levenshteinDistance trimmed1 trimmed2))
              / inject_Z (Z.of_nat maxLength))%Q.

Definition line_eq (a b : jsstr) : bool := jsstr_eqb (trim a) (trim b).
Definition line_similar (a b : jsstr) : bool := Qlt_bool (9 # 10) (calculateLineSimilarity a b).

Record LineDiffPart := {
  l_operation : DiffOperation;
  l_text : jsstr;
  lineNumber : option nat
}.

(** The backtracking loop of computeLineDiff; [goldenLineNum] and
    [outputLineNum] move together with [i] and [j], so they are [i] and [j]. *)
Fixpoint line_back (g o : list jsstr) (fuel i j : nat) (parts : list LineDiffPart)
  : list LineDiffPart :=
  match fuel with
  | O => parts
  | S f =>
      if (0 <? i)%nat || (0 <? j)%nat then
        match snd (edit_table line_eq line_similar g o i j) with
        | EQUAL =>
            line_back g o f (i - 1) (j - 1)
              ({| l_operation := EQUAL; l_text := gw g (i - 1); lineNumber := Some i |} :: parts)
        | DELETE =>
            line_back g o f (i - 1) j
              ({| l_operation := DELETE; l_text := gw g (i - 1); lineNumber := Some i |} :: parts)
        | INSERT =>
            line_back g o f i (j - 1)
              ({| l_operation := INSERT; l_text := ow o (j - 1); lineNumber := Some j |} :: parts)
        | REPLACE =>
            (* unshift of the DELETE part, then unshift of the INSERT part *)
            line_back g o f (i - 1) (j - 1)
              ({| l_operation := INSERT; l_text := ow o (j - 1); lineNumber := Some j |}
               :: {| l_operation := DELETE; l_text := gw g (i - 1); lineNumber := Some i |}
               :: parts)
        end
      else parts
  end.

Definition computeLineDiff (g o : list jsstr) : list LineDiffPart :=
  line_back g o (List.length g + List.length o) (List.length g) (List.length o) [].

Definition count_lop (o : DiffOperation) (ps : list LineDiffPart) : nat :=
  List.length (filter (fun p => diffop_eqb (l_operation p) o) ps).

Record LineStats := {
  ls_diffScore : Q;
  ls_changes : Changes
}.

Definition calculateLineStats (ps : list LineDiffPart) : LineStats :=
  let add := count_lop INSERT ps in
  let rem := count_lop DELETE ps in
  let md := count_lop REPLACE ps in
  let eq := count_lop EQUAL ps in
  let total := (add + rem + md + eq)%nat in
  {| ls_diffScore := if (total =? 0)%nat then 0%Q
                     else (inject_Z (Z.of_nat (add + rem + md)) / inject_Z (Z.of_nat total))%Q;
     ls_changes := {| added := add; removed := rem; modified := md |} |}.

Record LineDiffResult := {
  l_diffScore : Q;
  lineCount : nat * nat;
  l_similarity : Q;
  l_changes : Changes
}.

Definition calculateLineDiff (golden output : jsstr) : LineDiffResult :=
  let goldenLines := split_lines golden in
  let outputLines := split_lines output in
  let stats := calculateLineStats (computeLineDiff goldenLines outputLines) in
  {| l_diffScore := ls_diffScore stats;
     lineCount := (List.length goldenLines, List.length outputLines);
     l_similarity := (1 - ls_diffScore stats)%Q;
     l_changes := ls_changes stats |}.

(** ** diff: calculateImprovedJsonChanges *)

(** Names of the function-valued properties that an object inherits from
    [Object.prototype], and an array also from [Array.prototype]; [key in obj]
    holds for them. *)
Definition object_proto_names : list string :=
  ["constructor"; "__defineGetter__"; "__defineSetter__"; "hasOwnProperty";
   "__lookupGetter__"; "__lookupSetter__"; "isPrototypeOf"; "propertyIsEnumerable";
   "toString"; "valueOf"; "toLocaleString"]%string.

Definition array_proto_names : list string :=
  ["at"; "concat"; "copyWithin"; "entries"; "every"; "fill"; "filter"; "find";
   "findIndex"; "findLast"; "findLastIndex"; "flat"; "flatMap"; "forEach"; "includes";
   "indexOf"; "join"; "keys"; "lastIndexOf"; "map"; "pop"; "push"; "reduce";
   "reduceRight"; "reverse"; "shift"; "slice"; "some"; "sort"; "splice"; "toReversed";
   "toSorted"; "toSpliced"; "unshift"; "values"; "with"]%string.

Definition inherited_fn (v : json) (k : jsstr) : bool :=
  existsb (fun n => jsstr_eqb (js n) k) object_proto_names
  || match v with
     | JArr _ => existsb (fun n => jsstr_eqb (js n) k) array_proto_names
     | _ => false
     end.

(** [key in obj] for an array or an object. *)
Definition has_prop (v : json) (k : jsstr) : bool :=
  match get_data v k with Some _ => true | None => inherited_fn v k end.

Definition is_object_type (v : json) : bool :=
  match v with JNull | JArr _ | JObj _ => true | _ => false end.

(** The counters [additions], [removals], [structuralChanges]. *)
Definition counts := (nat * nat * nat)%type.

Definition add_counts (x y : counts) : counts :=
  let '(a, r, s) := x in let '(a', r', s') := y in ((a + a')%nat, (r + r')%nat, (s + s')%nat).

Definition count_array_ops (ops : list ArrayDiffOperation) : counts :=
  fold_left (fun c op => match op_type op with
                         | OpAdded => add_counts c (1%nat, 0%nat, 0%nat)
                         | OpRemoved => add_counts c (0%nat, 1%nat, 0%nat)
                         | _ => c
                         end) ops (0%nat, 0%nat, 0%nat).

(** The branch for a key of [allKeys] that [o1] has as own property with
    value [x]; [rec] is [countChanges] on [x]. *)
Definition key_of_o1 (rec : json -> counts) (x : json) (o2 : json) (k : jsstr) : counts :=
  match get_data o2 k with
  | Some y =>
      if is_object_type x && is_object_type y then rec y
      else if deepEqual x y then (0%nat, 0%nat, 0%nat) else (0%nat, 0%nat, 1%nat)
  | None => if inherited_fn o2 k then (0%nat, 0%nat, 1%nat) else (0%nat, 1%nat, 0%nat)
  end.

(** The branch for a key that only [o2] has as own property (value [y]). *)
Definition key_of_o2 (o1 : json) (k : jsstr) (y : json) : counts :=
  if negb (has_prop o1 k) then (1%nat, 0%nat, 0%nat)
  else match get_data o1 k with
       | Some x => if deepEqual x y then (0%nat, 0%nat, 0%nat) else (0%nat, 0%nat, 1%nat)
       | None => (0%nat, 0%nat, 1%nat)
       end.

Definition own_entries (v : json) : list (jsstr * json) :=
  match v with
  | JArr l => combine (own_keys v) l
  | JObj fs => fs
  | _ => []
  end.

(** [countChanges]: arrays through calculateLCSArrayDiff, objects key by
    key (the own keys of [o1], then the own keys of [o2] that [o1] lacks). *)
Fixpoint countChanges (o1 o2 : json) {struct o1} : counts :=
  let rest :=
    fold_left add_counts
      (map (fun '(k, y) => if existsb (jsstr_eqb k) (own_keys o1) then (0%nat, 0%nat, 0%nat)
                           else key_of_o2 o1 k y) (own_entries o2))
      (0%nat, 0%nat, 0%nat) in
  match o1, o2 with
  | JArr l1, JArr l2 => count_array_ops (calculateLCSArrayDiff l1 l2)
  | JArr l1, JObj _ =>
      add_counts
        ((fix go (i : nat) (l1 : list json) : counts :=
            match l1 with
            | x :: r => add_counts (key_of_o1 (countChanges x) x o2 (index_key i)) (go (S i) r)
            | [] => (0%nat, 0%nat, 0%nat)
            end) 0%nat l1) rest
  | JObj f1, (JArr _ | JObj _) =>
      add_counts
        ((fix go (f1 : list (jsstr * json)) : counts :=
            match f1 with
            | (k, x) :: r => add_counts (key_of_o1 (countChanges x) x o2 k) (go r)
            | [] => (0%nat, 0%nat, 0%nat)
            end) f1) rest
  | _, _ => (0%nat, 0%nat, 0%nat)
  end.

(** Numeric result fields: a number or [NaN]. *)
Inductive rnum := RNum (q : Q) | RNaN.

Definition rnat (n : nat) : rnum := RNum (inject_Z (Z.of_nat n)).

Record JsonChanges := {
  structuralChanges : rnum;
  valueChanges : rnum;
  additions : rnum;
  removals : rnum
}.

(** JavaScript truthiness of a parsed value. *)
Definition truthy (v : json) : bool :=
  match v with
  | JNull => false
  | JBool b => b
  | JNum (NFin m _) => negb (m =? 0)
  | JNum _ => true
  | JStr s => match s with [] => false | _ => true end
  | JArr _ | JObj _ => true
  end.

Definition text_changes (text1 text2 : jsstr) : JsonChanges :=
  let textDiff := calculateDiff text1 text2 in
  {| structuralChanges := RNum 0;
     valueChanges := rnat (modified (changes textDiff));
     additions := rnat (added (changes textDiff));
     removals := rnat (removed (changes textDiff)) |}.

Definition calculateImprovedJsonChanges (obj1 obj2 : json) (text1 text2 : jsstr) : JsonChanges :=
  if negb (truthy obj1) || negb (truthy obj2) then text_changes text1 text2
  else
    let '(a, r, s) := countChanges obj1 obj2 in
    {| structuralChanges := rnat s; valueChanges := rnat s;
       additions := rnat a; removals := rnat r |}.

(** ** json-utils: normalizeJsonObject and normalizeJson; diff: calculateJsonDiff *)

(** [Object.keys(obj).sort()]: code-unit order, stable. *)
Fixpoint insert_field (f : jsstr * json) (l : list (jsstr * json)) : list (jsstr * json) :=
  match l with
  | [] => [f]
  | g :: r => match jsstr_compare (fst f) (fst g) with
              | Gt => g :: insert_field f r
              | _ => f :: l
              end
  end.

Definition sort_fields (l : list (jsstr * json)) : list (jsstr * json) :=
  fold_right insert_field [] l.

(** [a.id || a.name || a.key || '']: the value of the first own property
    that is truthy, else the empty string. *)
Definition or_prop (v : json) (k : jsstr) (rest : json) : json :=
  match get_data v k with
  | Some x => if truthy x then x else rest
  | None => rest
  end.

(** [String(a.id || a.name || a.key || '')]; reading a property of [null]
    throws. *)
Definition sort_key (a : json) : result jsstr :=
  match a with
  | JNull => Err TypeError
  | _ => js_to_string (or_prop a (js "id") (or_prop a (js "name") (or_prop a (js "key") (JStr []))))
  end.

(** Does the first element of a normalised array have [id], [name] or [key]? *)
Definition sort_by_id (l : list json) : bool :=
  match l with
  | (JObj _ as o) :: _ => has_prop o (js "id") || has_prop o (js "name") || has_prop o (js "key")
  | _ => false
  end.

Fixpoint map_result {A B} (f : A -> result B) (l : list A) : result (list B) :=
  match l with
  | [] => Ok []
  | x :: r => y <- f x ;; ys <- map_result f r ;; Ok (y :: ys)
  end.

Inductive msg := MsgText (s : jsstr) | MsgOf (e : js_error).

Record NormalizeResult := {
  normalized : jsstr;
  parsed : json;
  error : option msg
}.

Record JsonDiffResult := {
  j_diffScore : rnum;
  j_similarity : rnum;
  j_diffHtml : jsstr;
  normalizedGolden : jsstr;
  normalizedOutput : jsstr;
  isValid : bool * bool;
  parseErrors : option msg * option msg;
  j_changes : JsonChanges
}.

Section Normalize.
(** [String.prototype.localeCompare], as the sign of its result. *)
Variable localeCompare : jsstr -> jsstr -> comparison.

(** [Array.prototype.sort] with a comparator is stable; for a comparator
    that is a total preorder its result is the stable sorted permutation,
    computed here by insertion. *)
Fixpoint insert_by (x : jsstr * json) (l : list (jsstr * json)) : list (jsstr * json) :=
  match l with
  | [] => [x]
  | y :: r => match localeCompare (fst x) (fst y) with
              | Gt => y :: insert_by x r
              | _ => x :: l
              end
  end.

Fixpoint isort (l : list (jsstr * json)) : list (jsstr * json) :=
  match l with
  | [] => []
  | x :: r => insert_by x (isort r)
  end.

(** With at least two elements every element reaches the comparator, so
    a key that throws makes the sort throw. *)
Definition sort_by_key (l : list json) : result (list json) :=
  match l with
  | [] | [_] => Ok l
  | _ => ks <- map_result (fun a => k <- sort_key a ;; Ok (k, a)) l ;;
         Ok (map snd (isort ks))
  end.

(** The object case builds [normalized] by assignments in sorted key
    order; the values are normalised first here, which is the same since
    normalisation is pure and every error it raises is a [TypeError]. *)
Fixpoint normalizeJsonObject (v : json) : result json :=
  match v with
  | JArr l =>
      nl <- map_result normalizeJsonObject l ;;
      if sort_by_id nl then (sl <- sort_by_key nl ;; Ok (JArr sl)) else Ok (JArr nl)
  | JObj fs =>
      nfs <- map_result (fun '(k, x) => y <- normalizeJsonObject x ;; Ok (k, y)) fs ;;
      Ok (JObj (fold_left (fun acc '(k, y) => obj_set k y acc) (sort_fields nfs) []))
  | _ => Ok v
  end.

Definition normalize_text (s : jsstr) : result json :=
  p <- JSON_parse s ;; normalizeJsonObject p.

Definition normalizeJson (jsonStr : jsstr) : NormalizeResult :=
  match normalize_text (trim jsonStr) with
  | Ok n => {| normalized := JSON_stringify n; parsed := n; error := None |}
  | Err _ =>
      match normalize_text (extractJsonFromMarkdown jsonStr) with
      | Ok n => {| normalized := JSON_stringify n; parsed := n; error := None |}
      | Err e => {| normalized := jsonStr; parsed := JNull; error := Some (MsgOf e) |}
      end
  end.

Definition nan_changes : JsonChanges :=
  {| structuralChanges := RNum 0; valueChanges := RNaN; additions := RNaN; removals := RNaN |}.

End Normalize.

(** ** Auxiliary definitions for the statements *)

(** A numeric result field equal (as a number) to [q]. *)
Definition rnum_eqQ (r : rnum) (q : Q) : Prop :=
  match r with RNum x => Qeq x q | RNaN => False end.

(** JavaScript division of a sum by a count: [0 / 0] is [NaN]. *)
Definition js_div (x : Q) (n : nat) : rnum :=
  if (n =? 0)%nat then RNaN else RNum (x / inject_Z (Z.of_nat n))%Q.

(** The cost of an operation as the specification states it: [EQUAL] is
    free, [INSERT] and [DELETE] cost 1, a [REPLACE] costs [0.5] when the
    word similarity of its pair exceeds [0.8] and [1.0] otherwise. *)
Definition spec_cost (p : DiffPart) : Q :=
  match operation p with
  | EQUAL => 0
  | INSERT | DELETE => 1
  | REPLACE =>
      match goldenText p, outputText p with
      | Some a, Some b => if Qlt_bool (8 # 10) (calculateWordSimilarity a b) then 1 # 2 else 1
      | _, _ => 1
      end
  end%Q.

Definition is_equal_part (p : DiffPart) : bool :=
  match operation p with EQUAL => true | _ => false end.

(** The specified word diff score: the sum of the costs of the non-[EQUAL]
    operations divided by the number of operations. *)
Definition spec_word_score (ps : list DiffPart) : rnum :=
  js_div (fold_right (fun p acc => spec_cost p + acc)%Q 0%Q (filter (fun p => negb (is_equal_part p)) ps))
         (List.length ps).

Definition op_type_eqb (a b : array_op_type) : bool :=
  match a, b with
  | OpEqual, OpEqual | OpAdded, OpAdded | OpRemoved, OpRemoved | OpMoved, OpMoved => true
  | _, _ => false
  end.

Definition count_type (t : array_op_type) (ops : list ArrayDiffOperation) : nat :=
  List.length (filter (fun op => op_type_eqb (op_type op) t) ops).



Definition not_moved (op : ArrayDiffOperation) : Prop := op_type op <> OpMoved.

(** A [REPLACE] part carries both words and the cost of their pair. *)
Definition replace_ok (p : DiffPart) : Prop :=
  operation p = REPLACE ->
  exists a b, goldenText p = Some a /\ outputText p = Some b /\
              cost p = Some (replace_cost (word_similar a b)).

(** A UTF-16 code unit. *)
Definition unit_ok (c : Z) : bool := (0 <=? c) && (c <? 65536).

(** A parsed value whose numbers are finite, whose strings are made of
    code units, and with no key [__proto__] (whose assignment in
    [normalizeJsonObject] would run the prototype setter). *)
Fixpoint plain_tree (v : json) : bool :=
  match v with
  | JNull | JBool _ | JNum (NFin _ _) => true
  | JNum _ => false
  | JStr s => forallb unit_ok s
  | JArr l => forallb plain_tree l
  | JObj fs =>
      forallb (fun '(k, x) => forallb unit_ok k && negb (jsstr_eqb k (js "__proto__"))
                              && plain_tree x) fs
  end.

(** What [JSON.parse] builds: numbers as [make_number] leaves them, and
    objects with distinct keys. *)
Fixpoint parsed_ok (v : json) : Prop :=
  match v with
  | JNum (NFin m e) => make_number m e = NFin m e
  | JArr l => (fix go (l : list json) : Prop :=
                 match l with [] => True | x :: r => parsed_ok x /\ go r end) l
  | JObj fs => NoDup (map fst fs) /\
               (fix go (fs : list (jsstr * json)) : Prop :=
                  match fs with [] => True | (_, x) :: r => parsed_ok x /\ go r end) fs
  | _ => True
  end.

(** The values that [JSON.stringify] writes and [JSON.parse] reads back:
    finite numbers in the form [make_number] gives, strings of code units,
    and objects whose fields are in the order that assigning them one by
    one produces. *)
Fixpoint canon (v : json) : Prop :=
  match v with
  | JNull | JBool _ => True
  | JNum (NFin m e) => make_number m e = NFin m e
  | JNum _ => False
  | JStr s => forallb unit_ok s = true
  | JArr l => (fix go (l : list json) : Prop :=
                 match l with [] => True | x :: r => canon x /\ go r end) l
  | JObj fs => fold_left (fun acc '(k, y) => obj_set k y acc) fs [] = fs /\
               (fix go (fs : list (jsstr * json)) : Prop :=
                  match fs with
                  | [] => True
                  | (k, x) :: r => (forallb unit_ok k = true /\ canon x) /\ go r
                  end) fs
  end.

(** What may follow a number in the text of [JSON.stringify]. *)
Definition num_follow (rest : jsstr) : Prop :=
  match rest with [] => True | c :: _ => c = 44 \/ c = 10 end.

(** A list of decimal digit code units. *)
Definition digit_list (ds : list Z) : Prop := Forall (fun c => is_digit c = true) ds.

(** The order [obj_set] keeps between two fields: array-index keys come
    first, by increasing value. *)
Definition idx_before (p q : jsstr * json) : Prop :=
  is_array_index (fst q) = true ->
  is_array_index (fst p) = true /\ (digits_value (fst p) < digits_value (fst q))%Z.

(** ** Further definitions: reading a diff back, HTML output, summaries *)

Definition word_golden_side (ps : list DiffPart) : list jsstr :=
  flat_map (fun p => match operation p with
                     | EQUAL | DELETE => [text p]
                     | REPLACE => match goldenText p with Some t => [t] | None => [] end
                     | INSERT => []
                     end) ps.

Definition word_output_side (ps : list DiffPart) : list jsstr :=
  flat_map (fun p => match operation p with
                     | EQUAL | INSERT => [text p]
                     | REPLACE => match outputText p with Some t => [t] | None => [] end
                     | DELETE => []
                     end) ps.

Definition line_golden_side (ps : list LineDiffPart) : list jsstr :=
  flat_map (fun p => match l_operation p with EQUAL | DELETE => [l_text p] | _ => [] end) ps.

Definition line_output_side (ps : list LineDiffPart) : list jsstr :=
  flat_map (fun p => match l_operation p with EQUAL | INSERT => [l_text p] | _ => [] end) ps.

Definition equal_part (w : jsstr) : DiffPart :=
  {| operation := EQUAL; text := w; goldenText := None; outputText := None; cost := None |}.

Definition equal_line (n : nat) (l : jsstr) : LineDiffPart :=
  {| l_operation := EQUAL; l_text := l; lineNumber := Some n |}.

(** [lines.join('\n')]. *)
Fixpoint join_lines (l : list jsstr) : jsstr :=
  match l with
  | [] => []
  | [x] => x
  | x :: r => x ++ 10 :: join_lines r
  end.

(** The entry [dp[i][j]] of the table of levenshteinDistance. *)
Fixpoint lev_d (s1 s2 : jsstr) (i : nat) {struct i} : nat -> nat :=
  match i with
  | O => fun j => j
  | S i' =>
      fix row (j : nat) : nat :=
        match j with
        | O => S i'
        | S j' => if (nth i' s1 0 =? nth j' s2 0)%Z then lev_d s1 s2 i' j'
                  else S (Nat.min (Nat.min (lev_d s1 s2 i' (S j')) (row j')) (lev_d s1 s2 i' j'))
        end
  end.

(** [s.replace(/c/g, rep)] for a single code unit [c]. *)
Definition replace_all_unit (c : Z) (rep s : jsstr) : jsstr :=
  flat_map (fun x => if x =? c then rep else [x]) s.

Definition escapeHtml (text : jsstr) : jsstr :=
  replace_all_unit 39 (js "&#39;")
    (replace_all_unit 34 (js "&quot;")
      (replace_all_unit 62 (js "&gt;")
        (replace_all_unit 60 (js "&lt;")
          (replace_all_unit 38 (js "&amp;") text)))).

(** [arr.join(sep)]. *)
Fixpoint join_with (sep : jsstr) (l : list jsstr) : jsstr :=
  match l with
  | [] => []
  | [x] => x
  | x :: r => x ++ sep ++ join_with sep r
  end.

(** [x || ''] on an optional string. *)
Definition or_empty (o : option jsstr) : jsstr :=
  match o with Some t => t | None => [] end.

Definition part_html (part : DiffPart) : jsstr :=
  match operation part with
  | EQUAL => escapeHtml (text part)
  | DELETE =>
      jsq "<span class='bg-red-100 dark:bg-red-900 text-red-800 dark:text-red-200 px-1 rounded line-through' title='Removed'>"
      ++ escapeHtml (text part) ++ js "</span>"
  | INSERT =>
      jsq "<span class='bg-green-100 dark:bg-green-900 text-green-800 dark:text-green-200 px-1 rounded' title='Added'>"
      ++ escapeHtml (text part) ++ js "</span>"
  | REPLACE =>
      jsq "<span class='bg-yellow-100 dark:bg-yellow-900 text-yellow-800 dark:text-yellow-200 px-1 rounded' title='Changed from "
      ++ [39] ++ escapeHtml (or_empty (goldenText part)) ++ [39] ++ jsq "'>" ++ [10]
      ++ jsq "            <span class='line-through opacity-60'>" ++ escapeHtml (or_empty (goldenText part))
      ++ js "</span>" ++ [10]
      ++ jsq "            <span class='font-medium'>" ++ escapeHtml (or_empty (outputText part))
      ++ js "</span>" ++ [10]
      ++ js "          </span>"
  end.

Definition generateHtml (diffParts : list DiffPart) : jsstr :=
  join_with [32] (map part_html diffParts).

(** [part.lineNumber || dflt]: [String(n)], or [dflt] when the number is
    missing or 0. *)
Definition line_label (ln : option nat) (dflt : jsstr) : jsstr :=
  match ln with
  | Some n => if (n =? 0)%nat then dflt else index_key n
  | None => dflt
  end.

Definition line_html (part : LineDiffPart) : jsstr :=
  match l_operation part with
  | DELETE =>
      jsq "<div class='line-delete bg-red-100 dark:bg-red-900 text-red-800 dark:text-red-200 px-2 py-1 rounded-md border-l-4 border-red-500' title='Line "
      ++ line_label (lineNumber part) (js "unknown") ++ jsq " removed'>" ++ [10]
      ++ jsq "            <span class='text-xs text-red-600 dark:text-red-400 font-mono'>- "
      ++ line_label (lineNumber part) (js "?") ++ js "</span>" ++ [10]
      ++ jsq "            <span class='ml-2 line-through'>" ++ escapeHtml (l_text part)
      ++ js "</span>" ++ [10]
      ++ js "          </div>"
  | INSERT =>
      jsq "<div class='line-insert bg-green-100 dark:bg-green-900 text-green-800 dark:text-green-200 px-2 py-1 rounded-md border-l-4 border-green-500' title='Line "
      ++ line_label (lineNumber part) (js "unknown") ++ jsq " added'>" ++ [10]
      ++ jsq "            <span class='text-xs text-green-600 dark:text-green-400 font-mono'>+ "
      ++ line_label (lineNumber part) (js "?") ++ js "</span>" ++ [10]
      ++ jsq "            <span class='ml-2'>" ++ escapeHtml (l_text part)
      ++ js "</span>" ++ [10]
      ++ js "          </div>"
  | EQUAL | REPLACE => jsq "<div class='line-equal'>" ++ escapeHtml (l_text part) ++ js "</div>"
  end.

(** [diffParts.map(...).join('')]. *)
Definition generateLineHtml (diffParts : list LineDiffPart) : jsstr :=
  join_with [] (map line_html diffParts).

(** The number of occurrences of code unit [c]. *)
Definition count_unit (c : Z) (s : jsstr) : nat := List.length (filter (fun x => x =? c) s).

Definition html_escape_unit (x : Z) : jsstr :=
  if x =? 38 then js "&amp;" else if x =? 60 then js "&lt;" else if x =? 62 then js "&gt;"
  else if x =? 34 then js "&quot;" else if x =? 39 then js "&#39;" else [x].

(** [new Set(...)] over strings: insertion order, first occurrence kept. *)
Definition set_add (s : list jsstr) (x : jsstr) : list jsstr :=
  if existsb (jsstr_eqb x) s then s else s ++ [x].

Definition new_Set (l : list jsstr) : list jsstr := fold_left set_add l [].

(** [set.has(x)]. *)
Definition set_has (s : list jsstr) (x : jsstr) : bool := existsb (jsstr_eqb x) s.

Section Semantic.
Variable toLowerCase : jsstr -> jsstr.

Definition calculateSemanticSimilarity (golden output : jsstr) : Q :=
  let goldenWords := new_Set (tokenize (toLowerCase golden)) in
  let outputWords := new_Set (tokenize (toLowerCase output)) in
  let intersection := new_Set (filter (fun word => set_has outputWords word) goldenWords) in
  let union := new_Set (goldenWords ++ outputWords) in
  if (List.length union =? 0)%nat then 0%Q
  else (inject_Z (Z.of_nat (List.length intersection)) / inject_Z (Z.of_nat (List.length union)))%Q.

End Semantic.

(** Repeated removal of trailing zeros: [z = m * 10^e] with [m] not a
    multiple of 10 (or 0). *)
Fixpoint int_norm (fuel : nat) (m e : Z) : Z * Z :=
  match fuel with
  | O => (m, e)
  | S f => if (m =? 0) || negb (m mod 10 =? 0) then (m, e) else int_norm f (m / 10) (e + 1)
  end.

(** [String(z)] for an integer [z]. *)
Definition int_to_string (z : Z) : jsstr :=
  let '(m, e) := int_norm (Z.to_nat (Z.log2 (Z.abs z)) + 1) z 0 in fin_to_string m e.

(** [Math.round(x)]: the floor of [x + 0.5]. *)
Definition js_round (x : Q) : Z := Qfloor (x + (1 # 2))%Q.

Definition getDiffSummary (result : DiffResult) : jsstr :=
  let c := changes result in
  let total := (added c + removed c + modified c)%nat in
  if (total =? 0)%nat then js "Perfect match"
  else
    let parts :=
      (if (0 <? added c)%nat then [int_to_string (Z.of_nat (added c)) ++ js " added"] else [])
      ++ (if (0 <? removed c)%nat then [int_to_string (Z.of_nat (removed c)) ++ js " removed"] else [])
      ++ (if (0 <? modified c)%nat then [int_to_string (Z.of_nat (modified c)) ++ js " modified"] else []) in
    let changeText := join_with (js ", ") parts in
    let similarityPercent := js_round (similarity result * 100) in
    changeText ++ js " (" ++ int_to_string similarityPercent ++ js "% similar)".

(** The operation the backtracking loop emits for the equal pair at index [k]. *)
Definition equal_op (l : list json) (k : nat) : ArrayDiffOperation :=
  {| op_type := OpEqual; op_value := nth k l JNull; oldIndex := Some k; newIndex := Some k |}.

Definition mt_ok (x : Z * Z) : Prop := (0 <= fst x <= snd x)%Z.

(** ** Array diff HTML *)
(** [typeof v === 'object' ? JSON.stringify(v, null, 2) : String(v)]. *)
Definition value_str (v : json) : result jsstr :=
  match v with
  | JNull | JArr _ | JObj _ => Ok (JSON_stringify v)
  | _ => js_to_string v
  end.

(** [${op.newIndex}] and [${op.oldIndex}]: a number, or [undefined]. *)
Definition index_label (o : option nat) : jsstr :=
  match o with Some n => index_key n | None => js "undefined" end.

Definition array_op_html (index : nat) (op : ArrayDiffOperation) : result jsstr :=
  valueStr <- value_str (op_value op) ;;
  Ok (match op_type op with
      | OpEqual =>
          jsq "<div class='array-item-equal' data-index='" ++ index_key index ++ jsq "'>"
          ++ escapeHtml valueStr ++ js "</div>"
      | OpAdded =>
          jsq "<div class='array-item-added bg-green-100 dark:bg-green-900 text-green-800 dark:text-green-200 px-2 py-1 rounded-md border-l-4 border-green-500' data-index='"
          ++ index_key index ++ jsq "' title='Added at position " ++ index_label (newIndex op) ++ jsq "'>" ++ [10]
          ++ jsq "          <span class='text-xs text-green-600 dark:text-green-400 font-mono'>+ "
          ++ index_label (newIndex op) ++ js "</span>" ++ [10]
          ++ jsq "          <span class='ml-2'>" ++ escapeHtml valueStr ++ js "</span>" ++ [10]
          ++ js "        </div>"
      | OpRemoved =>
          jsq "<div class='array-item-removed bg-red-100 dark:bg-red-900 text-red-800 dark:text-red-200 px-2 py-1 rounded-md border-l-4 border-red-500' data-index='"
          ++ index_key index ++ jsq "' title='Removed from position " ++ index_label (oldIndex op) ++ jsq "'>" ++ [10]
          ++ jsq "          <span class='text-xs text-red-600 dark:text-red-400 font-mono'>- "
          ++ index_label (oldIndex op) ++ js "</span>" ++ [10]
          ++ jsq "          <span class='ml-2 line-through'>" ++ escapeHtml valueStr ++ js "</span>" ++ [10]
          ++ js "        </div>"
      | OpMoved => jsq "<div class='array-item-equal'>" ++ escapeHtml valueStr ++ js "</div>"
      end).

(** [operations.map((op, index) => ...).join('\n')]. *)
Definition generateArrayDiffHtml (operations : list ArrayDiffOperation) : result jsstr :=
  parts <- map_result (fun '(index, op) => array_op_html index op)
                      (combine (seq 0 (List.length operations)) operations) ;;
  Ok (join_with [10] parts).

Definition aop_eqb (a b : array_op_type) : bool :=
  match a, b with
  | OpEqual, OpEqual | OpAdded, OpAdded | OpRemoved, OpRemoved | OpMoved, OpMoved => true
  | _, _ => false
  end.

(** The number of operations of type [t]. *)
Definition count_aop (t : array_op_type) (ops : list ArrayDiffOperation) : nat :=
  List.length (filter (fun op => aop_eqb (op_type op) t) ops).

(** ** diff: generateStructuralDiffHtml, generateImprovedJsonDiffHtml and calculateJsonDiff *)

(** [JSON.stringify(v)], without indentation. *)
Fixpoint stringify_flat (v : json) : jsstr :=
  match v with
  | JNull => js "null"
  | JBool b => if b then js "true" else js "false"
  | JNum n => num_json n
  | JStr s => quote s
  | JArr l => [91] ++ join_with [44] (map stringify_flat l) ++ [93]
  | JObj fs => [123] ++ join_with [44] (map (fun '(k, x) => quote k ++ [58] ++ stringify_flat x) fs)
               ++ [125]
  end.

(** [a === b] between a value of the golden tree and one of the output
    tree: primitives compare by value ([JSON.parse] gives no [NaN], and
    [+0 === -0]); the trees come from two separate parses, so two objects or
    arrays are never the same reference. *)
Definition strict_eq (a b : json) : bool :=
  match a, b with
  | JNull, JNull => true
  | JBool x, JBool y => Bool.eqb x y
  | JNum x, JNum y => jsnum_eqb x y
  | JStr x, JStr y => jsstr_eqb x y
  | _, _ => false
  end.

Definition is_null (v : json) : bool := match v with JNull => true | _ => false end.

(** [obj[key]] when [key in obj] holds: an own data property (or the
    [length] of an array), or a function inherited from the prototype. *)
Inductive prop_val := PData (v : json) | PFun.

Definition get_prop (v : json) (k : jsstr) : option prop_val :=
  match get_data v k with
  | Some x => Some (PData x)
  | None => if inherited_fn v k then Some PFun else None
  end.

(** [generateStructuralDiffHtml(obj1, obj2)] for every case but the one of
    two objects (or an object and an array), whose result is [objcase]. *)
Definition structural_head (objcase : result jsstr) (obj1 obj2 : json) : result jsstr :=
  if strict_eq obj1 obj2 then
    Ok (jsq "<span class='json-equal'>" ++ escapeHtml (JSON_stringify obj1) ++ js "</span>")
  else if is_null obj1 || is_null obj2 || negb (Nat.eqb (typeof obj1) (typeof obj2)) then
    Ok (jsq "<div class='json-change'>" ++ [10]
        ++ jsq "      <div class='json-removed'>- " ++ escapeHtml (JSON_stringify obj1) ++ js "</div>"
        ++ [10]
        ++ jsq "      <div class='json-added'>+ " ++ escapeHtml (JSON_stringify obj2) ++ js "</div>"
        ++ [10] ++ js "    </div>")
  else
    match obj1, obj2 with
    | JArr l1, JArr l2 =>
        h <- generateArrayDiffHtml (calculateLCSArrayDiff l1 l2) ;;
        Ok (jsq "<div class='json-array-improved'>[" ++ [10] ++ h ++ [10] ++ js "]</div>")
    | JArr _, JObj _ | JObj _, (JArr _ | JObj _) => objcase
    | _, _ =>
        Ok (jsq "<div class='json-change'>" ++ [10]
            ++ jsq "    <span class='json-removed'>- " ++ escapeHtml (stringify_flat obj1)
            ++ js "</span>" ++ [10]
            ++ jsq "    <span class='json-added'>+ " ++ escapeHtml (stringify_flat obj2)
            ++ js "</span>" ++ [10] ++ js "  </div>")
    end.

Fixpoint lookup_sub (k : jsstr) (subs : list (jsstr * (json -> result jsstr)))
  : option (json -> result jsstr) :=
  match subs with
  | [] => None
  | (k', f) :: r => if jsstr_eqb k k' then Some f else lookup_sub k r
  end.

(** The line of [keyArray.forEach] for [key]; [subs] maps each own key of
    [obj1] to [generateStructuralDiffHtml] on its value.  The only property
    of [obj1] that [key in obj1] finds and [subs] lacks is the [length] of
    an array, a number, for which the object case of [structural_head] is
    never reached.  [escapeHtml(JSON.stringify(f))] of an inherited
    function [f] calls [undefined.replace] and throws a [TypeError]; so
    does the recursive call on such an [f], whose [typeof] differs from the
    other side's. *)
Definition key_html (subs : list (jsstr * (json -> result jsstr))) (obj1 obj2 : json)
  (key : jsstr) : result jsstr :=
  match get_prop obj1 key, get_prop obj2 key with
  | Some (PData x), Some (PData y) =>
      if strict_eq x y then
        Ok (jsq "  <span class='json-equal'>'" ++ escapeHtml key ++ jsq "': "
            ++ escapeHtml (stringify_flat x) ++ js "</span>")
      else
        h <- match lookup_sub key subs with
             | Some rec => rec y
             | None => structural_head (Err TypeError) x y
             end ;;
        Ok (jsq "  <span class='json-key'>'" ++ escapeHtml key ++ jsq "':</span> " ++ h)
  | Some (PData x), None =>
      Ok (jsq "  <div class='json-removed'>- '" ++ escapeHtml key ++ jsq "': "
          ++ escapeHtml (stringify_flat x) ++ js "</div>")
  | None, Some (PData y) =>
      Ok (jsq "  <div class='json-added'>+ '" ++ escapeHtml key ++ jsq "': "
          ++ escapeHtml (stringify_flat y) ++ js "</div>")
  | _, _ => Err TypeError
  end.

(** [generateStructuralDiffHtml(obj1, obj2)]; the [path] argument only
    feeds the unused [keyPath]. *)
Fixpoint generateStructuralDiffHtml (obj1 obj2 : json) {struct obj1} : result jsstr :=
  let subs :=
    match obj1 with
    | JArr l =>
        (fix go (i : nat) (l : list json) : list (jsstr * (json -> result jsstr)) :=
           match l with
           | x :: r => (index_key i, generateStructuralDiffHtml x) :: go (S i) r
           | [] => []
           end) 0%nat l
    | JObj fs =>
        (fix go (fs : list (jsstr * json)) : list (jsstr * (json -> result jsstr)) :=
           match fs with
           | (k, x) :: r => (k, generateStructuralDiffHtml x) :: go r
           | [] => []
           end) fs
    | _ => []
    end in
  let keyArray := sort_strings (new_Set (own_keys obj1 ++ own_keys obj2)) in
  structural_head
    (parts <- map_result (key_html subs obj1 obj2) keyArray ;;
     Ok (jsq "<div class='json-object'>{" ++ [10] ++ join_with [44; 10] parts ++ [10]
         ++ js "}</div>"))
    obj1 obj2.

(** [calculateDiff(golden, output).diffHtml]. *)
Definition calculateDiff_html (golden output : jsstr) : jsstr :=
  generateHtml (computeWordDiff (tokenize golden) (tokenize output)).

Definition generateImprovedJsonDiffHtml (goldenParsed outputParsed : json)
  (goldenText outputText : jsstr) : result jsstr :=
  if truthy goldenParsed && truthy outputParsed
  then generateStructuralDiffHtml goldenParsed outputParsed
  else Ok (calculateDiff_html goldenText outputText).

(** [calculateJsonDiff]; [localeCompare] is the one [normalizeJson] uses. *)
Definition calculateJsonDiff (localeCompare : jsstr -> jsstr -> comparison)
  (golden output : jsstr) : result JsonDiffResult :=
  let goldenValid := isValidJson golden in
  let outputValid := isValidJson output in
  if negb goldenValid then
    Ok {| j_diffScore := RNaN; j_similarity := RNaN; j_diffHtml := [];
          normalizedGolden := golden; normalizedOutput := output;
          isValid := (false, false);
          parseErrors := (Some (MsgText []), Some (MsgText []));
          j_changes := nan_changes |}
  else
    let goldenNorm := normalizeJson localeCompare golden in
    let outputNorm := normalizeJson localeCompare output in
    if negb outputValid then
      Ok {| j_diffScore := RNaN; j_similarity := RNaN; j_diffHtml := [];
            normalizedGolden := golden; normalizedOutput := output;
            isValid := (true, false);
            parseErrors := (error goldenNorm, error outputNorm);
            j_changes := nan_changes |}
    else
      let structuralSimilarity :=
        if truthy (parsed goldenNorm) && truthy (parsed outputNorm)
        then calculateJsonStructuralSimilarity (parsed goldenNorm) (parsed outputNorm)
        else 0%Q in
      let improvedChanges :=
        calculateImprovedJsonChanges (parsed goldenNorm) (parsed outputNorm)
          (normalized goldenNorm) (normalized outputNorm) in
      let normalizedTextDiff := calculateDiff (normalized goldenNorm) (normalized outputNorm) in
      diffHtml <- generateImprovedJsonDiffHtml (parsed goldenNorm) (parsed outputNorm)
                    (normalized goldenNorm) (normalized outputNorm) ;;
      let finalSimilarity :=
        if goldenValid && outputValid then structuralSimilarity
        else similarity normalizedTextDiff in
      Ok {| j_diffScore := RNum (1 - finalSimilarity)%Q;
            j_similarity := RNum finalSimilarity;
            j_diffHtml := diffHtml;
            normalizedGolden := normalized goldenNorm;
            normalizedOutput := normalized outputNorm;
            isValid := (goldenValid, outputValid);
            parseErrors := (error goldenNorm, error outputNorm);
            j_changes :=
              if goldenValid && outputValid then improvedChanges
              else text_changes (normalized goldenNorm) (normalized outputNorm) |}.

(** * Properties *)

(** ** Validity flags and the invalid branches of calculateJsonDiff *)

Lemma normalizeJson_error_of_invalid (lc : jsstr -> jsstr -> comparison) (s : jsstr) :
  isValidJson s = false -> exists e, error (normalizeJson lc s) = Some (MsgOf e).
Proof.
  unfold isValidJson, normalizeJson, normalize_text.
  intros H; apply orb_false_iff in H as [H1 H2].
  destruct (JSON_parse (trim s)); [discriminate | cbn].
  destruct (JSON_parse (extractJsonFromMarkdown s)); [discriminate | cbn].
  eauto.
Qed.

(** C2 (amended). When the reference is not valid JSON, the call returns
    with the flags [{false, false}]; [diffScore], [similarity],
    [valueChanges], [additions] and [removals] are [NaN],
    [structuralChanges] is [0] and both parse errors are the empty string.
    When the reference is valid and the candidate is not, it returns with
    the flags [{true, false}], the same fields [NaN], [structuralChanges]
    [0] and the candidate's parse error set. *)
Theorem calculateJsonDiff_invalid_branches :
  forall (lc : jsstr -> jsstr -> comparison) (golden output : jsstr),
  (isValidJson golden = false ->
     exists r, calculateJsonDiff lc golden output = Ok r /\
     isValid r = (false, false) /\ j_diffScore r = RNaN /\ j_similarity r = RNaN /\
     j_changes r = {| structuralChanges := RNum 0; valueChanges := RNaN;
                      additions := RNaN; removals := RNaN |} /\
     parseErrors r = (Some (MsgText []), Some (MsgText []))) /\
  (isValidJson golden = true -> isValidJson output = false ->
     exists r, calculateJsonDiff lc golden output = Ok r /\
     isValid r = (true, false) /\ j_diffScore r = RNaN /\ j_similarity r = RNaN /\
     j_changes r = {| structuralChanges := RNum 0; valueChanges := RNaN;
                      additions := RNaN; removals := RNaN |} /\
     exists e, snd (parseErrors r) = Some (MsgOf e)).
Proof.
  intros lc golden output; split.
  - intros Hg; unfold calculateJsonDiff; rewrite Hg; cbn.
    eexists; repeat split.
  - intros Hg Ho; unfold calculateJsonDiff; rewrite Hg, Ho; cbn.
    eexists; repeat split.
    apply normalizeJson_error_of_invalid; exact Ho.
Qed.

Lemma calculateJsonDiff_invalid_branches_witness :
  (exists r, calculateJsonDiff jsstr_compare (js "x") (js "1") = Ok r /\
     isValid r = (false, false) /\ j_diffScore r = RNaN /\ j_similarity r = RNaN /\
     j_changes r = {| structuralChanges := RNum 0; valueChanges := RNaN;
                      additions := RNaN; removals := RNaN |} /\
     parseErrors r = (Some (MsgText []), Some (MsgText []))) /\
  (exists r, calculateJsonDiff jsstr_compare (js "1") (js "x") = Ok r /\
     isValid r = (true, false) /\ j_diffScore r = RNaN /\ j_similarity r = RNaN /\
     j_changes r = {| structuralChanges := RNum 0; valueChanges := RNaN;
                      additions := RNaN; removals := RNaN |} /\
     exists e, snd (parseErrors r) = Some (MsgOf e)).
Proof.
  split.
  - apply (proj1 (calculateJsonDiff_invalid_branches jsstr_compare (js "x") (js "1"))).
    vm_compute; reflexivity.
  - apply (proj2 (calculateJsonDiff_invalid_branches jsstr_compare (js "1") (js "x"))).
    + vm_compute; reflexivity.
    + vm_compute; reflexivity.
Defined.

(** C2: [structuralChanges] is [0], not [NaN], in both invalid branches. *)
Lemma calculateJsonDiff_structuralChanges_not_nan :
  (exists r, calculateJsonDiff jsstr_compare (js "x") (js "x") = Ok r /\
     structuralChanges (j_changes r) = RNum 0) /\
  (exists r, calculateJsonDiff jsstr_compare (js "1") (js "x") = Ok r /\
     structuralChanges (j_changes r) = RNum 0).
Proof. vm_compute; split; eexists; split; reflexivity. Qed.



(** ** Similarity of two valid documents *)

(** C1. For the valid, identical documents ["0"] and ["0"] the result has
    similarity [0] and diffScore [1], whereas the structural similarity of
    the canonical trees is [1]: the guard
    [goldenNorm.parsed && outputNorm.parsed] treats the falsy value [0] as
    missing. *)
Theorem calculateJsonDiff_falsy_documents :
  forall lc : jsstr -> jsstr -> comparison,
  (exists r, calculateJsonDiff lc (js "0") (js "0") = Ok r /\
     isValid r = (true, true) /\
     rnum_eqQ (j_similarity r) 0 /\ rnum_eqQ (j_diffScore r) 1) /\
  calculateJsonStructuralSimilarity (parsed (normalizeJson lc (js "0")))
                                    (parsed (normalizeJson lc (js "0"))) == 1.
Proof.
  intros lc; vm_compute.
  split; [eexists; split; [reflexivity | split; [reflexivity | split; reflexivity]] | reflexivity].
Qed.

(** C6. [diffJson('{"a":1,"b":2,"c":3,"d":4}', '{"a":1,"b":2,"c":999,"d":888}')]
    has similarity [0.5]: the canonical trees are not deepEqual and the
    granular count is 2 matches out of 4. *)
Theorem calculateJsonDiff_four_keys_example :
  forall lc : jsstr -> jsstr -> comparison,
  let g := jsq "{'a':1,'b':2,'c':3,'d':4}" in
  let o := jsq "{'a':1,'b':2,'c':999,'d':888}" in
  (exists r, calculateJsonDiff lc g o = Ok r /\
     rnum_eqQ (j_similarity r) (1 # 2) /\ rnum_eqQ (j_diffScore r) (1 # 2)) /\
  deepEqual (parsed (normalizeJson lc g)) (parsed (normalizeJson lc o)) = false /\
  granular (parsed (normalizeJson lc g)) (parsed (normalizeJson lc o)) = (2, 4).
Proof.
  intros lc; vm_compute.
  split; [eexists; split; [reflexivity | split; reflexivity] | split; reflexivity].
Qed.

(** ** Line diff *)

(** C8. A replacement in the line diff is emitted as an [INSERT] part
    followed by a [DELETE] part: the two [unshift] calls put the candidate
    line first.  For ["a"] against ["b"] the parts are [INSERT "b"] then
    [DELETE "a"], counted as one addition and one removal. *)
Theorem computeLineDiff_replace_order :
  l_changes (calculateLineDiff (js "a") (js "b"))
  = {| added := 1; removed := 1; modified := 0 |} /\
  computeLineDiff (split_lines (js "a")) (split_lines (js "b"))
  = [{| l_operation := INSERT; l_text := js "b"; lineNumber := Some 1%nat |};
     {| l_operation := DELETE; l_text := js "a"; lineNumber := Some 1%nat |}].
Proof. split; vm_compute; reflexivity. Qed.

(** ** The LCS array reconciler *)

Lemma count_type_cons (t : array_op_type) (op : ArrayDiffOperation) (ops : list ArrayDiffOperation) :
  count_type t (op :: ops) = ((if op_type_eqb (op_type op) t then 1 else 0) + count_type t ops)%nat.
Proof. unfold count_type; cbn; destruct (op_type_eqb (op_type op) t); reflexivity. Qed.

(** One iteration emits one operation, never [OpMoved], and decreases [i]
    (for [OpRemoved]), [j] (for [OpAdded]) or both (for [OpEqual]). *)
Lemma lcs_step_cases (arr1 arr2 : list json) (i j : nat) (ops : list ArrayDiffOperation) :
  (0 < i \/ 0 < j)%nat ->
  exists op i' j',
    lcs_step arr1 arr2 i j ops = (op :: ops, i', j') /\
    ((op_type op = OpEqual /\ 0 < i /\ 0 < j /\ i' = i - 1 /\ j' = j - 1) \/
     (op_type op = OpAdded /\ 0 < j /\ i' = i /\ j' = j - 1) \/
     (op_type op = OpRemoved /\ 0 < i /\ i' = i - 1 /\ j' = j))%nat.
Proof.
  intros Hij; unfold lcs_step.
  destruct ((0 <? i)%nat && (0 <? j)%nat && deepEqual (el1 arr1 (i - 1)) (el2 arr2 (j - 1))) eqn:E1.
  { apply andb_true_iff in E1 as [E1 _]; apply andb_true_iff in E1 as [Hi Hj].
    apply Nat.ltb_lt in Hi, Hj.
    eexists _, _, _; split; [reflexivity | left; cbn; repeat split; lia]. }
  destruct ((0 <? i)%nat && (0 <? j)%nat
            && Qlt_bool (8 # 10) (calculateObjectSimilarity (el1 arr1 (i - 1)) (el2 arr2 (j - 1)))) eqn:E2.
  { apply andb_true_iff in E2 as [E2 _]; apply andb_true_iff in E2 as [Hi Hj].
    apply Nat.ltb_lt in Hi, Hj.
    eexists _, _, _; split; [reflexivity | left; cbn; repeat split; lia]. }
  destruct ((0 <? j)%nat && ((i =? 0)%nat || (lcs arr1 arr2 (i - 1) j <=? lcs arr1 arr2 i (j - 1))%nat)) eqn:E3.
  { apply andb_true_iff in E3 as [Hj _]; apply Nat.ltb_lt in Hj.
    eexists _, _, _; split; [reflexivity | right; left; cbn; repeat split; lia]. }
  assert (Hi : (0 < i)%nat).
  { destruct i as [| i]; [| lia].
    destruct Hij as [Hij | Hj]; [lia |].
    apply Nat.ltb_lt in Hj; rewrite Hj in E3; discriminate. }
  eexists _, _, _; split; [reflexivity | right; right; cbn; repeat split; lia].
Qed.

(** With fuel at least [i + j] the loop stops at [(0, 0)]; it adds [i]
    operations [OpEqual] or [OpRemoved], [j] operations [OpEqual] or
    [OpAdded], and no [OpMoved]. *)
Lemma lcs_loop_accounts (arr1 arr2 : list json) :
  forall fuel i j ops, (i + j <= fuel)%nat ->
  exists ops',
    lcs_loop arr1 arr2 fuel i j ops = (ops', 0%nat, 0%nat) /\
    (Forall not_moved ops -> Forall not_moved ops') /\
    (count_type OpEqual ops' + count_type OpRemoved ops'
     = i + (count_type OpEqual ops + count_type OpRemoved ops))%nat /\
    (count_type OpEqual ops' + count_type OpAdded ops'
     = j + (count_type OpEqual ops + count_type OpAdded ops))%nat.
Proof.
  induction fuel as [| f IH]; intros i j ops Hle.
  - assert (i = 0 /\ j = 0)%nat as [-> ->] by lia.
    exists ops; repeat split; auto.
  - cbn [lcs_loop].
    destruct ((0 <? i)%nat || (0 <? j)%nat) eqn:Eij.
    + assert (Hij : (0 < i \/ 0 < j)%nat).
      { apply orb_true_iff in Eij as [H | H]; apply Nat.ltb_lt in H; auto. }
      destruct (lcs_step_cases arr1 arr2 i j ops Hij) as (op & i' & j' & Hs & Hc).
      rewrite Hs.
      destruct (IH i' j' (op :: ops)) as (ops' & Hl & Hm & Hr & Ha); [lia |].
      exists ops'; split; [exact Hl |].
      rewrite !count_type_cons in Hr, Ha.
      destruct Hc as [(Ht & Hi & Hj & -> & ->) | [(Ht & Hj & -> & ->) | (Ht & Hi & -> & ->)]];
        rewrite Ht in Hr, Ha; cbn in Hr, Ha;
        (split; [intros Hf; apply Hm; constructor; [unfold not_moved; rewrite Ht; discriminate | exact Hf] |]);
        split; lia.
    + apply orb_false_iff in Eij as [Hi Hj]; apply Nat.ltb_ge in Hi, Hj.
      assert (i = 0 /\ j = 0)%nat as [-> ->] by lia.
      exists ops; repeat split; auto.
Qed.

(** C10. The reconciler's loop, run from [(m, n)], reaches [(0, 0)] within
    [m + n] iterations; it emits only [OpEqual], [OpAdded] and
    [OpRemoved]; the [OpEqual] and [OpRemoved] operations number [m] (the
    reference length) and the [OpEqual] and [OpAdded] operations number [n]
    (the candidate length). *)
Theorem calculateLCSArrayDiff_accounts :
  forall arr1 arr2 : list json,
  let m := List.length arr1 in
  let n := List.length arr2 in
  (exists ops, lcs_loop arr1 arr2 (m + n) m n [] = (ops, 0%nat, 0%nat)) /\
  Forall (fun op => op_type op <> OpMoved) (calculateLCSArrayDiff arr1 arr2) /\
  (count_type OpEqual (calculateLCSArrayDiff arr1 arr2)
   + count_type OpRemoved (calculateLCSArrayDiff arr1 arr2) = m)%nat /\
  (count_type OpEqual (calculateLCSArrayDiff arr1 arr2)
   + count_type OpAdded (calculateLCSArrayDiff arr1 arr2) = n)%nat.
Proof.
  intros arr1 arr2 m n.
  destruct (lcs_loop_accounts arr1 arr2 (m + n) m n [] (Nat.le_refl _))
    as (ops & Hl & Hm & Hr & Ha).
  unfold calculateLCSArrayDiff; fold m n; rewrite Hl.
  cbn in Hr, Ha.
  split; [eauto | split; [apply Hm; constructor | split; lia]].
Qed.

(** ** Word diff: the parts of the backtracking loop *)

Lemma count_op_cons (o : DiffOperation) (p : DiffPart) (ps : list DiffPart) :
  count_op o (p :: ps) = ((if diffop_eqb (operation p) o then 1 else 0) + count_op o ps)%nat.
Proof. unfold count_op; cbn; destruct (diffop_eqb (operation p) o); reflexivity. Qed.

Lemma count_op_total (ps : list DiffPart) :
  (count_op INSERT ps + count_op DELETE ps + count_op REPLACE ps + count_op EQUAL ps
   = List.length ps)%nat.
Proof.
  induction ps as [| p ps IH]; [reflexivity |].
  rewrite !count_op_cons; cbn [List.length].
  destruct (operation p); cbn; lia.
Qed.

(** Row [0] of the table holds [INSERT], column [0] below it [DELETE];
    [EQUAL] and [REPLACE] occur only inside. *)
Lemma edit_table_border (eqt sim : jsstr -> jsstr -> bool) (g o : list jsstr) (i j : nat) :
  (0 < i \/ 0 < j)%nat ->
  match snd (edit_table eqt sim g o i j) with
  | EQUAL | REPLACE => (0 < i /\ 0 < j)%nat
  | DELETE => (0 < i)%nat
  | INSERT => (0 < j)%nat
  end.
Proof.
  intros Hij.
  destruct i as [| i'].
  - cbn; lia.
  - destruct j as [| j']; cbn; [lia |].
    destruct (eqt (gw g i') (ow o j')); cbn; [lia |].
    destruct (Qeq_bool _ _); [lia |].
    destruct (Qeq_bool _ _); lia.
Qed.

Lemma word_back_accounts (g o : list jsstr) :
  forall fuel i j parts, (i + j <= fuel)%nat ->
  let ps := word_back g o fuel i j parts in
  (Forall replace_ok parts -> Forall replace_ok ps) /\
  (count_op EQUAL ps + count_op DELETE ps + count_op REPLACE ps
   = i + (count_op EQUAL parts + count_op DELETE parts + count_op REPLACE parts))%nat /\
  (count_op EQUAL ps + count_op INSERT ps + count_op REPLACE ps
   = j + (count_op EQUAL parts + count_op INSERT parts + count_op REPLACE parts))%nat.
Proof.
  induction fuel as [| f IH]; intros i j parts Hle; cbv zeta.
  - assert (i = 0 /\ j = 0)%nat as [-> ->] by lia.
    cbn; repeat split; auto.
  - cbn [word_back].
    destruct ((0 <? i)%nat || (0 <? j)%nat) eqn:Eij.
    2: { apply orb_false_iff in Eij as [Hi Hj]; apply Nat.ltb_ge in Hi, Hj.
         assert (i = 0 /\ j = 0)%nat as [-> ->] by lia.
         repeat split; auto. }
    assert (Hij : (0 < i \/ 0 < j)%nat).
    { apply orb_true_iff in Eij as [H | H]; apply Nat.ltb_lt in H; auto. }
    pose proof (edit_table_border jsstr_eqb word_similar g o i j Hij) as Hb.
    destruct (snd (edit_table jsstr_eqb word_similar g o i j)).
    + edestruct IH as (Hr & Hi & Hj); [| split; [intros Hp; apply Hr; constructor;
        [discriminate | exact Hp] |]]; [lia |].
      rewrite !count_op_cons in Hi, Hj; cbn in Hi, Hj; lia.
    + edestruct IH as (Hr & Hi & Hj); [| split; [intros Hp; apply Hr; constructor;
        [discriminate | exact Hp] |]]; [lia |].
      rewrite !count_op_cons in Hi, Hj; cbn in Hi, Hj; lia.
    + edestruct IH as (Hr & Hi & Hj); [| split; [intros Hp; apply Hr; constructor;
        [discriminate | exact Hp] |]]; [lia |].
      rewrite !count_op_cons in Hi, Hj; cbn in Hi, Hj; lia.
    + edestruct IH as (Hr & Hi & Hj); [| split; [intros Hp; apply Hr; constructor;
        [intros _; eexists _, _; repeat split | exact Hp] |]]; [lia |].
      rewrite !count_op_cons in Hi, Hj; cbn in Hi, Hj; lia.
Qed.

Lemma computeWordDiff_accounts (g o : list jsstr) :
  let ps := computeWordDiff g o in
  Forall replace_ok ps /\
  (count_op EQUAL ps + count_op DELETE ps + count_op REPLACE ps = List.length g)%nat /\
  (count_op EQUAL ps + count_op INSERT ps + count_op REPLACE ps = List.length o)%nat.
Proof.
  cbv zeta; unfold computeWordDiff.
  destruct (word_back_accounts g o (List.length g + List.length o) (List.length g) (List.length o) []
              (Nat.le_refl _)) as (Hr & Hi & Hj).
  cbn in Hi, Hj; split; [apply Hr; constructor | lia].
Qed.

(** ** Word diff: the score *)

Open Scope Q_scope.

Lemma fold_left_Qsum {A} (f : A -> Q) (l : list A) (a : Q) :
  fold_left (fun acc x => acc + f x)%Q l a == (a + fold_right (fun x acc => f x + acc) 0 l)%Q.
Proof.
  revert a; induction l as [| x l IH]; intros a; cbn.
  - ring.
  - rewrite IH; ring.
Qed.

Lemma inject_nat_S (n : nat) : inject_Z (Z.of_nat (S n)) == 1 + inject_Z (Z.of_nat n).
Proof. rewrite Nat2Z.inj_succ, <- Z.add_1_l, inject_Z_plus; reflexivity. Qed.

Lemma Qsum_bounds {A} (f : A -> Q) (l : list A) :
  Forall (fun x => 0 <= f x <= 1) l ->
  0 <= fold_right (fun x acc => f x + acc) 0 l <= inject_Z (Z.of_nat (List.length l)).
Proof.
  induction 1 as [| x l [H0 H1] _ [IH0 IH1]]; cbn [fold_right List.length].
  - split; apply Qle_refl.
  - rewrite inject_nat_S.
    split; lra.
Qed.

Lemma replace_cost_bounds (b : bool) : 0 < replace_cost b <= 1.
Proof. destruct b; cbn; lra. Qed.

Lemma op_cost_spec_cost (p : DiffPart) : replace_ok p -> op_cost p == spec_cost p.
Proof.
  unfold replace_ok, op_cost, spec_cost, part_cost.
  destruct (operation p); try reflexivity.
  intros H; destruct (H eq_refl) as (a & b & -> & -> & ->).
  unfold replace_cost, word_similar.
  destruct (Qlt_bool (8 # 10) (calculateWordSimilarity a b)); reflexivity.
Qed.

Lemma op_cost_bounds (p : DiffPart) : replace_ok p -> 0 <= op_cost p <= 1.
Proof.
  unfold replace_ok, op_cost, part_cost.
  destruct (operation p); try lra.
  intros H; destruct (H eq_refl) as (a & b & _ & _ & ->).
  destruct (replace_cost_bounds (word_similar a b)) as [H0 H1].
  destruct (Qeq_bool (replace_cost (word_similar a b)) 0); lra.
Qed.

Lemma spec_sum_filter (ps : list DiffPart) :
  fold_right (fun p acc => spec_cost p + acc) 0 (filter (fun p => negb (is_equal_part p)) ps)
  == fold_right (fun p acc => spec_cost p + acc) 0 ps.
Proof.
  induction ps as [| p ps IH]; [reflexivity |].
  cbn; destruct (is_equal_part p) eqn:E; cbn; rewrite IH; [| reflexivity].
  unfold is_equal_part in E; unfold spec_cost.
  destruct (operation p); try discriminate; ring.
Qed.

Lemma word_cost_sum (ps : list DiffPart) :
  Forall replace_ok ps ->
  fold_left (fun acc p => acc + op_cost p) ps 0
  == fold_right (fun p acc => spec_cost p + acc) 0 (filter (fun p => negb (is_equal_part p)) ps).
Proof.
  intros Hok; rewrite fold_left_Qsum, spec_sum_filter, Qplus_0_l.
  induction Hok as [| p ps Hp _ IH]; cbn; [reflexivity |].
  rewrite IH, (op_cost_spec_cost p Hp); reflexivity.
Qed.

Lemma calculateStats_diffScore (ps : list DiffPart) :
  st_diffScore (calculateStats ps)
  = if (List.length ps =? 0)%nat then 0
    else fold_left (fun acc p => acc + op_cost p) ps 0 / inject_Z (Z.of_nat (List.length ps)).
Proof. unfold calculateStats; cbn; rewrite count_op_total; reflexivity. Qed.

(** C7 (amended). When at least one input has a word, [diffScore] is the
    sum of the costs of the non-[EQUAL] operations ([INSERT] and [DELETE]
    cost 1, a [REPLACE] 0.5 or 1.0 after the similarity of its pair)
    divided by the number of operations; when neither has a word there is
    no operation and [diffScore] is [0].  [modified], [added] and
    [removed] count the [REPLACE], [INSERT] and [DELETE] operations. *)
Theorem calculateDiff_weighted_score :
  forall golden output : jsstr,
  let ps := computeWordDiff (tokenize golden) (tokenize output) in
  let r := calculateDiff golden output in
  ((tokenize golden <> [] \/ tokenize output <> []) -> rnum_eqQ (spec_word_score ps) (diffScore r)) /\
  (tokenize golden = [] -> tokenize output = [] -> ps = [] /\ diffScore r == 0) /\
  modified (changes r) = count_op REPLACE ps /\
  added (changes r) = count_op INSERT ps /\
  removed (changes r) = count_op DELETE ps.
Proof.
  intros golden output ps r.
  destruct (computeWordDiff_accounts (tokenize golden) (tokenize output)) as (Hok & Hg & Ho).
  fold ps in Hok, Hg, Ho.
  pose proof (count_op_total ps) as Htot.
  unfold r, calculateDiff; cbv zeta; fold ps; cbn [diffScore changes].
  rewrite calculateStats_diffScore.
  split; [| split; [| repeat split]].
  - intros Hne.
    assert (Hlen : List.length ps <> 0%nat).
    { destruct Hne as [Hne | Hne];
        destruct (tokenize golden), (tokenize output); cbn in *; try congruence; lia. }
    unfold spec_word_score, js_div.
    apply Nat.eqb_neq in Hlen; rewrite Hlen; cbn.
    rewrite word_cost_sum by exact Hok; reflexivity.
  - intros Hg0 Ho0.
    assert (Hps : ps = []) by (unfold ps, computeWordDiff; rewrite Hg0, Ho0; reflexivity).
    split; [exact Hps | rewrite Hps; reflexivity].
Qed.

Lemma calculateDiff_weighted_score_witness :
  rnum_eqQ (spec_word_score (computeWordDiff (tokenize (js "a b")) (tokenize (js "a c"))))
           (diffScore (calculateDiff (js "a b") (js "a c"))) /\
  computeWordDiff (tokenize []) (tokenize (js " ")) = [] /\
  diffScore (calculateDiff [] (js " ")) == 0.
Proof.
  split; [| apply (proj1 (proj2 (calculateDiff_weighted_score [] (js " "))));
            vm_compute; reflexivity].
  apply (proj1 (calculateDiff_weighted_score (js "a b") (js "a c"))).
  left; vm_compute; discriminate.
Defined.

(** C7: for two blank inputs there is no operation; the stated quotient is
    [0 / 0], i.e. [NaN], while [diffScore] is [0]. *)
Lemma calculateDiff_blank_inputs :
  computeWordDiff (tokenize []) (tokenize []) = [] /\
  spec_word_score (computeWordDiff (tokenize []) (tokenize [])) = RNaN /\
  diffScore (calculateDiff [] []) == 0.
Proof. vm_compute; split; [reflexivity | split; reflexivity]. Qed.

Lemma Qdiv_unit_interval (c t : Q) : 0 <= c <= t -> 0 < t -> 0 <= c / t <= 1.
Proof.
  intros [H0 H1] Ht; split.
  - apply Qle_shift_div_l; [exact Ht | lra].
  - apply Qle_shift_div_r; [exact Ht | lra].
Qed.

Lemma inject_nat_le (a b : nat) : (a <= b)%nat -> inject_Z (Z.of_nat a) <= inject_Z (Z.of_nat b).
Proof. intros H; rewrite <- Zle_Qle; lia. Qed.

Lemma inject_nat_pos (a : nat) : (a <> 0)%nat -> 0 < inject_Z (Z.of_nat a).
Proof. intros H; change 0 with (inject_Z 0); rewrite <- Zlt_Qlt; lia. Qed.

Lemma calculateStats_bounds (ps : list DiffPart) :
  Forall replace_ok ps -> 0 <= st_diffScore (calculateStats ps) <= 1.
Proof.
  intros Hok; rewrite calculateStats_diffScore.
  destruct (List.length ps =? 0)%nat eqn:E; [lra |].
  apply Nat.eqb_neq in E.
  apply Qdiv_unit_interval; [| apply inject_nat_pos; exact E].
  rewrite fold_left_Qsum, Qplus_0_l.
  apply Qsum_bounds.
  eapply Forall_impl; [| exact Hok]; intros p Hp; apply op_cost_bounds; exact Hp.
Qed.

Lemma calculateLineStats_bounds (ps : list LineDiffPart) :
  0 <= ls_diffScore (calculateLineStats ps) <= 1.
Proof.
  unfold calculateLineStats; cbn.
  destruct (_ =? 0)%nat eqn:E; [lra |].
  apply Nat.eqb_neq in E.
  apply Qdiv_unit_interval; [| apply inject_nat_pos; exact E].
  split; [apply (inject_nat_le 0); lia | apply inject_nat_le; lia].
Qed.

(** C9. The word diff and the line diff both give a [diffScore] in
    [[0, 1]] and a [similarity] with [similarity + diffScore = 1]
    (scores as exact rationals). *)
Theorem diff_scores_unit_interval :
  forall golden output : jsstr,
  (0 <= diffScore (calculateDiff golden output) <= 1 /\
   similarity (calculateDiff golden output) + diffScore (calculateDiff golden output) == 1) /\
  (0 <= l_diffScore (calculateLineDiff golden output) <= 1 /\
   l_similarity (calculateLineDiff golden output) + l_diffScore (calculateLineDiff golden output) == 1).
Proof.
  intros golden output; split.
  - unfold calculateDiff; cbv zeta; cbn [diffScore similarity].
    split; [| ring].
    apply calculateStats_bounds.
    apply (computeWordDiff_accounts (tokenize golden) (tokenize output)).
  - unfold calculateLineDiff; cbv zeta; cbn [l_diffScore l_similarity].
    split; [apply calculateLineStats_bounds | ring].
Qed.

(** ** Objects as association lists *)

Lemma jsstr_eqb_eq (a b : jsstr) : jsstr_eqb a b = true <-> a = b.
Proof.
  revert b; induction a as [| x a IH]; intros [| y b]; cbn; try (split; congruence).
  rewrite andb_true_iff, Z.eqb_eq, IH; split; [intros [-> ->] | intros H; injection H]; auto.
Qed.

Lemma jsstr_eqb_refl (a : jsstr) : jsstr_eqb a a = true.
Proof. apply jsstr_eqb_eq; reflexivity. Qed.







Lemma insert_field_perm (f : jsstr * json) (l : list (jsstr * json)) :
  Permutation (insert_field f l) (f :: l).
Proof.
  induction l as [| g r IH]; cbn; [reflexivity |].
  destruct (jsstr_compare (fst f) (fst g)); try reflexivity.
  rewrite IH; apply perm_swap.
Qed.

Lemma sort_fields_perm (l : list (jsstr * json)) : Permutation (sort_fields l) l.
Proof.
  induction l as [| f r IH]; cbn; [reflexivity |].
  rewrite insert_field_perm, IH; reflexivity.
Qed.

(** ** map_result and the errors of normalizeJsonObject *)

Lemma map_result_ok {A B} (f : A -> result B) (l : list A) (l' : list B) :
  map_result f l = Ok l' <-> Forall2 (fun x y => f x = Ok y) l l'.
Proof.
  revert l'; induction l as [| x l IH]; intros l'; cbn.
  - split; [intros H; injection H as <-; constructor | intros H; inversion H; reflexivity].
  - destruct (f x) as [y | e] eqn:Ef; cbn.
    + destruct (map_result f l) as [ys | e] eqn:Er; cbn.
      * split.
        -- intros H; injection H as <-; constructor; [exact Ef | apply IH; reflexivity].
        -- intros H; inversion H as [| ? y' ? ys' Hy Hys]; subst.
           rewrite Ef in Hy; injection Hy as ->.
           apply IH in Hys; injection Hys as ->; reflexivity.
      * split; [discriminate |].
        intros H; inversion H as [| ? y' ? ys' Hy Hys]; subst.
        apply IH in Hys; discriminate.
    + split; [discriminate |].
      intros H; inversion H as [| ? y' ? ys' Hy Hys]; subst; congruence.
Qed.







(** ** Normalising an element with a scalar [id] *)

Lemma normalize_fields_keys (lc : jsstr -> jsstr -> comparison) (fs nfs : list (jsstr * json)) :
  map_result (fun '(k, x) => y <- normalizeJsonObject lc x ;; Ok (k, y)) fs = Ok nfs ->
  map fst nfs = map fst fs /\
  (forall k x, obj_get k fs = Some x -> exists y, obj_get k nfs = Some y /\ normalizeJsonObject lc x = Ok y).
Proof.
  intros H; apply map_result_ok in H.
  induction H as [| [k x] [k' y] fs nfs Hxy _ [IHk IHg]]; [split; [reflexivity | discriminate] |].
  destruct (normalizeJsonObject lc x) as [y' |] eqn:En; cbn in Hxy; [| discriminate].
  injection Hxy as <- <-.
  split; [cbn; f_equal; exact IHk |].
  intros k0 x0; cbn.
  destruct (jsstr_eqb k0 k); [intros H; injection H as <-; eauto | apply IHg].
Qed.


(** ** Sorting by a strict, antisymmetric order *)

Section SortFacts.
Variable lc : jsstr -> jsstr -> comparison.
Hypothesis lc_antisym : forall a b, lc b a = CompOpp (lc a b).
Hypothesis lc_trans : forall a b c, lc a b = Lt -> lc b c = Lt -> lc a c = Lt.

Lemma insert_by_perm (x : jsstr * json) (l : list (jsstr * json)) :
  Permutation (insert_by lc x l) (x :: l).
Proof.
  induction l as [| y r IH]; cbn; [reflexivity |].
  destruct (lc (fst x) (fst y)); try reflexivity.
  rewrite IH; apply perm_swap.
Qed.

Lemma isort_perm (l : list (jsstr * json)) : Permutation (isort lc l) l.
Proof.
  induction l as [| x r IH]; cbn; [reflexivity |].
  rewrite insert_by_perm, IH; reflexivity.
Qed.

Lemma insert_by_hd (x y : jsstr * json) (l : list (jsstr * json)) :
  lc (fst y) (fst x) <> Gt ->
  HdRel (fun p q => lc (fst p) (fst q) <> Gt) y l ->
  HdRel (fun p q => lc (fst p) (fst q) <> Gt) y (insert_by lc x l).
Proof.
  intros Hyx Hd; destruct l as [| z r]; cbn; [constructor; exact Hyx |].
  destruct (lc (fst x) (fst z)); constructor; auto; inversion Hd; assumption.
Qed.

Lemma insert_by_sorted (x : jsstr * json) (l : list (jsstr * json)) :
  Sorted (fun p q => lc (fst p) (fst q) <> Gt) l ->
  Sorted (fun p q => lc (fst p) (fst q) <> Gt) (insert_by lc x l).
Proof.
  induction l as [| y r IH]; cbn; intros Hs; [repeat constructor |].
  inversion Hs as [| ? ? Hr Hd]; subst.
  destruct (lc (fst x) (fst y)) eqn:Exy.
  - constructor; [exact Hs | constructor; congruence].
  - constructor; [exact Hs | constructor; congruence].
  - constructor; [apply IH, Hr |].
    apply insert_by_hd; [rewrite lc_antisym, Exy; discriminate | exact Hd].
Qed.

Lemma isort_sorted (l : list (jsstr * json)) :
  Sorted (fun p q => lc (fst p) (fst q) <> Gt) (isort lc l).
Proof.
  induction l as [| x r IH]; cbn; [constructor | apply insert_by_sorted, IH].
Qed.

Lemma sorted_strict (l : list (jsstr * json)) :
  Sorted (fun p q => lc (fst p) (fst q) <> Gt) l ->
  ForallOrdPairs (fun p q => lc (fst p) (fst q) <> Eq) l ->
  StronglySorted (fun p q => lc (fst p) (fst q) = Lt) l.
Proof.
  intros Hs Hf.
  apply Sorted_StronglySorted; [intros a b c; apply lc_trans |].
  induction Hs as [| a r Hr IH Hd]; constructor.
  - apply IH; inversion Hf; assumption.
  - destruct Hd as [| b r' Hab]; constructor.
    inversion Hf as [| ? ? Hall _]; subst.
    inversion Hall as [| ? ? Hne _]; subst.
    destruct (lc (fst a) (fst b)); congruence.
Qed.

Lemma strongly_sorted_unique (a b : list (jsstr * json)) :
  StronglySorted (fun p q => lc (fst p) (fst q) = Lt) a ->
  StronglySorted (fun p q => lc (fst p) (fst q) = Lt) b ->
  Permutation a b -> a = b.
Proof.
  revert b; induction a as [| x a' IH]; intros b Ha Hb Hp.
  - symmetry; apply Permutation_nil, Hp.
  - destruct b as [| y b']; [apply Permutation_sym, Permutation_nil_cons in Hp; contradiction |].
    apply StronglySorted_inv in Ha as [Ha' Hxa]; apply StronglySorted_inv in Hb as [Hb' Hyb].
    assert (Hy : In y (x :: a')) by (apply (Permutation_in _ (Permutation_sym Hp)); left; reflexivity).
    assert (Hx : In x (y :: b')) by (apply (Permutation_in _ Hp); left; reflexivity).
    destruct Hy as [-> | Hy].
    + f_equal; apply IH; [exact Ha' | exact Hb' | exact (Permutation_cons_inv Hp)].
    + destruct Hx as [-> | Hx].
      * f_equal; apply IH; [exact Ha' | exact Hb' | exact (Permutation_cons_inv Hp)].
      * rewrite Forall_forall in Hxa, Hyb.
        pose proof (Hxa _ Hy) as H1; pose proof (Hyb _ Hx) as H2.
        rewrite lc_antisym, H1 in H2; discriminate.
Qed.

Lemma FOP_perm {A} (R : A -> A -> Prop) (Rsym : forall x y, R x y -> R y x) (l l' : list A) :
  Permutation l l' -> ForallOrdPairs R l -> ForallOrdPairs R l'.
Proof.
  induction 1 as [| x l l' Hp IH | x y l | l l' l'' _ IH1 _ IH2]; intros Hf; auto.
  - inversion Hf as [| ? ? Hall Hr]; subst; constructor; [| auto].
    rewrite Forall_forall in *; intros z Hz; apply Hall, (Permutation_in _ (Permutation_sym Hp)), Hz.
  - inversion Hf as [| ? ? Hy Hr]; subst; inversion Hr as [| ? ? Hx Hl]; subst.
    inversion Hy as [| ? ? Hyx Hyl]; subst.
    repeat constructor; auto.
Qed.

Lemma isort_unique (l l' : list (jsstr * json)) :
  ForallOrdPairs (fun p q => lc (fst p) (fst q) <> Eq) l -> Permutation l l' ->
  isort lc l = isort lc l'.
Proof.
  intros Hf Hp.
  assert (Hsym : forall p q : jsstr * json, lc (fst p) (fst q) <> Eq -> lc (fst q) (fst p) <> Eq).
  { intros p q H; rewrite lc_antisym; destruct (lc (fst p) (fst q)); cbn; congruence. }
  apply strongly_sorted_unique.
  - apply sorted_strict; [apply isort_sorted |].
    apply (FOP_perm _ Hsym l); [symmetry; apply isort_perm | exact Hf].
  - apply sorted_strict; [apply isort_sorted |].
    apply (FOP_perm _ Hsym l); [rewrite Hp; symmetry; apply isort_perm | exact Hf].
  - rewrite !isort_perm; exact Hp.
Qed.
End SortFacts.








Lemma Forall_perm {A} (P : A -> Prop) (l l' : list A) :
  Permutation l l' -> Forall P l -> Forall P l'.
Proof.
  intros Hp; rewrite !Forall_forall; intros H x Hx; apply H, (Permutation_in _ (Permutation_sym Hp)), Hx.
Qed.


Lemma jsstr_compare_antisym (a b : jsstr) : jsstr_compare b a = CompOpp (jsstr_compare a b).
Proof.
  revert b; induction a as [| x a IH]; destruct b as [| y b]; cbn; try reflexivity.
  rewrite (Z.compare_antisym x y); destruct (x ?= y)%Z; cbn; auto.
Qed.

Lemma jsstr_compare_trans (a b c : jsstr) :
  jsstr_compare a b = Lt -> jsstr_compare b c = Lt -> jsstr_compare a c = Lt.
Proof.
  revert b c; induction a as [| x a IH]; destruct b as [| y b], c as [| z c]; cbn;
    try discriminate; auto.
  destruct (Z.compare_spec x y), (Z.compare_spec y z), (Z.compare_spec x z);
    intros Hab Hbc; subst; try discriminate; try lia; eauto.
Qed.



(** C4 counterexample: [1e999] parses to [Infinity], which sorts as the
    string "Infinity" but is written as [null]; the second pass sorts by
    the empty string instead, so the order of the two elements flips. *)
Lemma normalizeJson_not_idempotent :
  normalized (normalizeJson jsstr_compare
    (normalized (normalizeJson jsstr_compare (jsq "[{'id':1e999},{'id':5}]"))))
  <> normalized (normalizeJson jsstr_compare (jsq "[{'id':1e999},{'id':5}]")).
Proof. vm_compute; discriminate. Qed.

(** ** Idempotence of normalizeJson on values without infinities or [__proto__] keys *)

Section Roundtrip.
Local Open Scope Z_scope.

Lemma digits_value_acc (l : list Z) (acc : Z) :
  fold_left (fun acc d => acc * 10 + (d - 48)) l acc
  = acc * 10 ^ Z.of_nat (List.length l) + digits_value l.
Proof.
  unfold digits_value; revert acc; induction l as [| d l IH]; intros acc; cbn [fold_left List.length].
  - cbn; lia.
  - rewrite (IH (acc * 10 + (d - 48))), (IH (0 * 10 + (d - 48))).
    rewrite Nat2Z.inj_succ, Z.pow_succ_r by lia; ring.
Qed.

Lemma digits_value_app (a b : list Z) :
  digits_value (a ++ b) = digits_value a * 10 ^ Z.of_nat (List.length b) + digits_value b.
Proof.
  unfold digits_value at 1; rewrite fold_left_app, digits_value_acc; reflexivity.
Qed.

Lemma digits_value_cons (d : Z) (l : list Z) :
  digits_value (d :: l) = (d - 48) * 10 ^ Z.of_nat (List.length l) + digits_value l.
Proof. unfold digits_value at 1; cbn [fold_left]; rewrite digits_value_acc; ring. Qed.

Lemma digits_value_zeros (n : nat) (l : list Z) : digits_value (repeat 48 n ++ l) = digits_value l.
Proof.
  induction n as [| n IH]; [reflexivity |].
  cbn [repeat app]; rewrite digits_value_cons, IH; ring.
Qed.


Lemma is_digit_of (n : Z) : 0 <= n < 10 -> is_digit (48 + n) = true.
Proof. intros H; unfold is_digit; apply andb_true_iff; split; apply Z.leb_le; lia. Qed.

Lemma zdigits_aux_spec (f : nat) (n : Z) (acc : list Z) :
  0 < n < 10 ^ Z.of_nat f ->
  exists ds, zdigits_aux f n acc = ds ++ acc /\ digit_list ds /\
             (exists d r, ds = d :: r /\ d <> 48) /\ digits_value ds = n.
Proof.
  revert n acc; induction f as [| f IH]; intros n acc Hn; [cbn in Hn; lia |].
  cbn [zdigits_aux]; destruct (Z.ltb_spec n 10).
  - exists [48 + n]; split; [reflexivity |].
    split; [constructor; [apply is_digit_of; lia | constructor] |].
    split; [exists (48 + n), []; split; [reflexivity | lia] |].
    change (digits_value [48 + n]) with (0 * 10 + (48 + n - 48)); lia.
  - rewrite Nat2Z.inj_succ, Z.pow_succ_r in Hn by lia.
    destruct (IH (n / 10) (48 + n mod 10 :: acc)) as (ds & E & Hd & Hh & Hv).
    { split; [apply Z.div_str_pos; lia | apply Z.div_lt_upper_bound; lia]. }
    exists (ds ++ [48 + n mod 10]); rewrite E, <- app_assoc; split; [reflexivity |].
    split; [apply Forall_app; split; [exact Hd | constructor; [| constructor]] |].
    { apply is_digit_of, Z.mod_pos_bound; lia. }
    split; [destruct Hh as (d & r & -> & Hd0); exists d, (r ++ [48 + n mod 10]); split; [reflexivity | exact Hd0] |].
    rewrite digits_value_app, Hv.
    change (digits_value [48 + n mod 10]) with (0 * 10 + (48 + n mod 10 - 48)).
    change (10 ^ Z.of_nat (List.length [48 + n mod 10])) with 10.
    pose proof (Z.div_mod n 10); lia.
Qed.

Lemma zdigits_spec (n : Z) :
  0 < n -> digit_list (zdigits n) /\ (exists d r, zdigits n = d :: r /\ d <> 48) /\
           digits_value (zdigits n) = n.
Proof.
  intros Hn; unfold zdigits.
  destruct (zdigits_aux_spec (Z.to_nat (Z.log2 n) + 1) n []) as (ds & E & H1 & H2 & H3).
  - split; [exact Hn |].
    rewrite Nat2Z.inj_add, Z2Nat.id by apply Z.log2_nonneg.
    apply (Z.lt_le_trans _ (2 ^ (Z.log2 n + 1))).
    + apply Z.log2_spec; exact Hn.
    + apply Z.pow_le_mono_l; pose proof (Z.log2_nonneg n); lia.
  - rewrite E, app_nil_r; auto.
Qed.

Lemma take_digits_app (ds rest : list Z) :
  digit_list ds -> (forall c r, rest = c :: r -> is_digit c = false) ->
  take_digits (ds ++ rest) = (ds, rest).
Proof.
  intros Hd Hr; induction Hd as [| c ds Hc _ IH]; cbn [take_digits app].
  - destruct rest as [| c r]; [reflexivity |]; cbn [take_digits]; rewrite (Hr c r eq_refl); reflexivity.
  - rewrite Hc, IH; reflexivity.
Qed.

Lemma norm_dec_strip (f j : nat) (m e : Z) :
  m mod 10 <> 0 -> (j < f)%nat ->
  norm_dec f (m * 10 ^ Z.of_nat j) e = (m, e + Z.of_nat j).
Proof.
  intros Hm; assert (Hm0 : m <> 0) by (intros ->; apply Hm; reflexivity).
  revert f e; induction j as [| j IH]; intros f e Hf; (destruct f as [| f]; [lia |]); cbn [norm_dec].
  - rewrite Z.pow_0_r, Z.mul_1_r.
    destruct (Z.eqb_spec m 0); [contradiction |].
    destruct (Z.eqb_spec (m mod 10) 0); [contradiction |].
    f_equal; lia.
  - rewrite Nat2Z.inj_succ, Z.pow_succ_r by lia.
    replace (m * (10 * 10 ^ Z.of_nat j)) with (m * 10 ^ Z.of_nat j * 10) by ring.
    destruct (Z.eqb_spec (m * 10 ^ Z.of_nat j * 10) 0).
    + apply Z.mul_eq_0 in e0 as [e0 | e0]; [| lia].
      apply Z.mul_eq_0 in e0 as [e0 | e0]; [contradiction |].
      pose proof (Z.pow_pos_nonneg 10 (Z.of_nat j)); lia.
    + rewrite Z.mod_mul by lia; cbn [Z.eqb].
      rewrite Z.div_mul by lia.
      rewrite IH by lia; f_equal; lia.
Qed.

Lemma decompose_dec (m : Z) :
  m <> 0 -> exists m1 z, m = m1 * 10 ^ Z.of_nat z /\ m1 mod 10 <> 0.
Proof.
  assert (H : forall k m, (Z.abs_nat m < k)%nat -> m <> 0 ->
              exists m1 z, m = m1 * 10 ^ Z.of_nat z /\ m1 mod 10 <> 0).
  { induction k as [| k IH]; intros m' Hk Hm; [lia |].
    destruct (Z.eqb_spec (m' mod 10) 0) as [H0 | H0].
    - pose proof (Z.div_mod m' 10) as Hd.
      destruct (IH (m' / 10)) as (m1 & z & E & Hm1); [lia | lia |].
      exists m1, (S z); split; [| exact Hm1].
      rewrite Nat2Z.inj_succ, Z.pow_succ_r by lia; lia.
    - exists m', O; split; [rewrite Z.pow_0_r; ring | exact H0]. }
  intros Hm; apply (H (S (Z.abs_nat m))); [lia | exact Hm].
Qed.

Lemma pow10_ge_pow2 (z : nat) : 2 ^ Z.of_nat z <= 10 ^ Z.of_nat z.
Proof. apply Z.pow_le_mono_l; lia. Qed.

Lemma normalize_dec_scaled (m : Z) (j : nat) (e : Z) :
  m mod 10 <> 0 -> normalize_dec (m * 10 ^ Z.of_nat j) e = (m, e + Z.of_nat j).
Proof.
  intros Hm; assert (Hm0 : m <> 0) by (intros ->; apply Hm; reflexivity).
  unfold normalize_dec; apply norm_dec_strip; [exact Hm |].
  enough (Z.of_nat j <= Z.log2 (Z.abs (m * 10 ^ Z.of_nat j))) by lia.
  rewrite <- (Z.log2_pow2 (Z.of_nat j)) at 1 by lia.
  apply Z.log2_le_mono.
  pose proof (pow10_ge_pow2 j); pose proof (Z.pow_pos_nonneg 10 (Z.of_nat j)).
  rewrite Z.abs_mul, (Z.abs_eq (10 ^ _)) by lia; nia.
Qed.

Lemma normalize_dec_zero (e : Z) : normalize_dec 0 e = (0, 0).
Proof. reflexivity. Qed.

Lemma dec_overflows_scale (m : Z) (z : nat) (e : Z) :
  dec_overflows (m * 10 ^ Z.of_nat z) e = dec_overflows m (e + Z.of_nat z).
Proof.
  unfold dec_overflows.
  pose proof (Z.pow_pos_nonneg 10 (Z.of_nat z) ltac:(lia) ltac:(lia)) as Hp.
  rewrite Z.abs_mul, (Z.abs_eq (10 ^ Z.of_nat z)) by lia.
  set (B := overflow_bound); assert (HB : 0 < B) by (unfold B, overflow_bound; lia).
  set (a := Z.abs m); assert (Ha : 0 <= a) by apply Z.abs_nonneg.
  destruct (Z.leb_spec 0 e) as [He | He]; destruct (Z.leb_spec 0 (e + Z.of_nat z)) as [Hez | Hez];
    try lia; apply Bool.eq_iff_eq_true; rewrite !Z.leb_le.
  - rewrite Z.pow_add_r by lia; split; intros; nia.
  - replace (10 ^ Z.of_nat z) with (10 ^ (e + Z.of_nat z) * 10 ^ (- e))
      by (rewrite <- Z.pow_add_r by lia; f_equal; lia).
    pose proof (Z.pow_pos_nonneg 10 (- e) ltac:(lia) ltac:(lia)).
    split; intros Hle.
    + apply (Z.mul_le_mono_pos_r _ _ (10 ^ (- e))); [lia | nia].
    + apply (Z.mul_le_mono_pos_r _ _ (10 ^ (- e))) in Hle; [nia | lia].
  - replace (10 ^ (- e)) with (10 ^ (- (e + Z.of_nat z)) * 10 ^ Z.of_nat z)
      by (rewrite <- Z.pow_add_r by lia; f_equal; lia).
    pose proof (Z.pow_pos_nonneg 10 (- (e + Z.of_nat z)) ltac:(lia) ltac:(lia)).
    split; intros Hle.
    + apply (Z.mul_le_mono_pos_r _ _ (10 ^ Z.of_nat z)); [lia | nia].
    + apply (Z.mul_le_mono_pos_r _ _ (10 ^ Z.of_nat z)) in Hle; [nia | lia].
Qed.

Lemma pair_eqb_true (x y : Z * Z) : pair_eqb x y = true -> x = y.
Proof.
  destruct x as [x1 x2], y as [y1 y2]; unfold pair_eqb; cbn [fst snd].
  rewrite andb_true_iff, !Z.eqb_eq; intros [-> ->]; reflexivity.
Qed.

Lemma shortest_spec (d c : Z * Z) :
  shortest d = Some c ->
  fst c <> 0 /\ dec_overflows (fst c) (snd c) = false /\
  normalize_dec (fst c) (snd c) = c /\ round_dec (fst c) (snd c) = d.
Proof.
  unfold shortest; intros H; apply find_some in H as [_ H]; unfold round_trips in H.
  rewrite !andb_true_iff, !negb_true_iff, Z.eqb_neq in H.
  destruct H as [[[H1 H2] H3] H4]; apply pair_eqb_true in H3, H4; auto.
Qed.

Lemma normalize_dec_fixed (m e : Z) :
  normalize_dec m e = (m, e) -> (m = 0 /\ e = 0) \/ (m <> 0 /\ m mod 10 <> 0).
Proof.
  destruct (Z.eqb_spec m 0) as [-> | Hm].
  - rewrite normalize_dec_zero; intros H; injection H as <-; left; split; reflexivity.
  - destruct (decompose_dec m Hm) as (m1 & z & Hmz & Hm1); rewrite Hmz at 1.
    rewrite normalize_dec_scaled by exact Hm1; intros H; injection H as E1 _.
    right; split; [exact Hm | rewrite <- E1; exact Hm1].
Qed.

(** The form [make_number] gives is kept by it. *)
Lemma make_number_fixed (m e : Z) :
  match make_number m e with NFin m' e' => make_number m' e' = NFin m' e' | _ => True end.
Proof.
  unfold make_number at 1; destruct (dec_overflows m e) eqn:Ho; [destruct (m <? 0); exact I |].
  destruct (normalize_dec m e) as [m' e'] eqn:En.
  assert (Hfix : normalize_dec m' e' = (m', e') /\ dec_overflows m' e' = false).
  { destruct (Z.eqb_spec m 0) as [-> | Hm].
    - rewrite normalize_dec_zero in En; injection En as <- <-; split; reflexivity.
    - destruct (decompose_dec m Hm) as (m1 & z & -> & Hm1).
      rewrite normalize_dec_scaled in En by exact Hm1; injection En as <- <-.
      rewrite <- dec_overflows_scale, Ho; split; [| reflexivity].
      pose proof (normalize_dec_scaled m1 0 (e + Z.of_nat z) Hm1) as Hn.
      rewrite Z.pow_0_r, Z.mul_1_r, Z.add_0_r in Hn; exact Hn. }
  destruct Hfix as [Hn Hov]; cbv beta iota zeta.
  destruct (fst (round_dec m' e') =? 0) eqn:Ez; [reflexivity |].
  destruct (shortest (round_dec m' e')) as [[s p] |] eqn:Es.
  - destruct (shortest_spec _ _ Es) as (_ & Hso & Hsn & Hsr); cbn [fst snd] in *.
    unfold make_number; rewrite Hso, Hsn; cbv beta iota zeta.
    rewrite Hsr, Ez, Es; reflexivity.
  - unfold make_number; rewrite Hov, Hn; cbv beta iota zeta.
    rewrite Ez, Es; reflexivity.
Qed.

Lemma canon_num_facts (m e : Z) :
  make_number m e = NFin m e ->
  (m = 0 -> e = 0) /\ (m <> 0 -> m mod 10 <> 0) /\ dec_overflows m e = false.
Proof.
  unfold make_number; destruct (dec_overflows m e) eqn:Ho; [destruct (m <? 0); discriminate |].
  intros H; enough (Hd : (m = 0 /\ e = 0) \/ (m <> 0 /\ m mod 10 <> 0)).
  { split; [| split; [| reflexivity]]; destruct Hd as [[H1 H2] | [H1 H2]]; intros H3;
      first [assumption | contradiction]. }
  revert H; destruct (normalize_dec m e) as [m' e'] eqn:En; cbv beta iota zeta.
  destruct (fst (round_dec m' e') =? 0).
  { intros Hq; injection Hq as <- <-; left; split; reflexivity. }
  destruct (shortest (round_dec m' e')) as [[s p] |] eqn:Es; intros Hq; injection Hq as <- <-.
  - destruct (shortest_spec _ _ Es) as (_ & _ & Hsn & _); cbn [fst snd] in Hsn.
    apply normalize_dec_fixed; exact Hsn.
  - apply normalize_dec_fixed; exact En.
Qed.

(** Scaling the mantissa by a power of 10 and lowering the exponent as
    much reads the same number. *)
Lemma make_number_scale (m : Z) (j : nat) (e : Z) :
  m mod 10 <> 0 -> make_number (m * 10 ^ Z.of_nat j) e = make_number m (e + Z.of_nat j).
Proof.
  intros Hm; unfold make_number; rewrite dec_overflows_scale, normalize_dec_scaled by exact Hm.
  pose proof (normalize_dec_scaled m 0 (e + Z.of_nat j) Hm) as Hn.
  rewrite Z.pow_0_r, Z.mul_1_r, Z.add_0_r in Hn; rewrite Hn.
  replace (m * 10 ^ Z.of_nat j <? 0) with (m <? 0); [reflexivity |].
  pose proof (Z.pow_pos_nonneg 10 (Z.of_nat j) ltac:(lia) ltac:(lia)).
  destruct (Z.ltb_spec m 0), (Z.ltb_spec (m * 10 ^ Z.of_nat j) 0); nia.
Qed.

Lemma num_follow_not_digit (t : jsstr) :
  num_follow t -> forall c r, t = c :: r -> is_digit c = false.
Proof. intros Ht c r ->; destruct Ht as [-> | ->]; reflexivity. Qed.

Lemma num_sign_form (neg : bool) (t : jsstr) :
  (forall r, t <> 45 :: r) -> num_sign ((if neg then [45] else []) ++ t) = (neg, t).
Proof.
  intros Ht; destruct neg; [reflexivity |].
  destruct t as [| c r]; [reflexivity |]; unfold num_sign; cbn [app eat].
  destruct (Z.eqb_spec c 45) as [-> | Hc]; [destruct (Ht r eq_refl) | reflexivity].
Qed.

Lemma num_int_form (ids t : jsstr) :
  digit_list ids -> ids <> [] -> (forall r, ids = 48 :: r -> r = []) ->
  (forall c r, t = c :: r -> is_digit c = false) ->
  num_int (ids ++ t) = Some (ids, t).
Proof.
  intros Hi Hi0 Hi48 Ht; destruct ids as [| c ids']; [contradiction |].
  unfold num_int; cbn [app eat].
  destruct (Z.eqb_spec c 48) as [-> | Hc48].
  - rewrite (Hi48 ids' eq_refl); reflexivity.
  - inversion Hi as [| ? ? Hc _]; subst; rewrite Hc.
    change (c :: ids' ++ t) with ((c :: ids') ++ t); rewrite take_digits_app by assumption.
    reflexivity.
Qed.

Lemma num_frac_none (t : jsstr) : (forall r, t <> 46 :: r) -> num_frac t = Some ([], t).
Proof.
  intros Ht; destruct t as [| c r]; [reflexivity |]; unfold num_frac; cbn [eat].
  destruct (Z.eqb_spec c 46) as [-> | Hc]; [destruct (Ht r eq_refl) | reflexivity].
Qed.

Lemma num_frac_some (fds t : jsstr) :
  digit_list fds -> fds <> [] -> (forall c r, t = c :: r -> is_digit c = false) ->
  num_frac (46 :: fds ++ t) = Some (fds, t).
Proof.
  intros Hf Hf0 Ht; unfold num_frac; cbn [eat]; rewrite Z.eqb_refl.
  rewrite take_digits_app by assumption.
  destruct fds; [contradiction | reflexivity].
Qed.

Lemma num_exp_none (t : jsstr) : num_follow t -> num_exp t = Some (0, t).
Proof. destruct t as [| c r]; [reflexivity |]; intros [-> | ->]; reflexivity. Qed.

Lemma num_exp_some (esg ex : Z) (eds t : jsstr) :
  digit_list eds -> eds <> [] ->
  (esg = 43 /\ ex = digits_value eds \/ esg = 45 /\ ex = - digits_value eds) ->
  (forall c r, t = c :: r -> is_digit c = false) ->
  num_exp (101 :: esg :: eds ++ t) = Some (ex, t).
Proof.
  intros He He0 Hs Ht; unfold num_exp.
  destruct Hs as [[-> ->] | [-> ->]]; cbn [eat orb Z.eqb Pos.eqb];
    rewrite take_digits_app by assumption; (destruct eds; [contradiction |]); f_equal; f_equal; ring.
Qed.

Lemma parse_number_form (neg : bool) (ids fds eds rest : list Z) (esg ex : Z) :
  digit_list ids -> ids <> [] -> (forall r, ids = 48 :: r -> r = []) ->
  digit_list fds ->
  ((eds = [] /\ ex = 0) \/
   (digit_list eds /\ eds <> [] /\
    (esg = 43 /\ ex = digits_value eds \/ esg = 45 /\ ex = - digits_value eds))) ->
  num_follow rest ->
  forall text, text = (if neg then [45] else []) ++ ids ++ (match fds with [] => [] | _ => 46 :: fds end)
                      ++ (match eds with [] => [] | _ => 101 :: esg :: eds end) ++ rest ->
  parse_number text
  = Some (make_number (if neg then - digits_value (ids ++ fds) else digits_value (ids ++ fds))
                      (ex - Z.of_nat (List.length fds)), rest).
Proof.
  intros Hi Hi0 Hi48 Hf He Hr text ->.
  pose proof (num_follow_not_digit rest Hr) as Hrd.
  assert (HE : forall c r, (match eds with [] => [] | _ => 101 :: esg :: eds end) ++ rest = c :: r ->
                           is_digit c = false /\ c <> 46).
  { intros c r; destruct eds as [| d eds']; cbn [app].
    - intros ->; destruct Hr as [-> | ->]; split; [reflexivity | lia | reflexivity | lia].
    - intros H; injection H as <- _; split; [reflexivity | lia]. }
  assert (HF : forall c r, (match fds with [] => [] | _ => 46 :: fds end)
                           ++ (match eds with [] => [] | _ => 101 :: esg :: eds end) ++ rest = c :: r ->
                           is_digit c = false).
  { intros c r; destruct fds as [| d fds']; cbn [app]; [intros H; apply (HE c r H) |].
    intros H; injection H as <- _; reflexivity. }
  unfold parse_number.
  rewrite num_sign_form.
  2:{ intros r; destruct ids as [| c ids']; [contradiction |]; cbn [app]; intros H; injection H as -> _.
      inversion Hi as [| ? ? Hc _]; discriminate. }
  rewrite num_int_form by assumption.
  assert (Hfr : num_frac ((match fds with [] => [] | _ => 46 :: fds end)
                          ++ (match eds with [] => [] | _ => 101 :: esg :: eds end) ++ rest)
                = Some (fds, (match eds with [] => [] | _ => 101 :: esg :: eds end) ++ rest)).
  { destruct fds as [| d fds']; cbn [app].
    - apply num_frac_none; intros r H; destruct (HE 46 r H) as [_ Hn]; lia.
    - apply (num_frac_some (d :: fds')); [exact Hf | discriminate |].
      intros c r H; apply (HE c r H). }
  rewrite Hfr.
  assert (Hex : num_exp ((match eds with [] => [] | _ => 101 :: esg :: eds end) ++ rest) = Some (ex, rest)).
  { destruct He as [[-> ->] | (Hd & Hd0 & Hs)]; [apply num_exp_none, Hr |].
    destruct eds as [| d eds']; [contradiction |].
    apply num_exp_some; assumption. }
  rewrite Hex; reflexivity.
Qed.

Lemma digit_list_split (n : nat) (ds : list Z) :
  digit_list ds -> digit_list (firstn n ds) /\ digit_list (skipn n ds).
Proof.
  intros H; unfold digit_list in *; rewrite <- (firstn_skipn n ds) in H.
  apply Forall_app in H; exact H.
Qed.

Lemma digit_list_zeros (n : nat) : digit_list (repeat 48 n).
Proof. induction n; constructor; [reflexivity | assumption]. Qed.

Lemma signed_abs (m : Z) : (if m <? 0 then - Z.abs m else Z.abs m) = m.
Proof. destruct (Z.ltb_spec m 0); lia. Qed.

Lemma parse_fin_to_string (m e : Z) (rest : jsstr) :
  make_number m e = NFin m e -> num_follow rest ->
  parse_number (fin_to_string m e ++ rest) = Some (NFin m e, rest).
Proof.
  intros Hc Hr; destruct (canon_num_facts m e Hc) as (H0 & Hm10 & Hov).
  destruct (Z.eqb_spec m 0) as [-> | Hm].
  - rewrite (H0 eq_refl) in *.
    rewrite <- Hc.
    apply (parse_number_form false [48] [] [] rest 0 0); try reflexivity; try exact Hr.
    + repeat constructor.
    + discriminate.
    + intros r H; injection H as ->; reflexivity.
    + constructor.
    + left; split; reflexivity.
  - unfold fin_to_string; apply Z.eqb_neq in Hm as Hmb; rewrite Hmb; cbv zeta.
    assert (Ha : 0 < Z.abs m) by lia.
    destruct (zdigits_spec (Z.abs m) Ha) as (Hdl & (d & r & Eds & Hd48) & Hval).
    set (ds := zdigits (Z.abs m)) in *.
    set (k := Z.of_nat (List.length ds)).
    assert (Hk : 1 <= k) by (unfold k; rewrite Eds; cbn [List.length]; lia).
    assert (Hhd : forall r', ds = 48 :: r' -> r' = []) by (rewrite Eds; intros r' H; injection H as E48 _; contradiction).
    assert (Hsgn : forall X, (if m <? 0 then - X else X) = (if m <? 0 then - Z.abs m else Z.abs m) * (X / Z.abs m)
                     \/ True) by (intros; right; exact I).
    clear Hsgn.
    destruct ((k <=? e + k) && (e + k <=? 21)) eqn:B1.
    + (* plain digits, padded with zeros *)
      apply andb_true_iff in B1 as [B1 _]; apply Z.leb_le in B1.
      set (j := Z.to_nat (e + k - k)).
      assert (Ej : Z.of_nat j = e) by (unfold j; lia).
      erewrite (parse_number_form (m <? 0) (ds ++ repeat 48 j) [] [] rest 0 0);
        [| apply Forall_app; split; [exact Hdl | apply digit_list_zeros]
         | rewrite Eds; discriminate
         | rewrite Eds; intros r' H; injection H as E48 _; contradiction
         | constructor | left; split; reflexivity | exact Hr
         | rewrite <- !app_assoc; reflexivity].
      f_equal; f_equal.
      assert (Hz : digits_value (repeat 48 j) = 0)
        by (rewrite <- (app_nil_r (repeat 48 j)), digits_value_zeros; reflexivity).
      rewrite app_nil_r, digits_value_app, Hz, Hval, repeat_length, Z.add_0_r.
      replace (if m <? 0 then - (Z.abs m * 10 ^ Z.of_nat j) else Z.abs m * 10 ^ Z.of_nat j)
        with (m * 10 ^ Z.of_nat j) by (destruct (Z.ltb_spec m 0); lia).
      rewrite make_number_scale by (apply Hm10; lia).
      rewrite Z.add_0_l, Ej; exact Hc.
    + assert (Hkl : k = Z.of_nat (List.length ds)) by reflexivity.
      apply andb_false_iff in B1.
      assert (B1' : ~ (k <= e + k /\ e + k <= 21))
        by (destruct B1 as [B1 | B1]; apply Z.leb_gt in B1; lia).
      clear B1.
      destruct ((0 <? e + k) && (e + k <=? 21)) eqn:B2.
      * (* a decimal point inside the digits *)
        apply andb_true_iff in B2 as [B2a B2b]; apply Z.ltb_lt in B2a; apply Z.leb_le in B2b.
        remember (Z.to_nat (e + k)) as t eqn:Et.
        assert (Hfl : List.length (firstn t ds) = t) by (apply firstn_length_le; lia).
        assert (Hsl : List.length (skipn t ds) = (List.length ds - t)%nat) by apply length_skipn.
        destruct (digit_list_split t ds Hdl) as [Hd1 Hd2].
        erewrite (parse_number_form (m <? 0) (firstn t ds) (skipn t ds) [] rest 0 0);
          [| exact Hd1
           | intros E; rewrite E in Hfl; cbn in Hfl; lia
           | intros r' E; exfalso; rewrite Eds in E; destruct t;
             [discriminate | injection E as E _; contradiction]
           | exact Hd2 | left; split; reflexivity | exact Hr
           | ].
        2:{ destruct (skipn t ds) as [| s0 sk] eqn:Esk; [cbn in Hsl; lia |].
            rewrite <- !app_assoc; reflexivity. }
        rewrite firstn_skipn, Hval, Hsl, signed_abs.
        replace (0 - Z.of_nat (List.length ds - t)) with e by lia.
        rewrite Hc; reflexivity.
      * apply andb_false_iff in B2.
        assert (B2' : ~ (0 < e + k /\ e + k <= 21))
          by (destruct B2 as [B2 | B2]; [apply Z.ltb_ge in B2 | apply Z.leb_gt in B2]; lia).
        clear B2.
        destruct ((-6 <? e + k) && (e + k <=? 0)) eqn:B3.
        -- (* leading zeros after the point *)
           apply andb_true_iff in B3 as [B3a B3b]; apply Z.ltb_lt in B3a; apply Z.leb_le in B3b.
           remember (Z.to_nat (- (e + k))) as z eqn:Ez.
           erewrite (parse_number_form (m <? 0) [48] (repeat 48 z ++ ds) [] rest 0 0);
             [| repeat constructor | discriminate | intros r' E; injection E as <-; reflexivity
              | apply Forall_app; split; [apply digit_list_zeros | exact Hdl]
              | left; split; reflexivity | exact Hr
              | ].
           2:{ destruct (repeat 48 z ++ ds) as [| s0 sk] eqn:Esk.
               - rewrite Eds in Esk; destruct z; discriminate.
               - rewrite <- !app_assoc; reflexivity. }
           change ([48] ++ repeat 48 z ++ ds) with (repeat 48 (S z) ++ ds).
           rewrite digits_value_zeros, Hval, signed_abs, length_app, repeat_length.
           replace (0 - Z.of_nat (z + List.length ds)) with e by lia.
           rewrite Hc; reflexivity.
        -- (* exponential notation *)
           apply andb_false_iff in B3.
           assert (B3' : ~ (-6 < e + k /\ e + k <= 0))
             by (destruct B3 as [B3 | B3]; [apply Z.ltb_ge in B3 | apply Z.leb_gt in B3]; lia).
           clear B3.
           assert (Hx : e + k - 1 <> 0) by lia.
           destruct (zdigits_spec (Z.abs (e + k - 1)) ltac:(lia)) as (Hxl & (dx & rx & Exs & _) & Hxv).
           set (eds := zdigits (Z.abs (e + k - 1))) in *.
           assert (He : digit_list eds /\ eds <> [] /\
                        ((if 0 <=? e + k - 1 then 43 else 45) = 43 /\ e + k - 1 = digits_value eds \/
                         (if 0 <=? e + k - 1 then 43 else 45) = 45 /\ e + k - 1 = - digits_value eds)).
           { split; [exact Hxl | split; [rewrite Exs; discriminate |]].
             rewrite Hxv; destruct (Z.leb_spec 0 (e + k - 1)); [left | right]; split; lia. }
           destruct r as [| r0 r'].
           ++ erewrite (parse_number_form (m <? 0) ds [] eds rest (if 0 <=? e + k - 1 then 43 else 45) (e + k - 1));
                [| exact Hdl | rewrite Eds; discriminate | exact Hhd | constructor
                 | right; exact He | exact Hr | ].
              2:{ rewrite Eds, Exs; destruct (0 <=? e + k - 1); rewrite <- !app_assoc; reflexivity. }
              rewrite app_nil_r, Hval, signed_abs.
              replace (e + k - 1 - Z.of_nat (List.length (@nil Z))) with e
                by (rewrite Hkl, Eds; cbn [List.length]; lia).
              rewrite Hc; reflexivity.
           ++ erewrite (parse_number_form (m <? 0) [d] (r0 :: r') eds rest
                          (if 0 <=? e + k - 1 then 43 else 45) (e + k - 1));
                [| rewrite Eds in Hdl; inversion Hdl; repeat constructor; assumption
                 | discriminate | intros r'' E; injection E as _ <-; reflexivity
                 | rewrite Eds in Hdl; inversion Hdl; assumption
                 | right; exact He | exact Hr | ].
              2:{ rewrite Eds, Exs; destruct (0 <=? e + k - 1); rewrite <- !app_assoc; reflexivity. }
              change ([d] ++ r0 :: r') with (d :: r0 :: r'); rewrite <- Eds, Hval, signed_abs.
              replace (e + k - 1 - Z.of_nat (List.length (r0 :: r'))) with e
                by (rewrite Hkl, Eds; cbn [List.length]; lia).
              rewrite Hc; reflexivity.
Qed.

Lemma hex_val_digit (d : Z) : 0 <= d < 16 -> hex_val (hex_digit d) = Some d.
Proof.
  intros Hd; unfold hex_digit, hex_val, is_digit.
  destruct (Z.ltb_spec d 10).
  - rewrite (proj2 (Z.leb_le 48 (48 + d))), (proj2 (Z.leb_le (48 + d) 57)) by lia.
    cbn [andb]; f_equal; lia.
  - rewrite (proj2 (Z.leb_gt (87 + d) 57)) by lia; rewrite andb_false_r.
    rewrite (proj2 (Z.leb_le 97 (87 + d))), (proj2 (Z.leb_le (87 + d) 102)) by lia.
    cbn [andb]; f_equal; lia.
Qed.

Lemma str_body_esc_u (c : Z) (X t r : jsstr) :
  0 <= c < 65536 -> str_body X = Some (t, r) -> str_body (esc_u c ++ X) = Some (c :: t, r).
Proof.
  intros Hc HX; unfold esc_u; cbn [app str_body Z.eqb Pos.eqb].
  unfold hex4; rewrite !hex_val_digit by (first [apply Z.mod_pos_bound; lia | split; [apply Z.div_pos | apply Z.div_lt_upper_bound]; lia]).
  rewrite HX; do 3 f_equal.
  pose proof (Z.div_mod c 16 ltac:(lia)).
  pose proof (Z.div_mod (c / 16) 16 ltac:(lia)).
  pose proof (Z.div_mod (c / 256) 16 ltac:(lia)).
  rewrite !Z.div_div in * by lia.
  change (16 * 16) with 256 in *; change (256 * 16) with 4096 in *; lia.
Qed.

Lemma str_body_plain (c : Z) (X t r : jsstr) :
  32 <= c -> c <> 34 -> c <> 92 -> str_body X = Some (t, r) -> str_body (c :: X) = Some (c :: t, r).
Proof.
  intros H1 H2 H3 HX; cbn [str_body].
  rewrite (proj2 (Z.eqb_neq c 34) H2), (proj2 (Z.eqb_neq c 92) H3), (proj2 (Z.ltb_ge c 32) H1), HX.
  reflexivity.
Qed.

Lemma str_body_escape_unit (c : Z) (X t r : jsstr) :
  0 <= c < 65536 -> str_body X = Some (t, r) -> str_body (escape_unit c ++ X) = Some (c :: t, r).
Proof.
  intros Hc HX; unfold escape_unit.
  destruct (Z.eqb_spec c 8) as [-> |]; [cbn; rewrite HX; reflexivity |].
  destruct (Z.eqb_spec c 9) as [-> |]; [cbn; rewrite HX; reflexivity |].
  destruct (Z.eqb_spec c 10) as [-> |]; [cbn; rewrite HX; reflexivity |].
  destruct (Z.eqb_spec c 12) as [-> |]; [cbn; rewrite HX; reflexivity |].
  destruct (Z.eqb_spec c 13) as [-> |]; [cbn; rewrite HX; reflexivity |].
  destruct (Z.eqb_spec c 34) as [-> |]; [cbn; rewrite HX; reflexivity |].
  destruct (Z.eqb_spec c 92) as [-> |]; [cbn; rewrite HX; reflexivity |].
  destruct (Z.ltb_spec c 32); [apply str_body_esc_u; assumption |].
  apply str_body_plain; assumption.
Qed.

Lemma str_body_quote (s rest : jsstr) :
  forallb unit_ok s = true -> str_body (quote_units s ++ 34 :: rest) = Some (s, rest).
Proof.
  assert (Hu : forall c, unit_ok c = true -> 0 <= c < 65536)
    by (intros c H; unfold unit_ok in H; apply andb_true_iff in H as [H1 H2];
        apply Z.leb_le in H1; apply Z.ltb_lt in H2; lia).
  intros Hs; remember (List.length s) as n eqn:En; revert s En Hs.
  induction n as [n IH] using lt_wf_ind; intros s En Hs.
  destruct s as [| c r]; [reflexivity |].
  cbn [forallb] in Hs; apply andb_true_iff in Hs as [Hc Hr]; apply Hu in Hc.
  cbn [quote_units].
  assert (IHr : str_body (quote_units r ++ 34 :: rest) = Some (r, rest))
    by (apply (IH (List.length r)); [cbn in En; lia | reflexivity | exact Hr]).
  destruct (is_high c) eqn:Hh.
  - destruct r as [| d r'].
    + apply (str_body_esc_u c (34 :: rest) [] rest Hc); reflexivity.
    + destruct (is_low d) eqn:Hl.
      * cbn [forallb] in Hr; apply andb_true_iff in Hr as [Hd Hr'].
        unfold is_high, is_low in *; apply andb_true_iff in Hh as [Hh1 Hh2]; apply andb_true_iff in Hl as [Hl1 Hl2].
        apply Z.leb_le in Hh1, Hh2, Hl1, Hl2.
        cbn [app]; apply str_body_plain; try lia.
        apply str_body_plain; try lia.
        apply (IH (List.length r')); [cbn in En; lia | reflexivity | exact Hr'].
      * rewrite <- app_assoc; apply str_body_esc_u; assumption.
  - destruct (is_low c); rewrite <- app_assoc;
      [apply str_body_esc_u | apply str_body_escape_unit]; assumption.
Qed.

Lemma fin_to_string_head (m e : Z) :
  exists c t, fin_to_string m e = c :: t /\ (c = 45 \/ is_digit c = true).
Proof.
  unfold fin_to_string.
  destruct (Z.eqb_spec m 0) as [-> | Hm]; [exists 48, []; split; [reflexivity | right; reflexivity] |].
  cbv zeta; destruct (Z.ltb_spec m 0).
  - eexists _, _; split; [reflexivity | left; reflexivity].
  - destruct (zdigits_spec (Z.abs m) ltac:(lia)) as (Hdl & (d & r & Eds & _) & _).
    rewrite Eds in *; inversion Hdl as [| ? ? Hd _]; subst.
    set (n := e + Z.of_nat (List.length (d :: r))).
    cbn [app].
    destruct ((Z.of_nat (List.length (d :: r)) <=? n) && (n <=? 21)).
    + exists d, (r ++ repeat 48 (Z.to_nat (n - Z.of_nat (List.length (d :: r))))); auto.
    + destruct ((0 <? n) && (n <=? 21)) eqn:B2.
      * apply andb_true_iff in B2 as [B2 _]; apply Z.ltb_lt in B2.
        replace (Z.to_nat n) with (S (Z.to_nat n - 1)) by lia.
        cbn [firstn app]; eexists _, _; split; [reflexivity | right; exact Hd].
      * destruct ((-6 <? n) && (n <=? 0)).
        -- eexists _, _; split; [reflexivity | right; reflexivity].
        -- destruct r; (eexists _, _; split; [reflexivity | right; exact Hd]).
Qed.

Lemma head_facts (c : Z) :
  c = 45 \/ is_digit c = true ->
  is_json_ws c = false /\ is_js_ws c = false /\ c <> 93 /\ c <> 125 /\
  c <> 123 /\ c <> 91 /\ c <> 34 /\ c <> 116 /\ c <> 102 /\ c <> 110.
Proof.
  intros [-> | H]; [repeat split; (reflexivity || discriminate) |].
  unfold is_digit in H; apply andb_true_iff in H as [H1 H2]; apply Z.leb_le in H1, H2.
  assert (Hc : c = 48 \/ c = 49 \/ c = 50 \/ c = 51 \/ c = 52 \/ c = 53 \/ c = 54 \/ c = 55
               \/ c = 56 \/ c = 57) by lia.
  repeat destruct Hc as [-> | Hc]; try (subst c); repeat split; (reflexivity || discriminate).
Qed.

Lemma stringify_head (i : nat) (v : json) :
  exists c t, stringify_at i v = c :: t /\
              is_json_ws c = false /\ is_js_ws c = false /\ c <> 93 /\ c <> 125.
Proof.
  destruct v as [| [|] | [m e | |] | str | [| x l] | [| [k x] fs]]; cbn [stringify_at num_json];
    try (eexists _, _; split; [reflexivity | repeat split; (reflexivity || discriminate)]).
  destruct (fin_to_string_head m e) as (c & t & -> & Hc).
  exists c, t; split; [reflexivity |].
  destruct (head_facts c Hc) as (? & ? & ? & ? & _); auto.
Qed.

Lemma length_indent (n : nat) : List.length (indent n) = (2 * n)%nat.
Proof. unfold indent; apply repeat_length. Qed.

Lemma skip_jws_indent (n : nat) (X : jsstr) : skip_jws (indent n ++ X) = skip_jws X.
Proof. unfold indent; generalize (2 * n)%nat; intros j; induction j as [| j IH]; [reflexivity | exact IH]. Qed.

Lemma skip_jws_nl_indent (n : nat) (X : jsstr) : skip_jws (10 :: indent n ++ X) = skip_jws X.
Proof. apply skip_jws_indent. Qed.

Lemma skip_jws_stringify (i : nat) (v : json) (X : jsstr) :
  skip_jws (stringify_at i v ++ X) = stringify_at i v ++ X.
Proof.
  destruct (stringify_head i v) as (c & t & -> & Hw & _).
  cbn [app skip_jws]; rewrite Hw; reflexivity.
Qed.

Lemma pvalue_num (f : nat) (s : jsstr) (c : Z) (r : jsstr) :
  skip_jws s = c :: r -> c = 45 \/ is_digit c = true ->
  pvalue (S f) s = match parse_number (c :: r) with Some (n, r') => Some (JNum n, r') | None => None end.
Proof.
  intros Hs Hc; destruct (head_facts c Hc) as (_ & _ & _ & _ & H1 & H2 & H3 & H4 & H5 & H6).
  cbn [pvalue]; rewrite Hs.
  rewrite (proj2 (Z.eqb_neq c 123) H1), (proj2 (Z.eqb_neq c 91) H2), (proj2 (Z.eqb_neq c 34) H3).
  change (js "true") with [116; 114; 117; 101]; change (js "false") with [102; 97; 108; 115; 101];
    change (js "null") with [110; 117; 108; 108]; cbn [starts_with].
  rewrite (proj2 (Z.eqb_neq 116 c)), (proj2 (Z.eqb_neq 102 c)), (proj2 (Z.eqb_neq 110 c)) by congruence.
  reflexivity.
Qed.

Lemma canon_arr (l : list json) : canon (JArr l) -> Forall canon l.
Proof.
  induction l as [| x l IH]; cbn; [constructor |].
  intros [Hx Hl]; constructor; [exact Hx | apply IH; exact Hl].
Qed.

Lemma canon_obj (fs : list (jsstr * json)) :
  canon (JObj fs) ->
  fold_left (fun acc '(k, y) => obj_set k y acc) fs [] = fs /\
  Forall (fun kv => forallb unit_ok (fst kv) = true /\ canon (snd kv)) fs.
Proof.
  intros [Hf Hg]; split; [exact Hf |].
  clear Hf; induction fs as [| [k x] fs IH]; [constructor |].
  destruct Hg as [Hkx Hg]; constructor; [exact Hkx | apply IH; exact Hg].
Qed.

Lemma pvalue_stringify (v : json) :
  forall (i f : nat) (s rest : jsstr),
  canon v -> num_follow rest -> skip_jws s = stringify_at i v ++ rest ->
  (List.length (stringify_at i v) < f)%nat -> pvalue f s = Some (v, rest).
Proof.
  induction v as [| b | n | str | l IHl | fs IHfs] using json_ind'; intros i f s rest Hc Hr Hs Hf;
    (destruct f as [| f]; [lia |]).
  - cbn [pvalue]; rewrite Hs; reflexivity.
  - cbn [pvalue]; rewrite Hs; destruct b; reflexivity.
  - destruct n as [m e | |]; [| destruct Hc | destruct Hc].
    cbn [stringify_at num_json] in Hs.
    destruct (fin_to_string_head m e) as (c & t & Ht & Hc').
    rewrite Ht in Hs; cbn [app] in Hs.
    rewrite (pvalue_num f s c (t ++ rest) Hs Hc').
    change (c :: t ++ rest) with ((c :: t) ++ rest); rewrite <- Ht, parse_fin_to_string by assumption.
    reflexivity.
  - cbn [pvalue]; rewrite Hs; cbn [stringify_at quote].
    unfold quote; rewrite <- !app_assoc; cbn [app].
    rewrite str_body_quote by exact Hc; reflexivity.
  - destruct l as [| x r]; [cbn [pvalue]; rewrite Hs; reflexivity |].
    apply canon_arr in Hc.
    assert (Hel : forall (r0 : list json) (x0 : json) (acc : list json) (g : nat) (s0 : jsstr),
               Forall (fun v => forall i f s rest, canon v -> num_follow rest ->
                         skip_jws s = stringify_at i v ++ rest ->
                         (List.length (stringify_at i v) < f)%nat -> pvalue f s = Some (v, rest))
                      (x0 :: r0) ->
               Forall canon (x0 :: r0) ->
               skip_jws s0 = stringify_at (S i) x0
                 ++ List.concat (map (fun y => [44; 10] ++ indent (S i) ++ stringify_at (S i) y) r0)
                 ++ [10] ++ indent i ++ [93] ++ rest ->
               lt (S (List.length (stringify_at (S i) x0
                 ++ List.concat (map (fun y => [44; 10] ++ indent (S i) ++ stringify_at (S i) y) r0)))) g ->
               pelems g acc s0 = Some (JArr (acc ++ x0 :: r0), rest)).
    { induction r0 as [| y r0 IH]; intros x0 acc g s0 HP HC Hs0 Hg; (destruct g as [| g]; [lia |]);
        inversion HP as [| ? ? Hx0 HPr]; inversion HC as [| ? ? Cx0 HCr]; subst; cbn [pelems].
      - lazymatch type of Hs0 with _ = _ ++ ?T => rewrite (Hx0 (S i) g s0 T Cx0) end;
          [| right; reflexivity | exact Hs0 | rewrite length_app in Hg; lia].
        cbn [List.concat map app]; rewrite skip_jws_nl_indent; reflexivity.
      - lazymatch type of Hs0 with _ = _ ++ ?T => rewrite (Hx0 (S i) g s0 T Cx0) end;
          [| left; reflexivity | exact Hs0 | rewrite length_app in Hg; lia].
        cbn [List.concat map app]; cbn [skip_jws is_json_ws orb Z.eqb Pos.eqb]; cbn beta iota.
        replace (acc ++ x0 :: y :: r0) with ((acc ++ [x0]) ++ y :: r0) by (rewrite <- app_assoc; reflexivity).
        apply IH; [exact HPr | exact HCr | |].
        + rewrite <- !app_assoc, skip_jws_nl_indent, skip_jws_stringify; reflexivity.
        + cbn [List.concat map] in Hg; rewrite !length_app in *; cbn [List.length] in Hg; lia. }
    cbn [pvalue]; rewrite Hs; cbn [stringify_at app]; cbn [Z.eqb Pos.eqb]; cbn beta iota.
    rewrite <- !app_assoc, skip_jws_nl_indent, skip_jws_stringify.
    destruct (stringify_head (S i) x) as (c & t & Ht & _ & _ & H93 & _).
    rewrite Ht; cbn [app]; rewrite (proj2 (Z.eqb_neq c 93) H93), (app_comm_cons t _ c), <- Ht.
    apply (Hel r x [] f); [exact IHl | exact Hc | | ].
    + rewrite <- !app_assoc, skip_jws_stringify; reflexivity.
    + cbn [stringify_at] in Hf; rewrite !length_app in *; cbn [List.length] in Hf; lia.
  - destruct fs as [| [k x] r]; [cbn [pvalue]; rewrite Hs; reflexivity |].
    apply canon_obj in Hc as [Hfold Hc].
    assert (Hmem : forall (r0 : list (jsstr * json)) (k0 : jsstr) (x0 : json)
                          (acc : list (jsstr * json)) (g : nat) (s0 : jsstr),
               Forall (fun kv => forall i f s rest, canon (snd kv) -> num_follow rest ->
                         skip_jws s = stringify_at i (snd kv) ++ rest ->
                         (List.length (stringify_at i (snd kv)) < f)%nat ->
                         pvalue f s = Some (snd kv, rest)) ((k0, x0) :: r0) ->
               Forall (fun kv => forallb unit_ok (fst kv) = true /\ canon (snd kv)) ((k0, x0) :: r0) ->
               skip_jws s0 = quote k0 ++ [58; 32] ++ stringify_at (S i) x0
                 ++ List.concat (map (fun '(k', y) => [44; 10] ++ indent (S i) ++ quote k' ++ [58; 32]
                                                      ++ stringify_at (S i) y) r0)
                 ++ [10] ++ indent i ++ [125] ++ rest ->
               lt (S (List.length (quote k0 ++ [58; 32] ++ stringify_at (S i) x0
                 ++ List.concat (map (fun '(k', y) => [44; 10] ++ indent (S i) ++ quote k' ++ [58; 32]
                                                      ++ stringify_at (S i) y) r0)))) g ->
               pmembers g acc s0
               = Some (JObj (fold_left (fun acc '(k, y) => obj_set k y acc) ((k0, x0) :: r0) acc), rest)).
    { induction r0 as [| [k1 y] r0 IH]; intros k0 x0 acc g s0 HP HC Hs0 Hg; (destruct g as [| g]; [lia |]);
        inversion HP as [| ? ? Hx0 HPr]; inversion HC as [| ? ? [Ck0 Cx0] HCr]; subst; cbn [fst snd] in *;
        cbn [pmembers]; rewrite Hs0; unfold quote at 1; rewrite <- !app_assoc; cbn [app];
        cbn [Z.eqb Pos.eqb]; cbn beta iota;
        rewrite str_body_quote by exact Ck0;
        cbn [skip_jws is_json_ws orb Z.eqb Pos.eqb]; cbn beta iota.
      - lazymatch goal with |- context [pvalue g (32 :: stringify_at (S i) x0 ++ ?T)] =>
          rewrite (Hx0 (S i) g (32 :: stringify_at (S i) x0 ++ T) T Cx0) end;
          [| right; reflexivity | apply skip_jws_stringify
           | unfold quote in Hg; rewrite !length_app in Hg; cbn [List.length] in Hg; lia].
        cbn [List.concat map app]; rewrite skip_jws_nl_indent; reflexivity.
      - lazymatch goal with |- context [pvalue g (32 :: stringify_at (S i) x0 ++ ?T)] =>
          rewrite (Hx0 (S i) g (32 :: stringify_at (S i) x0 ++ T) T Cx0) end;
          [| left; reflexivity | apply skip_jws_stringify
           | unfold quote in Hg; rewrite !length_app in Hg; cbn [List.length] in Hg; lia].
        cbn [List.concat map app]; cbn [skip_jws is_json_ws orb Z.eqb Pos.eqb]; cbn beta iota.
        apply IH; [exact HPr | exact HCr | |].
        + rewrite <- !app_assoc, skip_jws_nl_indent.
          unfold quote; rewrite <- !app_assoc; reflexivity.
        + cbn [List.concat map] in Hg; unfold quote in *; rewrite !length_app in *;
            cbn [List.length] in *; rewrite ?length_app in *; lia. }
    replace (JObj ((k, x) :: r)) with (JObj (fold_left (fun acc '(k, y) => obj_set k y acc) ((k, x) :: r) []))
      by (rewrite Hfold; reflexivity).
    cbn [pvalue]; rewrite Hs; cbn [stringify_at app]; cbn [Z.eqb Pos.eqb]; cbn beta iota.
    rewrite <- !app_assoc, skip_jws_nl_indent.
    unfold quote at 1 2; rewrite <- !app_assoc; cbn [app skip_jws is_json_ws orb Z.eqb Pos.eqb]; cbn beta iota.
    apply (Hmem r k x [] f); [exact IHfs | exact Hc | |].
    + unfold quote; cbn [app]; rewrite <- ?app_assoc; cbn [app skip_jws is_json_ws orb Z.eqb Pos.eqb]; cbn beta iota; rewrite <- ?app_assoc; reflexivity.
    + cbn [stringify_at] in Hf; unfold quote in *; rewrite !length_app in *; cbn [List.length] in *;
        rewrite ?length_app in *; cbn [List.length] in *; lia.
Qed.

Lemma JSON_parse_stringify (v : json) : canon v -> JSON_parse (stringify_at 0 v) = Ok v.
Proof.
  intros Hc; unfold JSON_parse.
  rewrite (pvalue_stringify v 0 _ (stringify_at 0 v) [] Hc I); [reflexivity | |].
  - rewrite <- (app_nil_r (stringify_at 0 v)) at 1; apply skip_jws_stringify.
  - lia.
Qed.

Lemma ends_digit (X L : jsstr) :
  digit_list L -> L <> [] -> exists t c, X ++ L = t ++ [c] /\ is_digit c = true.
Proof.
  intros H Hn; destruct (exists_last Hn) as (t & c & ->).
  exists (X ++ t), c; split; [apply app_assoc |].
  apply Forall_app in H as [_ H]; inversion H; assumption.
Qed.

Lemma fin_to_string_last (m e : Z) :
  exists t c, fin_to_string m e = t ++ [c] /\ is_digit c = true.
Proof.
  unfold fin_to_string.
  destruct (Z.eqb_spec m 0) as [-> | Hm]; [exists [], 48; split; reflexivity |].
  cbv zeta.
  destruct (zdigits_spec (Z.abs m) ltac:(lia)) as (Hdl & (d & r & Eds & _) & _).
  set (ds := zdigits (Z.abs m)) in *.
  set (k := Z.of_nat (List.length ds)).
  assert (Hk : k = Z.of_nat (List.length ds)) by reflexivity.
  destruct ((k <=? e + k) && (e + k <=? 21)) eqn:B1.
  - apply ends_digit; [apply Forall_app; split; [exact Hdl | apply digit_list_zeros] |].
    rewrite Eds; discriminate.
  - destruct ((0 <? e + k) && (e + k <=? 21)) eqn:B2.
    + rewrite !app_assoc; apply ends_digit; [apply (digit_list_split _ _ Hdl) |].
      intros E; apply (f_equal (@List.length Z)) in E; rewrite length_skipn in E; cbn in E.
      apply andb_true_iff in B2 as [B2 B2']; apply Z.ltb_lt in B2; apply Z.leb_le in B2'.
      apply andb_false_iff in B1 as [B1 | B1]; apply Z.leb_gt in B1; lia.
    + destruct ((-6 <? e + k) && (e + k <=? 0)).
      * rewrite !app_assoc; apply ends_digit; [exact Hdl | rewrite Eds; discriminate].
      * assert (Hx : e + k - 1 <> 0)
          by (intros Hx; assert (E1 : e + k = 1) by lia; rewrite E1 in B2; discriminate).
        destruct (zdigits_spec (Z.abs (e + k - 1)) ltac:(lia)) as (Hxl & (dx & rx & Exs & _) & _).
        rewrite Eds; destruct r; rewrite !app_assoc;
          (apply ends_digit; [exact Hxl | rewrite Exs; discriminate]).
Qed.

Lemma stringify_last (i : nat) (v : json) :
  exists t c, stringify_at i v = t ++ [c] /\ is_js_ws c = false.
Proof.
  destruct v as [| [|] | [m e | |] | str | [| x l] | [| [k x] fs]]; cbn [stringify_at num_json].
  - exists [110; 117; 108], 108; split; reflexivity.
  - exists [116; 114; 117], 101; split; reflexivity.
  - exists [102; 97; 108; 115], 101; split; reflexivity.
  - destruct (fin_to_string_last m e) as (t & c & -> & Hc).
    exists t, c; split; [reflexivity |].
    destruct (head_facts c (or_intror Hc)) as (_ & H & _); exact H.
  - exists [110; 117; 108], 108; split; reflexivity.
  - exists [110; 117; 108], 108; split; reflexivity.
  - unfold quote; exists ([34] ++ quote_units str), 34; split; [rewrite <- app_assoc; reflexivity | reflexivity].
  - exists [91], 93; split; reflexivity.
  - eexists _, _; split; [rewrite !app_assoc; reflexivity | reflexivity].
  - exists [123], 125; split; reflexivity.
  - eexists _, _; split; [rewrite !app_assoc; reflexivity | reflexivity].
Qed.

Lemma trim_stringify (i : nat) (v : json) : trim (stringify_at i v) = stringify_at i v.
Proof.
  unfold trim.
  destruct (stringify_head i v) as (c & t & Ht & _ & Hjs & _).
  assert (E1 : drop_ws (stringify_at i v) = stringify_at i v)
    by (rewrite Ht; cbn [drop_ws]; rewrite Hjs; reflexivity).
  rewrite E1.
  destruct (stringify_last i v) as (t' & c' & Ht' & Hjs').
  rewrite Ht', rev_unit; cbn [drop_ws]; rewrite Hjs'; cbn [rev]; rewrite rev_involutive; reflexivity.
Qed.

Lemma parsed_arr (l : list json) : parsed_ok (JArr l) <-> Forall parsed_ok l.
Proof.
  induction l as [| x l IH]; cbn; [split; constructor |].
  split; [intros [Hx Hl]; constructor; [exact Hx | apply IH; exact Hl] |].
  intros H; inversion H as [| ? ? Hx Hl]; subst; split; [exact Hx | apply IH; exact Hl].
Qed.

Lemma parsed_obj (fs : list (jsstr * json)) :
  parsed_ok (JObj fs) <-> NoDup (map fst fs) /\ Forall (fun kv => parsed_ok (snd kv)) fs.
Proof.
  cbn [parsed_ok]; apply and_iff_compat_l.
  induction fs as [| [k x] fs IH]; [split; constructor |].
  split; [intros [Hx Hl]; constructor; [exact Hx | apply IH; exact Hl] |].
  intros H; inversion H as [| ? ? Hx Hl]; subst; split; [exact Hx | apply IH; exact Hl].
Qed.

Lemma parse_number_fixed (s : jsstr) (n : jsnum) (r : jsstr) :
  parse_number s = Some (n, r) ->
  match n with NFin m e => make_number m e = NFin m e | _ => True end.
Proof.
  unfold parse_number; destruct (num_sign s) as [neg s1].
  destruct (num_int s1) as [[ids s2] |]; [| discriminate].
  destruct (num_frac s2) as [[fds s3] |]; [| discriminate].
  destruct (num_exp s3) as [[ex s4] |]; [| discriminate].
  intros H; injection H as <- _; apply make_number_fixed.
Qed.

Lemma obj_get_none_notin (k : jsstr) (acc : list (jsstr * json)) :
  obj_get k acc = None -> ~ In k (map fst acc).
Proof.
  induction acc as [| [k' v] acc IH]; cbn; [auto |].
  destruct (jsstr_eqb k k') eqn:E; [discriminate |].
  intros Hn [-> | Hin]; [rewrite jsstr_eqb_refl in E; discriminate | exact (IH Hn Hin)].
Qed.

Lemma obj_insert_index_perm (k : jsstr) (v : json) (acc : list (jsstr * json)) :
  Permutation (obj_insert_index k v acc) ((k, v) :: acc).
Proof.
  induction acc as [| [k' v'] acc IH]; cbn; [reflexivity |].
  destruct (is_array_index k' && (digits_value k' <? digits_value k)); [| reflexivity].
  rewrite IH; apply perm_swap.
Qed.

Lemma obj_replace_keys (k : jsstr) (v : json) (acc : list (jsstr * json)) :
  map fst (obj_replace k v acc) = map fst acc.
Proof.
  induction acc as [| [k' v'] acc IH]; cbn; [reflexivity |].
  destruct (jsstr_eqb k k'); cbn; [reflexivity | rewrite IH; reflexivity].
Qed.

Lemma obj_replace_forall (Q : json -> Prop) (k : jsstr) (v : json) (acc : list (jsstr * json)) :
  Forall (fun kv => Q (snd kv)) acc -> Q v -> Forall (fun kv => Q (snd kv)) (obj_replace k v acc).
Proof.
  intros H Hv; induction H as [| [k' v'] acc Hk Ht IH]; cbn; [constructor |].
  destruct (jsstr_eqb k k'); constructor; auto.
Qed.

Lemma obj_set_nodup (k : jsstr) (v : json) (acc : list (jsstr * json)) :
  NoDup (map fst acc) -> NoDup (map fst (obj_set k v acc)).
Proof.
  intros H; unfold obj_set; destruct (obj_get k acc) eqn:E; [rewrite obj_replace_keys; exact H |].
  apply obj_get_none_notin in E.
  destruct (is_array_index k).
  - rewrite (Permutation_map fst (obj_insert_index_perm k v acc)); constructor; assumption.
  - rewrite map_app; cbn; apply NoDup_app; [exact H | repeat constructor; auto |].
    intros x Hx [<- | []]; contradiction.
Qed.

Lemma obj_set_forall (Q : json -> Prop) (k : jsstr) (v : json) (acc : list (jsstr * json)) :
  Forall (fun kv => Q (snd kv)) acc -> Q v -> Forall (fun kv => Q (snd kv)) (obj_set k v acc).
Proof.
  intros H Hv; unfold obj_set; destruct (obj_get k acc); [apply obj_replace_forall; assumption |].
  destruct (is_array_index k).
  - apply (Forall_perm _ ((k, v) :: acc)); [symmetry; apply obj_insert_index_perm | constructor; assumption].
  - apply Forall_app; split; [exact H | constructor; [exact Hv | constructor]].
Qed.

Lemma parser_parsed_ok (f : nat) :
  (forall s v r, pvalue f s = Some (v, r) -> parsed_ok v) /\
  (forall acc s v r, Forall parsed_ok acc -> pelems f acc s = Some (v, r) -> parsed_ok v) /\
  (forall acc s v r, NoDup (map fst acc) -> Forall (fun kv => parsed_ok (snd kv)) acc ->
                     pmembers f acc s = Some (v, r) -> parsed_ok v).
Proof.
  induction f as [| f (IH1 & IH2 & IH3)]; [repeat split; intros; discriminate |].
  split; [| split].
  - intros s v r H; cbn [pvalue] in H.
    destruct (skip_jws s) as [| c t]; [discriminate |].
    destruct (c =? 123).
    + destruct (skip_jws t) as [| d t']; [discriminate |].
      destruct (d =? 125); [injection H as <- _; split; constructor |].
      exact (IH3 [] _ _ _ (NoDup_nil _) (Forall_nil _) H).
    + destruct (c =? 91).
      * destruct (skip_jws t) as [| d t']; [discriminate |].
        destruct (d =? 93); [injection H as <- _; exact I |].
        exact (IH2 [] _ _ _ (Forall_nil _) H).
      * destruct (c =? 34).
        -- destruct (str_body t) as [[x y] |]; [injection H as <- _; exact I | discriminate].
        -- destruct (starts_with (js "true") (c :: t)); [injection H as <- _; exact I |].
           destruct (starts_with (js "false") (c :: t)); [injection H as <- _; exact I |].
           destruct (starts_with (js "null") (c :: t)); [injection H as <- _; exact I |].
           destruct (parse_number (c :: t)) as [[n r'] |] eqn:Ep; [| discriminate].
           injection H as <- _; apply parse_number_fixed in Ep.
           destruct n; cbn; auto.
  - intros acc s v r Hacc H; cbn [pelems] in H.
    destruct (pvalue f s) as [[x r1] |] eqn:Ex; [| discriminate].
    apply IH1 in Ex.
    destruct (skip_jws r1) as [| d r']; [discriminate |].
    destruct (d =? 44).
    + apply (IH2 (acc ++ [x]) r' v r); [apply Forall_app; split; auto | exact H].
    + destruct (d =? 93); [| discriminate].
      injection H as <- _; apply parsed_arr, Forall_app; split; auto.
  - intros acc s v r Hnd Hacc H; cbn [pmembers] in H.
    destruct (skip_jws s) as [| d t]; [discriminate |].
    destruct (d =? 34); [| discriminate].
    destruct (str_body t) as [[k r1] |]; [| discriminate].
    destruct (skip_jws r1) as [| e r2]; [discriminate |].
    destruct (e =? 58); [| discriminate].
    destruct (pvalue f r2) as [[x r3] |] eqn:Ex; [| discriminate].
    apply IH1 in Ex.
    destruct (skip_jws r3) as [| g r4]; [discriminate |].
    destruct (g =? 44).
    + apply (IH3 (obj_set k x acc) r4 v r); [apply obj_set_nodup; exact Hnd
                                            | apply obj_set_forall; assumption | exact H].
    + destruct (g =? 125); [| discriminate].
      injection H as <- _; apply parsed_obj; split;
        [apply obj_set_nodup; exact Hnd | apply obj_set_forall; assumption].
Qed.

Lemma JSON_parse_parsed_ok (s : jsstr) (v : json) : JSON_parse s = Ok v -> parsed_ok v.
Proof.
  unfold JSON_parse; destruct (pvalue _ s) as [[x r] |] eqn:E; [| discriminate].
  destruct (skip_jws r); [| discriminate].
  intros H; injection H as <-; exact (proj1 (parser_parsed_ok _) _ _ _ E).
Qed.

Lemma digits_value_bound (l : jsstr) :
  digit_list l -> 0 <= digits_value l < 10 ^ Z.of_nat (List.length l).
Proof.
  induction l as [| d l IH]; intros H; [cbn; lia |].
  inversion H as [| ? ? Hd Hl]; subst.
  rewrite digits_value_cons; cbn [List.length]; rewrite Nat2Z.inj_succ, Z.pow_succ_r by lia.
  specialize (IH Hl).
  unfold is_digit in Hd; apply andb_true_iff in Hd as [H1 H2]; apply Z.leb_le in H1, H2.
  nia.
Qed.

Lemma digits_inj (a b : jsstr) :
  digit_list a -> digit_list b -> List.length a = List.length b ->
  digits_value a = digits_value b -> a = b.
Proof.
  revert b; induction a as [| x a IH]; intros [| y b] Ha Hb Hl Hv; try discriminate; [reflexivity |].
  inversion Ha as [| ? ? Hx Ha']; inversion Hb as [| ? ? Hy Hb']; subst.
  cbn in Hl; injection Hl as Hl.
  rewrite !digits_value_cons, Hl in Hv.
  pose proof (digits_value_bound a Ha') as Ba; pose proof (digits_value_bound b Hb') as Bb.
  rewrite Hl in Ba.
  set (P := 10 ^ Z.of_nat (List.length b)) in *.
  assert (Hxy : (x - y) * P = digits_value b - digits_value a) by lia.
  assert (x = y).
  { destruct (Z.lt_trichotomy x y) as [Hlt | [Heq | Hgt]]; [nia | exact Heq | nia]. }
  subst y; f_equal; apply IH; [exact Ha' | exact Hb' | exact Hl | lia].
Qed.

Lemma is_array_index_cons (c : Z) (r : list Z) :
  is_array_index (c :: r) =
  ((c =? 48) && match r with [] => true | _ => false end)
  || ((49 <=? c) && (c <=? 57) && forallb is_digit r && (digits_value (c :: r) <? 2 ^ 32 - 1)).
Proof.
  destruct r as [| d r]; destruct c as [| p | p]; try reflexivity;
    repeat (destruct p as [p | p |]; try reflexivity).
Qed.

Lemma index_form (k : jsstr) :
  is_array_index k = true ->
  k = [48] \/ exists c r, k = c :: r /\ 49 <= c <= 57 /\ digit_list r.
Proof.
  destruct k as [| c r]; [discriminate |].
  rewrite is_array_index_cons; intros H; apply orb_true_iff in H as [H | H].
  - apply andb_true_iff in H as [H1 H2]; apply Z.eqb_eq in H1; subst c.
    destruct r; [left; reflexivity | discriminate].
  - right; apply andb_true_iff in H as [H _]; apply andb_true_iff in H as [H Hr].
    apply andb_true_iff in H as [H1 H2]; apply Z.leb_le in H1, H2.
    exists c, r; split; [reflexivity | split; [lia |]].
    apply Forall_forall; apply forallb_forall; exact Hr.
Qed.

Lemma lead_digit_bound (c : Z) (r : jsstr) :
  49 <= c <= 57 -> digit_list r ->
  10 ^ Z.of_nat (List.length r) <= digits_value (c :: r) < 10 ^ Z.of_nat (S (List.length r)).
Proof.
  intros Hc Hr; rewrite digits_value_cons, Nat2Z.inj_succ, Z.pow_succ_r by lia.
  pose proof (digits_value_bound r Hr); nia.
Qed.

Lemma index_inj (a b : jsstr) :
  is_array_index a = true -> is_array_index b = true -> digits_value a = digits_value b -> a = b.
Proof.
  intros Ha Hb Hv.
  assert (Hpos : forall c r, 49 <= c <= 57 -> digit_list r -> 0 < digits_value (c :: r)).
  { intros c r Hc Hr; pose proof (lead_digit_bound c r Hc Hr) as [H _].
    pose proof (Z.pow_pos_nonneg 10 (Z.of_nat (List.length r)) ltac:(lia) ltac:(lia)); lia. }
  destruct (index_form a Ha) as [-> | (c & r & -> & Hc & Hr)];
    destruct (index_form b Hb) as [-> | (c' & r' & -> & Hc' & Hr')].
  - reflexivity.
  - pose proof (Hpos c' r' Hc' Hr'); change (digits_value [48]) with 0 in Hv; lia.
  - pose proof (Hpos c r Hc Hr); change (digits_value [48]) with 0 in Hv; lia.
  - assert (Hl : List.length r = List.length r').
    { pose proof (lead_digit_bound c r Hc Hr); pose proof (lead_digit_bound c' r' Hc' Hr').
      destruct (Nat.lt_trichotomy (List.length r) (List.length r')) as [Hlt | [Heq | Hgt]];
        [| exact Heq |]; exfalso.
      - assert (10 ^ Z.of_nat (S (List.length r)) <= 10 ^ Z.of_nat (List.length r'))
          by (apply Z.pow_le_mono_r; lia).
        lia.
      - assert (10 ^ Z.of_nat (S (List.length r')) <= 10 ^ Z.of_nat (List.length r))
          by (apply Z.pow_le_mono_r; lia).
        lia. }
    apply digits_inj; [| | cbn; rewrite Hl; reflexivity | exact Hv];
      constructor; try assumption; unfold is_digit; apply andb_true_iff; split; apply Z.leb_le; lia.
Qed.

Lemma notin_obj_get (k : jsstr) (acc : list (jsstr * json)) :
  ~ In k (map fst acc) -> obj_get k acc = None.
Proof.
  induction acc as [| [k' v] acc IH]; cbn; [reflexivity |].
  intros Hn; destruct (jsstr_eqb k k') eqn:E.
  - apply jsstr_eqb_eq in E; subst; exfalso; apply Hn; left; reflexivity.
  - apply IH; intros H; apply Hn; right; exact H.
Qed.

Lemma FOP_app_single {A} (R : A -> A -> Prop) (l : list A) (x : A) :
  ForallOrdPairs R l -> Forall (fun p => R p x) l -> ForallOrdPairs R (l ++ [x]).
Proof.
  induction l as [| a l IH]; cbn; intros Hf Hx; [repeat constructor |].
  inversion Hf as [| ? ? Ha Hl]; inversion Hx as [| ? ? Hax Hlx]; subst.
  constructor; [apply Forall_app; split; [exact Ha | constructor; [exact Hax | constructor]] |].
  apply IH; assumption.
Qed.

Lemma FOP_app_inv {A} (R : A -> A -> Prop) (l r : list A) (x : A) :
  ForallOrdPairs R (l ++ x :: r) -> Forall (fun p => R p x) l.
Proof.
  induction l as [| a l IH]; cbn; intros Hf; [constructor |].
  inversion Hf as [| ? ? Ha Hl]; subst; constructor; [| apply IH; exact Hl].
  rewrite Forall_forall in Ha; apply Ha, in_or_app; right; left; reflexivity.
Qed.

Lemma obj_insert_index_end (k : jsstr) (v : json) (acc : list (jsstr * json)) :
  Forall (fun p => is_array_index (fst p) = true /\ digits_value (fst p) < digits_value k) acc ->
  obj_insert_index k v acc = acc ++ [(k, v)].
Proof.
  induction 1 as [| [k' v'] acc [H1 H2] _ IH]; cbn [obj_insert_index]; [reflexivity |].
  cbn [fst] in H1, H2; rewrite H1, (proj2 (Z.ltb_lt _ _) H2); cbn [andb]; rewrite IH; reflexivity.
Qed.


Lemma fold_set_ordered (L acc : list (jsstr * json)) :
  NoDup (map fst (acc ++ L)) -> ForallOrdPairs idx_before (acc ++ L) ->
  fold_left (fun acc '(k, y) => obj_set k y acc) L acc = acc ++ L.
Proof.
  revert acc; induction L as [| [k v] L IH]; intros acc Hnd Hf; cbn [fold_left];
    [rewrite app_nil_r; reflexivity |].
  assert (Eset : obj_set k v acc = acc ++ [(k, v)]).
  { unfold obj_set; rewrite notin_obj_get.
    2:{ rewrite map_app in Hnd; apply NoDup_remove_2 in Hnd; cbn in Hnd.
        intros H; apply Hnd, in_or_app; left; exact H. }
    destruct (is_array_index k) eqn:Ek; [| reflexivity].
    apply obj_insert_index_end; apply FOP_app_inv in Hf.
    refine (Forall_impl _ _ Hf); intros p Hp; apply Hp; exact Ek. }
  rewrite Eset, IH; [rewrite <- app_assoc; reflexivity | |]; rewrite <- app_assoc; assumption.
Qed.

Lemma obj_insert_index_ordered (k : jsstr) (v : json) (acc : list (jsstr * json)) :
  is_array_index k = true -> ~ In k (map fst acc) -> ForallOrdPairs idx_before acc ->
  ForallOrdPairs idx_before (obj_insert_index k v acc).
Proof.
  intros Hk; induction acc as [| [k' v'] acc IH]; intros Hn Hf; cbn [obj_insert_index];
    [repeat constructor |].
  inversion Hf as [| ? ? Ha Hl]; subst.
  destruct (is_array_index k' && (digits_value k' <? digits_value k)) eqn:C.
  - apply andb_true_iff in C as [C1 C2]; apply Z.ltb_lt in C2.
    constructor.
    + apply (Forall_perm _ ((k, v) :: acc)); [symmetry; apply obj_insert_index_perm |].
      constructor; [intros _; split; assumption | exact Ha].
    + apply IH; [intros H; apply Hn; right; exact H | exact Hl].
  - constructor; [| exact Hf].
    assert (Hkk : k <> k') by (intros ->; apply Hn; left; reflexivity).
    constructor.
    + intros Hk'; cbn [fst] in Hk' |- *; split; [exact Hk |].
      rewrite Hk' in C; cbn [andb] in C; apply Z.ltb_ge in C.
      destruct (Z.eq_dec (digits_value k') (digits_value k)) as [E | E]; [| lia].
      exfalso; apply Hkk; symmetry; apply index_inj; assumption.
    + refine (Forall_impl _ _ Ha); intros q Hq Hqi.
      destruct (Hq Hqi) as [Hk' Hlt]; cbn [fst] in Hk', Hlt |- *.
      rewrite Hk' in C; cbn [andb] in C; apply Z.ltb_ge in C.
      split; [exact Hk | lia].
Qed.

Lemma fold_set_result (L acc : list (jsstr * json)) :
  NoDup (map fst (acc ++ L)) -> ForallOrdPairs idx_before acc ->
  Permutation (fold_left (fun acc '(k, y) => obj_set k y acc) L acc) (acc ++ L) /\
  ForallOrdPairs idx_before (fold_left (fun acc '(k, y) => obj_set k y acc) L acc).
Proof.
  revert acc; induction L as [| [k v] L IH]; intros acc Hnd Hf; cbn [fold_left];
    [rewrite app_nil_r; split; [reflexivity | exact Hf] |].
  assert (Hn : ~ In k (map fst acc)).
  { rewrite map_app in Hnd; apply NoDup_remove_2 in Hnd; cbn in Hnd.
    intros H; apply Hnd, in_or_app; left; exact H. }
  assert (Hs : Permutation (obj_set k v acc) (acc ++ [(k, v)]) /\
               ForallOrdPairs idx_before (obj_set k v acc)).
  { unfold obj_set; rewrite notin_obj_get by exact Hn.
    destruct (is_array_index k) eqn:Ek.
    - split; [rewrite obj_insert_index_perm; apply Permutation_cons_append |].
      apply obj_insert_index_ordered; assumption.
    - split; [reflexivity |].
      apply FOP_app_single; [exact Hf |].
      apply Forall_forall; intros p _ H; cbn in H; congruence. }
  destruct Hs as [Hp Ho].
  assert (Hp' : Permutation (obj_set k v acc ++ L) (acc ++ (k, v) :: L))
    by (rewrite Hp, <- app_assoc; reflexivity).
  destruct (IH (obj_set k v acc)) as [H1 H2];
    [apply (Permutation_NoDup (Permutation_map fst (Permutation_sym Hp'))); exact Hnd | exact Ho |].
  split; [rewrite H1; exact Hp' | exact H2].
Qed.

Lemma fold_set_canonical (L : list (jsstr * json)) :
  NoDup (map fst L) ->
  let R := fold_left (fun acc '(k, y) => obj_set k y acc) L [] in
  Permutation R L /\ fold_left (fun acc '(k, y) => obj_set k y acc) R [] = R.
Proof.
  intros Hnd R; destruct (fold_set_result L [] Hnd (FOP_nil _)) as [Hp Ho].
  split; [exact Hp |].
  apply (fold_set_ordered R []); [| exact Ho].
  apply (Permutation_NoDup (Permutation_map fst (Permutation_sym Hp))); exact Hnd.
Qed.

Lemma canon_arr_intro (l : list json) : Forall canon l -> canon (JArr l).
Proof. induction 1 as [| x l Hx _ IH]; cbn; [exact I | split; [exact Hx | exact IH]]. Qed.

Lemma canon_obj_intro (fs : list (jsstr * json)) :
  fold_left (fun acc '(k, y) => obj_set k y acc) fs [] = fs ->
  Forall (fun kv => forallb unit_ok (fst kv) = true /\ canon (snd kv)) fs ->
  canon (JObj fs).
Proof.
  intros Hf HF; split; [exact Hf |]; clear Hf.
  induction HF as [| [k x] fs Hkx _ IH]; cbn; [exact I | split; [exact Hkx | exact IH]].
Qed.

Lemma plain_arr (l : list json) : plain_tree (JArr l) = true -> Forall (fun x => plain_tree x = true) l.
Proof. cbn [plain_tree]; intros H; apply Forall_forall, forallb_forall, H. Qed.

Lemma plain_obj (fs : list (jsstr * json)) :
  plain_tree (JObj fs) = true ->
  Forall (fun kv => forallb unit_ok (fst kv) = true /\ plain_tree (snd kv) = true) fs.
Proof.
  cbn [plain_tree]; intros H; apply Forall_forall; intros [k x] Hin.
  rewrite forallb_forall in H; specialize (H _ Hin); cbn in H.
  apply andb_true_iff in H as [H Hx]; apply andb_true_iff in H as [Hk _]; auto.
Qed.

Lemma arr_norm_forall (lc : jsstr -> jsstr -> comparison) (Q : json -> Prop) (l nl : list json) :
  map_result (normalizeJsonObject lc) l = Ok nl ->
  Forall (fun x => forall y, normalizeJsonObject lc x = Ok y -> Q y) l -> Forall Q nl.
Proof.
  intros H; apply map_result_ok in H.
  induction H as [| x y l nl Hxy _ IH]; intros HF; constructor; inversion HF; subst; auto.
Qed.

Lemma fields_norm_forall (lc : jsstr -> jsstr -> comparison) (Q : jsstr * json -> Prop)
  (fs nfs : list (jsstr * json)) :
  map_result (fun '(k, x) => y <- normalizeJsonObject lc x ;; Ok (k, y)) fs = Ok nfs ->
  Forall (fun kv => forall y, normalizeJsonObject lc (snd kv) = Ok y -> Q (fst kv, y)) fs ->
  Forall Q nfs.
Proof.
  intros H; apply map_result_ok in H.
  induction H as [| [k x] p fs nfs Hp _ IH]; intros HF; constructor; inversion HF as [| ? ? Hq Hr]; subst.
  - destruct (normalizeJsonObject lc x) as [y |] eqn:E; cbn in Hp; [| discriminate].
    injection Hp as <-; apply Hq; exact E.
  - apply IH; exact Hr.
Qed.

Lemma sort_by_key_perm (lc : jsstr -> jsstr -> comparison) (l l' : list json) :
  sort_by_key lc l = Ok l' -> Permutation l' l.
Proof.
  unfold sort_by_key; destruct l as [| a [| b r]]; try (intros H; injection H as <-; reflexivity).
  destruct (map_result _ _) as [ks |] eqn:Ek; cbn; [| discriminate].
  intros H; injection H as <-.
  apply map_result_ok in Ek.
  assert (Hs : map snd ks = a :: b :: r).
  { clear -Ek; induction Ek as [| x p l ks Hxp _ IH]; [reflexivity |].
    destruct (sort_key x) as [k |]; cbn in Hxp; [| discriminate].
    injection Hxp as <-; cbn; f_equal; exact IH. }
  rewrite <- Hs; apply Permutation_map, isort_perm.
Qed.

Lemma sort_fields_isort (l : list (jsstr * json)) : sort_fields l = isort jsstr_compare l.
Proof.
  assert (Hi : forall f l, insert_field f l = insert_by jsstr_compare f l).
  { intros f l0; induction l0 as [| g r IH]; cbn; [reflexivity |].
    destruct (jsstr_compare (fst f) (fst g)); [reflexivity | reflexivity | f_equal; exact IH]. }
  induction l as [| f r IH]; cbn; [reflexivity |].
  rewrite <- IH; apply Hi.
Qed.

Lemma jsstr_compare_eq (a b : jsstr) : jsstr_compare a b = Eq -> a = b.
Proof.
  revert b; induction a as [| x a IH]; destruct b as [| y b]; cbn; try discriminate; auto.
  destruct (Z.compare_spec x y); try discriminate; subst; intros H; f_equal; auto.
Qed.

Lemma NoDup_FOP_compare (l : list (jsstr * json)) :
  NoDup (map fst l) -> ForallOrdPairs (fun p q => jsstr_compare (fst p) (fst q) <> Eq) l.
Proof.
  induction l as [| p l IH]; cbn; intros H; constructor.
  - inversion H as [| ? ? Hn _]; subst.
    apply Forall_forall; intros q Hq E; apply jsstr_compare_eq in E.
    apply Hn; rewrite E; apply in_map, Hq.
  - apply IH; inversion H; assumption.
Qed.

Lemma isort_sorted_id (lc : jsstr -> jsstr -> comparison) (l : list (jsstr * json)) :
  Sorted (fun p q => lc (fst p) (fst q) <> Gt) l -> isort lc l = l.
Proof.
  induction l as [| x l IH]; intros H; [reflexivity |].
  inversion H as [| ? ? Hl Hd]; subst; cbn; rewrite IH by exact Hl.
  destruct l as [| y r]; [reflexivity |].
  inversion Hd as [| ? ? Hxy]; subst; cbn.
  destruct (lc (fst x) (fst y)); [reflexivity | reflexivity | contradiction].
Qed.

Lemma map_result_snd {A} (f : A -> result (jsstr * A)) (L : list (jsstr * A)) :
  Forall (fun p => f (snd p) = Ok p) L -> map_result f (map snd L) = Ok L.
Proof. induction 1 as [| p L Hp _ IH]; cbn; [reflexivity | rewrite Hp; cbn; rewrite IH; reflexivity]. Qed.

Lemma normalize_output_canon (lc : jsstr -> jsstr -> comparison) (p : json) :
  forall n, parsed_ok p -> plain_tree p = true -> normalizeJsonObject lc p = Ok n -> canon n.
Proof.
  induction p as [| b | num | str | l IH | fs IH] using json_ind'; intros n Hp Ht Hn;
    cbn [normalizeJsonObject] in Hn.
  - injection Hn as <-; exact I.
  - injection Hn as <-; exact I.
  - injection Hn as <-; destruct num; [exact Hp | discriminate | discriminate].
  - injection Hn as <-; exact Ht.
  - apply parsed_arr in Hp; apply plain_arr in Ht.
    destruct (map_result _ l) as [nl |] eqn:Em; cbn in Hn; [| discriminate].
    assert (Hc : Forall canon nl).
    { apply (arr_norm_forall lc _ l nl Em).
      rewrite Forall_forall in *; intros x Hx y Hy; apply (IH x Hx y (Hp x Hx) (Ht x Hx) Hy). }
    destruct (sort_by_id nl).
    + destruct (sort_by_key lc nl) as [sl |] eqn:Es; cbn in Hn; [| discriminate].
      injection Hn as <-; apply canon_arr_intro.
      apply (Forall_perm _ nl); [symmetry; apply (sort_by_key_perm lc); exact Es | exact Hc].
    + injection Hn as <-; apply canon_arr_intro, Hc.
  - apply parsed_obj in Hp as [Hnd Hp]; apply plain_obj in Ht.
    destruct (map_result _ fs) as [nfs |] eqn:Em; cbn in Hn; [| discriminate].
    injection Hn as <-.
    destruct (normalize_fields_keys lc fs nfs Em) as [Hk _].
    assert (Hc : Forall (fun kv => forallb unit_ok (fst kv) = true /\ canon (snd kv)) nfs).
    { apply (fields_norm_forall lc _ fs nfs Em).
      rewrite Forall_forall in *; intros [k x] Hx y Hy; cbn in *.
      destruct (Ht _ Hx) as [Hu Hpx]; split; [exact Hu |].
      apply (IH _ Hx y (Hp _ Hx) Hpx Hy). }
    assert (HndL : NoDup (map fst (sort_fields nfs))).
    { rewrite (Permutation_map fst (sort_fields_perm nfs)), Hk; exact Hnd. }
    destruct (fold_set_canonical (sort_fields nfs) HndL) as [Hperm Hfix].
    apply canon_obj_intro; [exact Hfix |].
    apply (Forall_perm _ nfs); [| exact Hc].
    rewrite Hperm; symmetry; apply sort_fields_perm.
Qed.

Lemma normalize_idem (lc : jsstr -> jsstr -> comparison)
  (Hanti : forall a b, lc b a = CompOpp (lc a b)) (x : json) :
  forall y, parsed_ok x -> normalizeJsonObject lc x = Ok y -> normalizeJsonObject lc y = Ok y.
Proof.
  induction x as [| b | num | str | l IH | fs IH] using json_ind'; intros y Hp Hn;
    cbn [normalizeJsonObject] in Hn; try (injection Hn as <-; reflexivity).
  - apply parsed_arr in Hp.
    destruct (map_result _ l) as [nl |] eqn:Em; cbn in Hn; [| discriminate].
    assert (Hfix : Forall (fun y => normalizeJsonObject lc y = Ok y) nl).
    { apply (arr_norm_forall lc _ l nl Em).
      rewrite Forall_forall in *; intros x Hx z Hz; apply (IH x Hx z (Hp x Hx) Hz). }
    assert (Hmap : forall l', Permutation l' nl -> map_result (normalizeJsonObject lc) l' = Ok l').
    { intros l' Hl'; apply map_result_ok.
      assert (HF : Forall (fun y => normalizeJsonObject lc y = Ok y) l')
        by (apply (Forall_perm _ nl); [symmetry; exact Hl' | exact Hfix]).
      clear -HF; induction HF; constructor; assumption. }
    destruct (sort_by_id nl) eqn:Eid.
    + destruct (sort_by_key lc nl) as [sl |] eqn:Es; cbn in Hn; [| discriminate].
      injection Hn as <-.
      cbn [normalizeJsonObject]; rewrite (Hmap sl (sort_by_key_perm lc nl sl Es)); cbn.
      destruct (sort_by_id sl); [| reflexivity].
      enough (E : sort_by_key lc sl = Ok sl) by (rewrite E; reflexivity).
      unfold sort_by_key in Es |- *.
      destruct nl as [| a [| b r]]; [injection Es as <-; reflexivity | injection Es as <-; reflexivity |].
      destruct (map_result _ (a :: b :: r)) as [ks |] eqn:Ek; cbn in Es; [| discriminate].
      injection Es as <-.
      apply map_result_ok in Ek.
      assert (Hks : Forall (fun p => (k <- sort_key (snd p) ;; Ok (k, snd p)) = Ok p) ks).
      { clear -Ek; induction Ek as [| x p l ks Hxp _ IH]; constructor; [| exact IH].
        destruct (sort_key x) as [k |] eqn:Ex; cbn in Hxp; [| discriminate].
        injection Hxp as <-; cbn; rewrite Ex; reflexivity. }
      assert (Hks' : Forall (fun p => (k <- sort_key (snd p) ;; Ok (k, snd p)) = Ok p) (isort lc ks))
        by (apply (Forall_perm _ ks); [symmetry; apply isort_perm | exact Hks]).
      assert (Hlen : (2 <= List.length (isort lc ks))%nat).
      { rewrite (Permutation_length (isort_perm lc ks)), <- (Forall2_length Ek); cbn; lia. }
      destruct (isort lc ks) as [| p1 [| p2 r2]] eqn:Eis; cbn in Hlen; [lia | lia |].
      rewrite (map_result_snd _ (p1 :: p2 :: r2) Hks'); cbn [bind].
      rewrite (isort_sorted_id lc (p1 :: p2 :: r2)); [reflexivity |].
      rewrite <- Eis; apply isort_sorted; exact Hanti.
    + injection Hn as <-; cbn [normalizeJsonObject]; rewrite (Hmap nl (Permutation_refl _)); cbn.
      rewrite Eid; reflexivity.
  - apply parsed_obj in Hp as [Hnd Hp].
    destruct (map_result _ fs) as [nfs |] eqn:Em; cbn in Hn; [| discriminate].
    injection Hn as <-.
    destruct (normalize_fields_keys lc fs nfs Em) as [Hk _].
    assert (Hfix : Forall (fun kv => normalizeJsonObject lc (snd kv) = Ok (snd kv)) nfs).
    { apply (fields_norm_forall lc _ fs nfs Em).
      rewrite Forall_forall in *; intros [k x] Hx z Hz; cbn in *.
      apply (IH _ Hx z (Hp _ Hx) Hz). }
    set (R := fold_left (fun acc '(k, y) => obj_set k y acc) (sort_fields nfs) []).
    assert (HndL : NoDup (map fst (sort_fields nfs))).
    { rewrite (Permutation_map fst (sort_fields_perm nfs)), Hk; exact Hnd. }
    destruct (fold_set_canonical (sort_fields nfs) HndL) as [Hperm _]; fold R in Hperm.
    assert (HpR : Permutation R nfs) by (rewrite Hperm; apply sort_fields_perm).
    cbn [normalizeJsonObject].
    assert (Hm : map_result (fun '(k, x) => y <- normalizeJsonObject lc x ;; Ok (k, y)) R = Ok R).
    { apply map_result_ok.
      assert (HF : Forall (fun kv => normalizeJsonObject lc (snd kv) = Ok (snd kv)) R)
        by (apply (Forall_perm _ nfs); [symmetry; exact HpR | exact Hfix]).
      clear -HF; induction HF as [| [k x] R Hx _ IH]; constructor; [| exact IH].
      cbn in Hx; rewrite Hx; reflexivity. }
    rewrite Hm; cbn; do 2 f_equal.
    unfold R at 2; f_equal.
    rewrite !sort_fields_isort.
    apply (isort_unique jsstr_compare jsstr_compare_antisym jsstr_compare_trans).
    + apply NoDup_FOP_compare; rewrite (Permutation_map fst HpR), Hk; exact Hnd.
    + exact HpR.
Qed.

Lemma normalize_text_stringify (lc : jsstr -> jsstr -> comparison)
  (Hanti : forall a b, lc b a = CompOpp (lc a b)) (t : jsstr) (n : json) :
  (forall p, JSON_parse t = Ok p -> plain_tree p = true) ->
  normalize_text lc t = Ok n ->
  normalized (normalizeJson lc (JSON_stringify n)) = JSON_stringify n.
Proof.
  unfold normalize_text; intros Hpl Hn.
  destruct (JSON_parse t) as [p |] eqn:Ep; cbn [bind] in Hn; [| discriminate].
  pose proof (JSON_parse_parsed_ok t p Ep) as Hpo.
  pose proof (normalize_output_canon lc p n Hpo (Hpl p eq_refl) Hn) as Hc.
  assert (Hid : normalize_text lc (trim (JSON_stringify n)) = Ok n).
  { unfold normalize_text, JSON_stringify; rewrite trim_stringify, JSON_parse_stringify by exact Hc.
    exact (normalize_idem lc Hanti p n Hpo Hn). }
  unfold normalizeJson; rewrite Hid; reflexivity.
Qed.

(** C4 (amended). When every value parsed from the input has no number
    that overflows to an infinity and no key ["__proto__"], and the key
    comparison is antisymmetric, [normalizeJson] is idempotent: normalising
    its [normalized] output again gives the same string. *)
Theorem normalizeJson_idempotent (lc : jsstr -> jsstr -> comparison)
  (Hanti : forall a b, lc b a = CompOpp (lc a b)) (s : jsstr) :
  (forall p, JSON_parse (trim s) = Ok p \/ JSON_parse (extractJsonFromMarkdown s) = Ok p ->
             plain_tree p = true) ->
  normalized (normalizeJson lc (normalized (normalizeJson lc s))) = normalized (normalizeJson lc s).
Proof.
  intros Hpl.
  destruct (normalize_text lc (trim s)) as [n |] eqn:E1.
  - assert (H : normalized (normalizeJson lc s) = JSON_stringify n)
      by (unfold normalizeJson; rewrite E1; reflexivity).
    rewrite H; apply (normalize_text_stringify lc Hanti (trim s) n); [| exact E1].
    intros p Hp; apply Hpl; left; exact Hp.
  - destruct (normalize_text lc (extractJsonFromMarkdown s)) as [n |] eqn:E2.
    + assert (H : normalized (normalizeJson lc s) = JSON_stringify n)
        by (unfold normalizeJson; rewrite E1, E2; reflexivity).
      rewrite H; apply (normalize_text_stringify lc Hanti (extractJsonFromMarkdown s) n); [| exact E2].
      intros p Hp; apply Hpl; right; exact Hp.
    + assert (H : normalized (normalizeJson lc s) = s)
        by (unfold normalizeJson; rewrite E1, E2; reflexivity).
      rewrite H; exact H.
Qed.

Lemma normalizeJson_idempotent_witness :
  normalized (normalizeJson jsstr_compare
    (normalized (normalizeJson jsstr_compare (jsq " {'b':1,'a':[{'id':2},{'id':1}]} "))))
  = normalized (normalizeJson jsstr_compare (jsq " {'b':1,'a':[{'id':2},{'id':1}]} ")).
Proof.
  apply (normalizeJson_idempotent jsstr_compare jsstr_compare_antisym).
  intros p [H | H]; vm_compute in H; injection H as <-; vm_compute; reflexivity.
Defined.

End Roundtrip.

(** * Further properties *)

Section Extras.
Local Open Scope nat_scope.

Lemma firstn_S_nth {A} (l : list A) (k : nat) (d : A) :
  S k <= List.length l -> firstn (S k) l = firstn k l ++ [nth k l d].
Proof.
  revert k; induction l as [| x l IH]; intros k Hk; cbn in Hk; [lia |].
  destruct k as [| k]; [reflexivity |].
  change (x :: firstn (S k) l = (x :: firstn k l) ++ [nth k l d]).
  rewrite (IH k) by lia; reflexivity.
Qed.

Lemma edit_table_equal (eqt sim : jsstr -> jsstr -> bool) (g o : list jsstr) (i j : nat) :
  snd (edit_table eqt sim g o (S i) (S j)) = EQUAL -> eqt (gw g i) (ow o j) = true.
Proof.
  cbn; destruct (eqt (gw g i) (ow o j)); [reflexivity |].
  cbn; destruct (Qeq_bool _ _); [discriminate |]; destruct (Qeq_bool _ _); discriminate.
Qed.

Lemma edit_table_diag (eqt sim : jsstr -> jsstr -> bool) (g o : list jsstr) (i : nat) :
  eqt (gw g i) (ow o i) = true -> snd (edit_table eqt sim g o (S i) (S i)) = EQUAL.
Proof. cbn; intros ->; reflexivity. Qed.

Lemma word_back_sides (g o : list jsstr) :
  forall fuel i j parts, i + j <= fuel -> i <= List.length g -> j <= List.length o ->
  word_golden_side (word_back g o fuel i j parts) = firstn i g ++ word_golden_side parts /\
  word_output_side (word_back g o fuel i j parts) = firstn j o ++ word_output_side parts.
Proof.
  induction fuel as [| f IH]; intros i j parts Hle Hi Hj.
  - assert (i = 0 /\ j = 0) as [-> ->] by lia; split; reflexivity.
  - cbn [word_back].
    destruct ((0 <? i) || (0 <? j)) eqn:Eij.
    2: { apply orb_false_iff in Eij as [Ei Ej]; apply Nat.ltb_ge in Ei, Ej.
         assert (i = 0 /\ j = 0) as [-> ->] by lia; split; reflexivity. }
    assert (Hij : 0 < i \/ 0 < j).
    { apply orb_true_iff in Eij as [H | H]; apply Nat.ltb_lt in H; auto. }
    pose proof (edit_table_border jsstr_eqb word_similar g o i j Hij) as Hb.
    destruct (snd (edit_table jsstr_eqb word_similar g o i j)) eqn:Eop.
    + destruct i as [| i']; [lia |]; destruct j as [| j']; [lia |].
      apply edit_table_equal, jsstr_eqb_eq in Eop.
      cbn [Nat.sub]; rewrite !Nat.sub_0_r.
      edestruct (IH i' j') as [H1 H2]; try lia.
      rewrite H1, H2.
      rewrite (firstn_S_nth g i' []) by lia; rewrite (firstn_S_nth o j' []) by lia; cbn.
      unfold gw, ow in *; rewrite Eop, <- !app_assoc; split; reflexivity.
    + destruct i as [| i']; [lia |].
      cbn [Nat.sub]; rewrite !Nat.sub_0_r.
      edestruct (IH i' j) as [H1 H2]; try lia.
      rewrite H1, H2.
      rewrite (firstn_S_nth g i' []) by lia; cbn; unfold gw; rewrite <- !app_assoc; split; reflexivity.
    + destruct j as [| j']; [lia |].
      cbn [Nat.sub]; rewrite !Nat.sub_0_r.
      edestruct (IH i j') as [H1 H2]; try lia.
      rewrite H1, H2.
      rewrite (firstn_S_nth o j' []) by lia; cbn; unfold ow; rewrite <- !app_assoc; split; reflexivity.
    + destruct i as [| i']; [lia |]; destruct j as [| j']; [lia |].
      cbn [Nat.sub]; rewrite !Nat.sub_0_r.
      edestruct (IH i' j') as [H1 H2]; try lia.
      rewrite H1, H2.
      rewrite (firstn_S_nth g i' []) by lia; rewrite (firstn_S_nth o j' []) by lia; cbn.
      unfold gw, ow; rewrite <- !app_assoc; split; reflexivity.
Qed.

(** [computeWordDiff] loses no word: the golden words of its parts (equal,
    deleted, and the golden side of a replacement) are exactly the golden
    words, and the output words of its parts are exactly the output words. *)
Theorem computeWordDiff_sides (g o : list jsstr) :
  word_golden_side (computeWordDiff g o) = g /\ word_output_side (computeWordDiff g o) = o.
Proof.
  unfold computeWordDiff.
  destruct (word_back_sides g o _ (List.length g) (List.length o) [] (Nat.le_refl _)
              (Nat.le_refl _) (Nat.le_refl _)) as [H1 H2].
  rewrite H1, H2, !firstn_all; cbn; rewrite !app_nil_r; split; reflexivity.
Qed.

Lemma line_back_sides (g o : list jsstr) :
  forall fuel i j parts, i + j <= fuel -> i <= List.length g -> j <= List.length o ->
  let ps := line_back g o fuel i j parts in
  line_golden_side ps = firstn i g ++ line_golden_side parts /\
  (Forall2 (fun a b => trim a = trim b) (line_output_side parts) (skipn j o) ->
   Forall2 (fun a b => trim a = trim b) (line_output_side ps) o) /\
  count_lop REPLACE ps = count_lop REPLACE parts.
Proof.
  induction fuel as [| f IH]; intros i j parts Hle Hi Hj; cbv zeta.
  - assert (i = 0 /\ j = 0) as [-> ->] by lia; repeat split; auto.
  - cbn [line_back].
    destruct ((0 <? i) || (0 <? j)) eqn:Eij.
    2: { apply orb_false_iff in Eij as [Ei Ej]; apply Nat.ltb_ge in Ei, Ej.
         assert (i = 0 /\ j = 0) as [-> ->] by lia; repeat split; auto. }
    assert (Hij : 0 < i \/ 0 < j).
    { apply orb_true_iff in Eij as [H | H]; apply Nat.ltb_lt in H; auto. }
    pose proof (edit_table_border line_eq line_similar g o i j Hij) as Hb.
    assert (Hsk : forall j', S j' <= List.length o ->
              skipn j' o = nth j' o [] :: skipn (S j') o).
    { clear; intros j'; revert o; induction j' as [| j' IHj]; intros [| x o] Hl; cbn in *;
        try lia; [reflexivity | apply IHj; lia]. }
    destruct (snd (edit_table line_eq line_similar g o i j)) eqn:Eop.
    + destruct i as [| i']; [lia |]; destruct j as [| j']; [lia |].
      apply edit_table_equal in Eop; unfold line_eq in Eop; apply jsstr_eqb_eq in Eop.
      cbn [Nat.sub]; rewrite !Nat.sub_0_r.
      edestruct (IH i' j') as (H1 & H2 & H3); try lia.
      rewrite H1, H3.
      rewrite (firstn_S_nth g i' []) by lia; cbn; unfold gw; rewrite <- !app_assoc.
      split; [reflexivity |]; split; [| reflexivity].
      intros HF; apply H2; cbn; rewrite (Hsk j') by lia; constructor; [exact Eop | exact HF].
    + destruct i as [| i']; [lia |].
      cbn [Nat.sub]; rewrite !Nat.sub_0_r.
      edestruct (IH i' j) as (H1 & H2 & H3); try lia.
      rewrite H1, H3.
      rewrite (firstn_S_nth g i' []) by lia; cbn; unfold gw; rewrite <- !app_assoc.
      split; [reflexivity |]; split; [| reflexivity].
      intros HF; apply H2; exact HF.
    + destruct j as [| j']; [lia |].
      cbn [Nat.sub]; rewrite !Nat.sub_0_r.
      edestruct (IH i j') as (H1 & H2 & H3); try lia.
      rewrite H1, H3; cbn.
      split; [reflexivity |]; split; [| reflexivity].
      intros HF; apply H2; cbn; rewrite (Hsk j') by lia; constructor; [reflexivity | exact HF].
    + destruct i as [| i']; [lia |]; destruct j as [| j']; [lia |].
      cbn [Nat.sub]; rewrite !Nat.sub_0_r.
      edestruct (IH i' j') as (H1 & H2 & H3); try lia.
      rewrite H1, H3.
      rewrite (firstn_S_nth g i' []) by lia; cbn; unfold gw; rewrite <- !app_assoc.
      split; [reflexivity |]; split; [| reflexivity].
      intros HF; apply H2; cbn; rewrite (Hsk j') by lia; constructor; [reflexivity | exact HF].
Qed.

Lemma computeLineDiff_sides_aux (g o : list jsstr) :
  let ps := computeLineDiff g o in
  line_golden_side ps = g /\
  Forall2 (fun a b => trim a = trim b) (line_output_side ps) o /\
  count_lop REPLACE ps = 0.
Proof.
  cbv zeta; unfold computeLineDiff.
  destruct (line_back_sides g o _ (List.length g) (List.length o) [] (Nat.le_refl _)
              (Nat.le_refl _) (Nat.le_refl _)) as (H1 & H2 & H3).
  rewrite H1, firstn_all, app_nil_r, H3; split; [reflexivity |]; split; [| reflexivity].
  apply H2; cbn; rewrite skipn_all; constructor.
Qed.

(** [computeLineDiff] loses no line: the golden lines of its rows (equal
    and deleted) are exactly the golden lines; its output rows (equal and
    inserted) match the output lines one for one up to surrounding white
    space; and it never emits a REPLACE row. *)
Theorem computeLineDiff_sides (g o : list jsstr) :
  let ps := computeLineDiff g o in
  line_golden_side ps = g /\
  Forall2 (fun a b => trim a = trim b) (line_output_side ps) o /\
  count_lop REPLACE ps = 0.
Proof. exact (computeLineDiff_sides_aux g o). Qed.

Lemma word_back_self (g : list jsstr) :
  forall fuel i parts, i + i <= fuel -> i <= List.length g ->
  word_back g g fuel i i parts = map equal_part (firstn i g) ++ parts.
Proof.
  induction fuel as [| f IH]; intros i parts Hle Hi.
  - assert (i = 0) as -> by lia; reflexivity.
  - cbn [word_back]; destruct i as [| i']; [reflexivity |].
    cbn [Nat.ltb Nat.leb orb].
    rewrite (edit_table_diag jsstr_eqb word_similar g g i') by (unfold gw, ow; apply jsstr_eqb_refl).
    cbn [Nat.sub]; rewrite Nat.sub_0_r.
    destruct i' as [| i''].
    + destruct f as [| f]; [lia |]; cbn.
      destruct g as [| w g]; [cbn in Hi; lia | reflexivity].
    + rewrite IH by lia.
      rewrite (firstn_S_nth g (S i'') []) by lia; rewrite map_app, <- app_assoc; reflexivity.
Qed.

Lemma computeWordDiff_self (g : list jsstr) : computeWordDiff g g = map equal_part g.
Proof.
  unfold computeWordDiff; rewrite word_back_self by lia.
  rewrite firstn_all, app_nil_r; reflexivity.
Qed.

Lemma count_op_equal_parts (o : DiffOperation) (l : list jsstr) :
  count_op o (map equal_part l) = if diffop_eqb EQUAL o then List.length l else 0.
Proof.
  induction l as [| w l IH]; [destruct o; reflexivity |].
  cbn [map]; rewrite count_op_cons, IH; destruct o; reflexivity.
Qed.

Lemma cost_equal_parts (l : list jsstr) :
  (fold_left (fun acc p => acc + op_cost p)%Q (map equal_part l) 0%Q == 0)%Q.
Proof.
  rewrite fold_left_Qsum.
  assert (H : (fold_right (fun x acc => op_cost x + acc) 0 (map equal_part l) == 0)%Q).
  { induction l as [| w l IH]; [reflexivity |].
    cbn [map fold_right]; rewrite IH; reflexivity. }
  rewrite H; reflexivity.
Qed.

Lemma calculateDiff_self_aux (t : jsstr) :
  let r := calculateDiff t t in
  (diffScore r == 0)%Q /\ (similarity r == 1)%Q /\ levenshtein r = 0 /\
  changes r = {| added := 0; removed := 0; modified := 0 |}.
Proof.
  unfold calculateDiff, calculateStats; rewrite computeWordDiff_self.
  rewrite !count_op_equal_parts; cbn [diffop_eqb diffScore similarity levenshtein changes
    st_diffScore st_levenshteinDistance st_changes].
  rewrite Nat.add_0_l.
  destruct (List.length (tokenize t) =? 0) eqn:E.
  - split; [reflexivity | split; [reflexivity | split; reflexivity]].
  - rewrite cost_equal_parts; split; [| split; [| split; reflexivity]].
    + unfold Qdiv; ring.
    + unfold Qdiv; ring.
Qed.

(** [calculateDiff] of a text with itself: difference 0, similarity 1,
    Levenshtein distance 0 and no change counted. *)
Theorem calculateDiff_self (t : jsstr) :
  let r := calculateDiff t t in
  (diffScore r == 0)%Q /\ (similarity r == 1)%Q /\ levenshtein r = 0 /\
  changes r = {| added := 0; removed := 0; modified := 0 |}.
Proof. exact (calculateDiff_self_aux t). Qed.

Lemma line_back_self (g : list jsstr) :
  forall fuel i parts, i + i <= fuel -> i <= List.length g ->
  line_back g g fuel i i parts
  = map (fun k => equal_line (S k) (nth k g [])) (seq 0 i) ++ parts.
Proof.
  induction fuel as [| f IH]; intros i parts Hle Hi.
  - assert (i = 0) as -> by lia; reflexivity.
  - cbn [line_back]; destruct i as [| i']; [reflexivity |].
    cbn [Nat.ltb Nat.leb orb].
    rewrite (edit_table_diag line_eq line_similar g g i') by (unfold line_eq; apply jsstr_eqb_refl).
    cbn [Nat.sub]; rewrite Nat.sub_0_r.
    destruct i' as [| i''].
    + destruct f as [| f]; [lia |]; reflexivity.
    + rewrite IH by lia.
      rewrite (seq_S (S i'')), map_app, <- app_assoc; reflexivity.
Qed.

Lemma count_lop_equal_lines (o : DiffOperation) (g : list jsstr) (ks : list nat) :
  count_lop o (map (fun k => equal_line (S k) (nth k g [])) ks)
  = if diffop_eqb EQUAL o then List.length ks else 0.
Proof.
  unfold count_lop; induction ks as [| k ks IH]; [destruct o; reflexivity |].
  cbn [map filter]; destruct o; cbn in *; rewrite ?IH; reflexivity.
Qed.

(** [calculateLineDiff] of a text with itself: difference 0, similarity 1
    and no change counted. *)
Theorem calculateLineDiff_self (t : jsstr) :
  let r := calculateLineDiff t t in
  (l_diffScore r == 0)%Q /\ (l_similarity r == 1)%Q /\
  l_changes r = {| added := 0; removed := 0; modified := 0 |}.
Proof.
  unfold calculateLineDiff, calculateLineStats, computeLineDiff.
  rewrite line_back_self by lia; rewrite app_nil_r.
  rewrite !count_lop_equal_lines; cbn [diffop_eqb l_diffScore l_similarity l_changes
    ls_diffScore ls_changes].
  rewrite !Nat.add_0_l; destruct (List.length (seq 0 (List.length (split_lines t))) =? 0).
  - split; [reflexivity | split; reflexivity].
  - cbn [Z.of_nat]; split; [| split; [| reflexivity]]; unfold Qdiv; ring.
Qed.

Lemma split_lines_nonempty (s : jsstr) : split_lines s <> [].
Proof.
  destruct s as [| c r]; cbn; [discriminate |].
  destruct (c =? 10)%Z; [discriminate |]; destruct (split_lines r); discriminate.
Qed.

Lemma split_lines_join_aux (s : jsstr) :
  join_lines (split_lines s) = s /\
  List.length (split_lines s) = S (List.length (filter (fun c => c =? 10)%Z s)) /\
  Forall (fun l => ~ In 10%Z l) (split_lines s).
Proof.
  induction s as [| c r [IHj [IHl IHn]]].
  { split; [reflexivity | split; [reflexivity |]]; constructor; [intros [] | constructor]. }
  cbn [split_lines filter]; destruct (c =? 10)%Z eqn:E.
  - apply Z.eqb_eq in E; subst c; split; [| split; [cbn; rewrite IHl; reflexivity |]].
    + destruct (split_lines r) as [| l ls] eqn:Es; [exfalso; exact (split_lines_nonempty r Es) |].
      cbn [join_lines]; rewrite <- IHj; destruct ls; reflexivity.
    + constructor; [intros [] | exact IHn].
  - destruct (split_lines r) as [| l ls] eqn:Es; [exfalso; exact (split_lines_nonempty r Es) |].
    split; [| split; [exact IHl |]].
    + rewrite <- IHj; destruct ls; reflexivity.
    + inversion IHn as [| ? ? Hl Hls]; subst; constructor; [| exact Hls].
      intros [H | H]; [subst c; discriminate E | exact (Hl H)].
Qed.

(** [split('\n')] and [join('\n')] are inverse: joining the lines gives the
    text back; there is one line more than there are newlines, and no line
    holds a newline. *)
Theorem split_lines_join (s : jsstr) :
  join_lines (split_lines s) = s /\
  List.length (split_lines s) = S (List.length (filter (fun c => c =? 10)%Z s)) /\
  Forall (fun l => ~ In 10%Z l) (split_lines s).
Proof. exact (split_lines_join_aux s). Qed.

(** The golden side of the line diff, joined with newlines, is exactly the
    golden text. *)
Theorem calculateLineDiff_golden_rows (golden output : jsstr) :
  join_lines (line_golden_side (computeLineDiff (split_lines golden) (split_lines output))) = golden.
Proof.
  destruct (computeLineDiff_sides_aux (split_lines golden) (split_lines output)) as (H & _ & _).
  rewrite H; apply split_lines_join_aux.
Qed.

Lemma tok_words (s cur : jsstr) :
  forallb (fun c => negb (is_js_ws c)) cur = true ->
  Forall (fun w => w <> [] /\ forallb (fun c => negb (is_js_ws c)) w = true) (tok s cur).
Proof.
  revert cur; induction s as [| c r IH]; intros cur Hc; cbn [tok].
  - destruct cur as [| x cur']; constructor; [| constructor].
    split; [cbn [rev]; intros Hn; destruct (app_eq_nil _ _ Hn) as [_ Hx]; discriminate Hx |].
    rewrite forallb_forall in *; intros y Hy; apply Hc; apply in_rev; exact Hy.
  - destruct (is_js_ws c) eqn:Ew.
    + destruct cur as [| x cur']; [apply IH; reflexivity |].
      constructor; [| apply IH; reflexivity].
      split; [cbn [rev]; intros Hn; destruct (app_eq_nil _ _ Hn) as [_ Hx]; discriminate Hx |].
      rewrite forallb_forall in *; intros y Hy; apply Hc; apply in_rev; exact Hy.
    + apply IH; cbn; rewrite Ew, Hc; reflexivity.
Qed.

Lemma filter_drop_ws (l : jsstr) :
  filter (fun c => negb (is_js_ws c)) (drop_ws l) = filter (fun c => negb (is_js_ws c)) l.
Proof.
  induction l as [| c r IH]; [reflexivity |].
  cbn [drop_ws]; destruct (is_js_ws c) eqn:E; [| reflexivity].
  rewrite IH; cbn [filter]; rewrite E; reflexivity.
Qed.

Lemma filter_trim (l : jsstr) :
  filter (fun c => negb (is_js_ws c)) (trim l) = filter (fun c => negb (is_js_ws c)) l.
Proof.
  unfold trim; rewrite filter_rev, filter_drop_ws, filter_rev, filter_drop_ws.
  apply rev_involutive.
Qed.

Lemma concat_tok (s cur : jsstr) :
  List.concat (tok s cur) = rev cur ++ filter (fun c => negb (is_js_ws c)) s.
Proof.
  revert cur; induction s as [| c r IH]; intros cur; cbn [tok filter].
  - destruct cur; cbn [List.concat]; rewrite !app_nil_r; reflexivity.
  - destruct (is_js_ws c) eqn:E; cbn [negb].
    + destruct cur as [| x cur']; [apply IH |].
      cbn [List.concat]; rewrite IH; reflexivity.
    + rewrite IH; cbn [rev]; rewrite <- app_assoc; reflexivity.
Qed.

(** [tokenize] returns only non-empty words without any white space, and
    the words, put back together, are the text with its white space
    removed: nothing else is lost or reordered. *)
Theorem tokenize_words (t : jsstr) :
  Forall (fun w => w <> [] /\ forallb (fun c => negb (is_js_ws c)) w = true) (tokenize t) /\
  List.concat (tokenize t) = filter (fun c => negb (is_js_ws c)) t.
Proof.
  split; [apply tok_words; reflexivity |].
  unfold tokenize; rewrite concat_tok, filter_trim; reflexivity.
Qed.

Lemma drop_ws_fix (l : jsstr) :
  drop_ws l = l <-> match l with [] => True | c :: _ => is_js_ws c = false end.
Proof.
  destruct l as [| c r]; cbn; [tauto |].
  destruct (is_js_ws c) eqn:E; [| tauto].
  split; [| discriminate]; intros H.
  assert (Hl := f_equal (@List.length Z) H); cbn in Hl.
  assert (Hle : (List.length (drop_ws r) <= List.length r)%nat).
  { clear; induction r as [| d r IH]; cbn; [lia |]; destruct (is_js_ws d); cbn; lia. }
  lia.
Qed.

Lemma drop_ws_suffix (l : jsstr) : exists w, l = w ++ drop_ws l.
Proof.
  induction l as [| c r [w Hw]]; [exists []; reflexivity |].
  cbn; destruct (is_js_ws c); [exists (c :: w); cbn; f_equal; exact Hw | exists []; reflexivity].
Qed.

Lemma drop_ws_head (l : jsstr) : drop_ws (drop_ws l) = drop_ws l.
Proof.
  apply drop_ws_fix; induction l as [| c r IH]; cbn; [exact I |].
  destruct (is_js_ws c) eqn:E; [exact IH | exact E].
Qed.

Lemma trim_edges (s : jsstr) :
  drop_ws (trim s) = trim s /\ drop_ws (rev (trim s)) = rev (trim s).
Proof.
  unfold trim; rewrite rev_involutive; split; [| apply drop_ws_head].
  set (t := drop_ws s); set (u := drop_ws (rev t)).
  destruct (drop_ws_suffix (rev t)) as [w Hw]; fold u in Hw.
  assert (Ht : t = rev u ++ rev w) by (rewrite <- rev_app_distr, <- Hw, rev_involutive; reflexivity).
  assert (Hth : drop_ws t = t) by apply drop_ws_head.
  apply drop_ws_fix; apply drop_ws_fix in Hth.
  destruct (rev u) as [| c r]; [exact I |]; rewrite Ht in Hth; exact Hth.
Qed.

Lemma trim_fixed (u : jsstr) : drop_ws u = u -> drop_ws (rev u) = rev u -> trim u = u.
Proof. intros H1 H2; unfold trim; rewrite H1, H2; apply rev_involutive. Qed.

Lemma trim_idem (s : jsstr) : trim (trim s) = trim s.
Proof. destruct (trim_edges s) as [H1 H2]; apply trim_fixed; assumption. Qed.

(** The result of [extractJsonFromMarkdown] neither starts nor ends with
    white space. *)
Theorem extractJsonFromMarkdown_trimmed (str : jsstr) :
  let e := extractJsonFromMarkdown str in
  match e with [] => True | c :: _ => is_js_ws c = false /\ is_js_ws (last e 0%Z) = false end.
Proof.
  cbv zeta.
  assert (Hx : exists t, extractJsonFromMarkdown str = trim t).
  { unfold extractJsonFromMarkdown; destruct (_ && _); eexists; reflexivity. }
  destruct Hx as [t ->].
  destruct (trim_edges t) as [H1 H2].
  apply drop_ws_fix in H1; apply drop_ws_fix in H2.
  destruct (trim t) as [| c r] eqn:E; [exact I |]; split; [exact H1 |].
  rewrite <- E in H2 |- *.
  destruct (rev (trim t)) as [| d q] eqn:Er; [rewrite E in Er; cbn in Er; destruct (app_eq_nil _ _ Er); discriminate |].
  replace (last (trim t) 0%Z) with d; [exact H2 |].
  rewrite <- (rev_involutive (trim t)), Er; cbn; rewrite last_last; reflexivity.
Qed.

Lemma lev_d_SS (s1 s2 : jsstr) (i j : nat) :
  lev_d s1 s2 (S i) (S j)
  = if (nth i s1 0 =? nth j s2 0)%Z then lev_d s1 s2 i j
    else S (Nat.min (Nat.min (lev_d s1 s2 i (S j)) (lev_d s1 s2 (S i) j)) (lev_d s1 s2 i j)).
Proof. reflexivity. Qed.

Lemma lev_d_S0 (s1 s2 : jsstr) (i : nat) : lev_d s1 s2 i 0 = i.
Proof. destruct i; reflexivity. Qed.

Lemma skipn_nth_cons {A} (l : list A) (j : nat) (d : A) :
  j < List.length l -> skipn j l = nth j l d :: skipn (S j) l.
Proof.
  revert l; induction j as [| j IH]; intros [| x l] Hl; cbn in *; try lia; [reflexivity |].
  apply IH; lia.
Qed.

Lemma lev_row_spec (s1 s2 : jsstr) (i : nat) :
  forall k j, j + k = List.length s2 ->
  lev_row (nth i s1 0%Z) (skipn j s2) (lev_d s1 s2 i j) (map (lev_d s1 s2 i) (seq (S j) k))
          (lev_d s1 s2 (S i) j)
  = map (lev_d s1 s2 (S i)) (seq (S j) k).
Proof.
  induction k as [| k IH]; intros j Hjk.
  - replace (skipn j s2) with (@nil Z); [reflexivity |].
    symmetry; apply skipn_all2; lia.
  - rewrite (skipn_nth_cons s2 j 0%Z) by lia.
    cbn [seq map lev_row].
    rewrite <- (lev_d_SS s1 s2 i j).
    f_equal; apply IH; lia.
Qed.

Lemma lev_rows_spec (s1 s2 : jsstr) :
  forall k i, i + k = List.length s1 ->
  lev_rows (skipn i s1) s2 i (map (lev_d s1 s2 i) (seq 0 (S (List.length s2))))
  = map (lev_d s1 s2 (List.length s1)) (seq 0 (S (List.length s2))).
Proof.
  induction k as [| k IH]; intros i Hik.
  - replace (skipn i s1) with (@nil Z) by (symmetry; apply skipn_all2; lia).
    replace i with (List.length s1) by lia; reflexivity.
  - rewrite (skipn_nth_cons s1 i 0%Z) by lia.
    cbn [lev_rows seq map hd tl].
    pose proof (lev_row_spec s1 s2 i (List.length s2) 0 ltac:(lia)) as Hr.
    cbn [skipn] in Hr; rewrite (lev_d_S0 s1 s2 (S i)) in Hr; rewrite Hr.
    transitivity (lev_rows (skipn (S i) s1) s2 (S i)
                    (map (lev_d s1 s2 (S i)) (seq 0 (S (List.length s2))))); [reflexivity |].
    rewrite IH by lia; reflexivity.
Qed.

Lemma levenshtein_lev_d (s1 s2 : jsstr) :
  levenshteinDistance s1 s2 = lev_d s1 s2 (List.length s1) (List.length s2).
Proof.
  unfold levenshteinDistance.
  assert (H0 : seq 0 (S (List.length s2)) = map (lev_d s1 s2 0) (seq 0 (S (List.length s2))))
    by (symmetry; apply map_id).
  rewrite H0.
  change s1 with (skipn 0 s1) at 1.
  rewrite (lev_rows_spec s1 s2 (List.length s1) 0) by lia.
  rewrite seq_S, map_app; cbn [map]; rewrite last_last; reflexivity.
Qed.

Lemma lev_d_diag (s : jsstr) (i : nat) : lev_d s s i i = 0.
Proof. induction i as [| i IH]; [reflexivity |]; rewrite lev_d_SS, Z.eqb_refl; exact IH. Qed.

Lemma lev_d_max (s1 s2 : jsstr) (i j : nat) : lev_d s1 s2 i j <= Nat.max i j.
Proof.
  revert j; induction i as [| i IH]; intros j; [cbn; lia |].
  induction j as [| j IHj]; [rewrite lev_d_S0; lia |].
  rewrite lev_d_SS; destruct (_ =? _)%Z; [specialize (IH j); lia |].
  specialize (IH j); lia.
Qed.

Lemma lev_d_sym (s1 s2 : jsstr) (i j : nat) : lev_d s1 s2 i j = lev_d s2 s1 j i.
Proof.
  revert j; induction i as [| i IH]; intros j.
  - rewrite lev_d_S0; reflexivity.
  - induction j as [| j IHj]; [rewrite lev_d_S0; reflexivity |].
    rewrite !lev_d_SS, Z.eqb_sym.
    destruct (_ =? _)%Z; [apply IH |].
    rewrite IH, IHj, (IH j); lia.
Qed.

Lemma lev_d_zero (s1 s2 : jsstr) (i j : nat) :
  lev_d s1 s2 i j = 0 -> i = j /\ firstn i s1 = firstn j s2 \/ (List.length s1 < i \/ List.length s2 < j).
Proof.
  revert j; induction i as [| i IH]; intros j H.
  - cbn in H; subst j; left; split; reflexivity.
  - destruct j as [| j]; [rewrite lev_d_S0 in H; lia |].
    rewrite lev_d_SS in H; destruct (nth i s1 0 =? nth j s2 0)%Z eqn:E; [| lia].
    apply Z.eqb_eq in E.
    destruct (IH j H) as [[-> Hf] | Hb].
    + destruct (Nat.lt_ge_cases (List.length s1) (S j)) as [Hl | Hl]; [right; lia |].
      destruct (Nat.lt_ge_cases (List.length s2) (S j)) as [Hl2 | Hl2]; [right; lia |].
      left; split; [reflexivity |].
      rewrite (firstn_S_nth s1 j 0%Z), (firstn_S_nth s2 j 0%Z), Hf, E by lia; reflexivity.
    + right; lia.
Qed.

Lemma levenshteinDistance_props_aux (s t : jsstr) :
  levenshteinDistance s s = 0 /\
  levenshteinDistance s [] = List.length s /\
  levenshteinDistance [] t = List.length t /\
  levenshteinDistance s t = levenshteinDistance t s /\
  levenshteinDistance s t <= Nat.max (List.length s) (List.length t) /\
  (levenshteinDistance s t = 0 <-> s = t).
Proof.
  rewrite !levenshtein_lev_d; cbn [List.length].
  split; [apply lev_d_diag |]; split; [apply lev_d_S0 |]; split; [reflexivity |].
  split; [apply lev_d_sym |]; split; [apply lev_d_max |].
  split; [| intros ->; apply lev_d_diag].
  intros H; destruct (lev_d_zero s t _ _ H) as [[_ Hf] | Hb]; [| lia].
  rewrite !firstn_all in Hf; exact Hf.
Qed.

(** [levenshteinDistance] is a distance on texts: 0 from a text to itself,
    the length of the other text from the empty text, symmetric, at most
    the longer length, and 0 only between equal texts. *)
Theorem levenshteinDistance_props (s t : jsstr) :
  levenshteinDistance s s = 0 /\
  levenshteinDistance s [] = List.length s /\
  levenshteinDistance [] t = List.length t /\
  levenshteinDistance s t = levenshteinDistance t s /\
  levenshteinDistance s t <= Nat.max (List.length s) (List.length t) /\
  (levenshteinDistance s t = 0 <-> s = t).
Proof. exact (levenshteinDistance_props_aux s t). Qed.

Lemma one_minus_ratio (d m : nat) : 0 < m -> d <= m ->
  (0 <= 1 - inject_Z (Z.of_nat d) / inject_Z (Z.of_nat m) <= 1)%Q /\
  ((1 - inject_Z (Z.of_nat d) / inject_Z (Z.of_nat m) == 1)%Q <-> d = 0).
Proof.
  intros Hm Hd.
  assert (Hmp : (0 < inject_Z (Z.of_nat m))%Q) by (apply inject_nat_pos; lia).
  destruct (Qdiv_unit_interval (inject_Z (Z.of_nat d)) (inject_Z (Z.of_nat m))
              (conj (inject_nat_le 0 d ltac:(lia)) (inject_nat_le d m Hd)) Hmp) as [H0 H1].
  split; [lra |]; split.
  - intros H; destruct d as [| d]; [reflexivity | exfalso].
    assert (Hp : (0 < inject_Z (Z.of_nat (S d)) / inject_Z (Z.of_nat m))%Q).
    { apply Qlt_shift_div_l; [exact Hmp |]. rewrite Qmult_0_l; apply inject_nat_pos; lia. }
    lra.
  - intros ->; cbn [Z.of_nat]; unfold Qdiv; ring.
Qed.

Lemma ratio_sim_props (a b : jsstr) :
  let f x y := if jsstr_eqb x y then 1%Q
               else let maxLength := Nat.max (List.length x) (List.length y) in
                    if (maxLength =? 0)%nat then 1%Q
                    else (1 - inject_Z (Z.of_nat (levenshteinDistance x y))
                              / inject_Z (Z.of_nat maxLength))%Q in
  (0 <= f a b <= 1)%Q /\ (f a b == f b a)%Q /\ ((f a b == 1)%Q <-> a = b).
Proof.
  cbv zeta.
  destruct (jsstr_eqb a b) eqn:E.
  - apply jsstr_eqb_eq in E; subst b; rewrite jsstr_eqb_refl.
    split; [lra | split; [reflexivity | split; [reflexivity | intros _; lra]]].
  - assert (Hne : a <> b) by (intros ->; rewrite jsstr_eqb_refl in E; discriminate).
    assert (E' : jsstr_eqb b a = false)
      by (destruct (jsstr_eqb b a) eqn:E'; [apply jsstr_eqb_eq in E'; congruence | reflexivity]).
    rewrite E', (Nat.max_comm (List.length b)).
    destruct (levenshteinDistance_props_aux a b) as (_ & _ & _ & Hsym & Hmax & Hz).
    rewrite <- Hsym.
    destruct (Nat.max (List.length a) (List.length b) =? 0) eqn:M.
    + apply Nat.eqb_eq in M.
      destruct a, b; cbn [List.length] in M; try congruence; lia.
    + apply Nat.eqb_neq in M.
      destruct (one_minus_ratio (levenshteinDistance a b) (Nat.max (List.length a) (List.length b))
                  ltac:(lia) Hmax) as [Hb Hiff].
      rewrite E.
      split; [exact Hb | split; [reflexivity |]].
      rewrite Hiff, Hz; tauto.
Qed.

(** [calculateWordSimilarity] lies in [0, 1], is symmetric, and is 1 exactly
    for equal words. *)
Theorem calculateWordSimilarity_props (w1 w2 : jsstr) :
  (0 <= calculateWordSimilarity w1 w2 <= 1)%Q /\
  (calculateWordSimilarity w1 w2 == calculateWordSimilarity w2 w1)%Q /\
  ((calculateWordSimilarity w1 w2 == 1)%Q <-> w1 = w2).
Proof. exact (ratio_sim_props w1 w2). Qed.

(** [calculateLineSimilarity] lies in [0, 1], is symmetric, and is 1
    exactly for lines equal after trimming. *)
Theorem calculateLineSimilarity_props (l1 l2 : jsstr) :
  (0 <= calculateLineSimilarity l1 l2 <= 1)%Q /\
  (calculateLineSimilarity l1 l2 == calculateLineSimilarity l2 l1)%Q /\
  ((calculateLineSimilarity l1 l2 == 1)%Q <-> trim l1 = trim l2).
Proof. exact (ratio_sim_props (trim l1) (trim l2)). Qed.

End Extras.

Section Html.
Local Open Scope nat_scope.

Lemma replace_all_unit_app c rep a b :
  replace_all_unit c rep (a ++ b) = replace_all_unit c rep a ++ replace_all_unit c rep b.
Proof. apply flat_map_app. Qed.

Lemma escapeHtml_units (s : jsstr) : escapeHtml s = flat_map html_escape_unit s.
Proof.
  induction s as [| x s IH]; [reflexivity |].
  unfold escapeHtml in *; change (x :: s) with ([x] ++ s) at 1.
  rewrite !replace_all_unit_app, IH; cbn [flat_map]; f_equal.
  unfold html_escape_unit, replace_all_unit.
  destruct (Z.eq_dec x 38); [subst; reflexivity |].
  destruct (Z.eq_dec x 60); [subst; reflexivity |].
  destruct (Z.eq_dec x 62); [subst; reflexivity |].
  destruct (Z.eq_dec x 34); [subst; reflexivity |].
  destruct (Z.eq_dec x 39); [subst; reflexivity |].
  apply Z.eqb_neq in n, n0, n1, n2, n3.
  cbn [flat_map]; rewrite n; cbn [flat_map app]; rewrite n0; cbn [flat_map app];
    rewrite n1; cbn [flat_map app]; rewrite n2; cbn [flat_map app]; rewrite n3; reflexivity.
Qed.

Lemma html_escape_unit_safe x c :
  In c (html_escape_unit x) -> c <> 60%Z /\ c <> 62%Z /\ c <> 34%Z /\ c <> 39%Z.
Proof.
  unfold html_escape_unit.
  destruct (Z.eqb_spec x 38); [cbn; intuition lia |].
  destruct (Z.eqb_spec x 60); [cbn; intuition lia |].
  destruct (Z.eqb_spec x 62); [cbn; intuition lia |].
  destruct (Z.eqb_spec x 34); [cbn; intuition lia |].
  destruct (Z.eqb_spec x 39); [cbn; intuition lia |].
  cbn; intuition subst; contradiction.
Qed.

Lemma html_escape_unit_prefix x y r1 r2 :
  html_escape_unit x ++ r1 = html_escape_unit y ++ r2 -> x = y /\ r1 = r2.
Proof.
  unfold html_escape_unit.
  destruct (Z.eqb_spec x 38); destruct (Z.eqb_spec y 38); subst; cbn;
  try (destruct (Z.eqb_spec x 60)); try (destruct (Z.eqb_spec y 60)); subst; cbn;
  try (destruct (Z.eqb_spec x 62)); try (destruct (Z.eqb_spec y 62)); subst; cbn;
  try (destruct (Z.eqb_spec x 34)); try (destruct (Z.eqb_spec y 34)); subst; cbn;
  try (destruct (Z.eqb_spec x 39)); try (destruct (Z.eqb_spec y 39)); subst; cbn;
  intros H; injection H; intros; subst; try tauto; try lia.
Qed.

Lemma escapeHtml_injective (a b : jsstr) : escapeHtml a = escapeHtml b -> a = b.
Proof.
  rewrite !escapeHtml_units; revert b; induction a as [| x a IH]; intros [| y b]; cbn; intros H.
  - reflexivity.
  - exfalso; unfold html_escape_unit in H; repeat destruct (_ =? _)%Z; discriminate H.
  - exfalso; unfold html_escape_unit in H; repeat destruct (_ =? _)%Z; discriminate H.
  - destruct (html_escape_unit_prefix x y _ _ H) as [-> Hr]; f_equal; exact (IH b Hr).
Qed.

Lemma count_unit_app c a b : count_unit c (a ++ b) = count_unit c a + count_unit c b.
Proof. unfold count_unit; rewrite filter_app, length_app; reflexivity. Qed.

Lemma count_unit_absent c s : (forall x, In x s -> x <> c) -> count_unit c s = 0.
Proof.
  intros H; unfold count_unit; induction s as [| x s IH]; [reflexivity |]; cbn.
  destruct (Z.eqb_spec x c); [exfalso; exact (H x (or_introl eq_refl) e) |].
  apply IH; intros y Hy; exact (H y (or_intror Hy)).
Qed.

Lemma escapeHtml_lt (s : jsstr) : count_unit 60 (escapeHtml s) = 0.
Proof.
  apply count_unit_absent; intros x Hx; rewrite escapeHtml_units in Hx.
  apply in_flat_map in Hx as [y [_ Hy]]; apply (html_escape_unit_safe y x Hy).
Qed.

Lemma zdigits_aux_digits fuel n acc :
  (0 <= n)%Z -> Forall (fun c => 48 <= c <= 57)%Z acc ->
  Forall (fun c => 48 <= c <= 57)%Z (zdigits_aux fuel n acc).
Proof.
  revert n acc; induction fuel as [| f IH]; intros n acc Hn Ha; cbn [zdigits_aux]; [exact Ha |].
  destruct (Z.ltb_spec n 10).
  - constructor; [cbv beta; lia | exact Ha].
  - apply IH; [apply Z.div_pos; lia |].
    constructor; [cbv beta; pose proof (Z.mod_pos_bound n 10); lia | exact Ha].
Qed.

Lemma index_key_lt (i : nat) : count_unit 60 (index_key i) = 0.
Proof.
  apply count_unit_absent; unfold index_key; destruct (Nat.eqb_spec i 0).
  - cbn; intros x [<- | []]; discriminate.
  - intros x Hx.
    pose proof (zdigits_aux_digits (Z.to_nat (Z.log2 (Z.of_nat i)) + 1) (Z.of_nat i) []
                  ltac:(lia) (Forall_nil _)) as HF.
    rewrite Forall_forall in HF; specialize (HF x Hx); lia.
Qed.

Lemma line_label_lt ln d : count_unit 60 d = 0 -> count_unit 60 (line_label ln d) = 0.
Proof.
  intros Hd; destruct ln as [n |]; cbn; [| exact Hd].
  destruct (n =? 0); [exact Hd | apply index_key_lt].
Qed.

Lemma join_with_count c sep l :
  count_unit c sep = 0 ->
  count_unit c (join_with sep l) = fold_right (fun x acc => count_unit c x + acc) 0 l.
Proof.
  intros Hs; induction l as [| x l IH]; [reflexivity |].
  destruct l as [| y l]; [cbn [join_with fold_right]; lia |].
  change (join_with sep (x :: y :: l)) with (x ++ sep ++ join_with sep (y :: l)).
  rewrite !count_unit_app, Hs, IH; reflexivity.
Qed.

Lemma count_lop_cons (o : DiffOperation) (p : LineDiffPart) (ps : list LineDiffPart) :
  count_lop o (p :: ps) = (if diffop_eqb (l_operation p) o then 1 else 0) + count_lop o ps.
Proof. unfold count_lop; cbn; destruct (diffop_eqb (l_operation p) o); reflexivity. Qed.

(** The markup of [generateHtml]: the output holds exactly two ['<'] per
    deleted or inserted word and six per replaced word, none for an equal
    word; no text of the parts adds a tag. *)
Theorem generateHtml_tags (ps : list DiffPart) :
  count_unit 60 (generateHtml ps)
  = 2 * count_op DELETE ps + 2 * count_op INSERT ps + 6 * count_op REPLACE ps.
Proof.
  unfold generateHtml; rewrite join_with_count by reflexivity.
  induction ps as [| p ps IH]; [reflexivity |].
  cbn [map fold_right]; rewrite IH, !count_op_cons.
  unfold part_html; destruct (operation p); cbn [diffop_eqb];
    rewrite ?count_unit_app, ?escapeHtml_lt; cbn; lia.
Qed.

(** The markup of [generateLineHtml]: two ['<'] per equal line, six per
    deleted or inserted line, whatever the lines hold. *)
Theorem generateLineHtml_tags (ps : list LineDiffPart) :
  count_unit 60 (generateLineHtml ps)
  = 2 * count_lop EQUAL ps + 6 * count_lop DELETE ps + 6 * count_lop INSERT ps
    + 2 * count_lop REPLACE ps.
Proof.
  unfold generateLineHtml; rewrite join_with_count by reflexivity.
  induction ps as [| p ps IH]; [reflexivity |].
  cbn [map fold_right]; rewrite IH, !count_lop_cons.
  unfold line_html; destruct (l_operation p); cbn [diffop_eqb];
    rewrite ?count_unit_app, ?escapeHtml_lt, ?line_label_lt by reflexivity; cbn; lia.
Qed.

(** [escapeHtml] leaves none of the code units 60, 62, 34 and 39 (less-than,
    greater-than, double and single quote) in its output, loses nothing (two
    texts with the same escape are equal), and leaves a text without any of
    the five escaped units (38 ampersand included) unchanged. *)
Theorem escapeHtml_props (s : jsstr) :
  (forall c, In c (escapeHtml s) -> c <> 60%Z /\ c <> 62%Z /\ c <> 34%Z /\ c <> 39%Z) /\
  (forall t, escapeHtml s = escapeHtml t -> s = t) /\
  (Forall (fun c => ~ In c [38; 60; 62; 34; 39]%Z) s -> escapeHtml s = s).
Proof.
  split; [| split].
  - intros c Hc; rewrite escapeHtml_units in Hc.
    apply in_flat_map in Hc as [y [_ Hy]]; exact (html_escape_unit_safe y c Hy).
  - apply escapeHtml_injective.
  - rewrite escapeHtml_units; induction 1 as [| x s Hx _ IH]; [reflexivity |].
    cbn [flat_map]; rewrite IH; unfold html_escape_unit.
    destruct (Z.eqb_spec x 38); [subst; cbn in Hx; tauto |].
    destruct (Z.eqb_spec x 60); [subst; cbn in Hx; tauto |].
    destruct (Z.eqb_spec x 62); [subst; cbn in Hx; tauto |].
    destruct (Z.eqb_spec x 34); [subst; cbn in Hx; tauto |].
    destruct (Z.eqb_spec x 39); [subst; cbn in Hx; tauto |].
    reflexivity.
Qed.

End Html.

Section Summary.
Local Open Scope nat_scope.

(** [getDiffSummary] reports ["Perfect match"] exactly when the result
    counts no added, removed or modified word. *)
Theorem getDiffSummary_perfect (r : DiffResult) :
  getDiffSummary r = js "Perfect match"
  <-> added (changes r) = 0 /\ removed (changes r) = 0 /\ modified (changes r) = 0.
Proof.
  unfold getDiffSummary.
  destruct (Nat.eqb_spec (added (changes r) + removed (changes r) + modified (changes r)) 0)
    as [H | H].
  - split; [intros _; lia | reflexivity].
  - split; [| lia].
    intros E; exfalso.
    match type of E with ?a ++ js " (" ++ ?b ++ js "% similar)" = _ =>
      change (js "% similar)") with (js "% similar" ++ [41%Z]) in E;
      apply (f_equal (fun s => last s 0%Z)) in E;
      rewrite !app_assoc, last_last in E; discriminate E end.
Qed.

End Summary.

Section SetFacts.
Local Open Scope nat_scope.

Lemma set_add_in s x y : In y (set_add s x) <-> In y s \/ x = y.
Proof.
  unfold set_add; destruct (existsb (jsstr_eqb x) s) eqn:E.
  - apply existsb_exists in E as [z [Hz Ez]]; apply jsstr_eqb_eq in Ez; subst z.
    split; [tauto | intros [H | <-]; assumption].
  - rewrite in_app_iff; cbn [In]; split.
    + intros [H | [H | []]]; [left; exact H | right; exact H].
    + intros [H | H]; [left; exact H | right; left; exact H].
Qed.

Lemma set_add_nodup s x : NoDup s -> NoDup (set_add s x).
Proof.
  unfold set_add; destruct (existsb (jsstr_eqb x) s) eqn:E; intros Hs; [exact Hs |].
  apply NoDup_app; [exact Hs | constructor; [intros [] | constructor] |].
  intros y Hy [Hxy | []]; subst y.
  assert (existsb (jsstr_eqb x) s = true) as E'
    by (apply existsb_exists; exists x; split; [exact Hy | apply jsstr_eqb_refl]).
  congruence.
Qed.

Lemma new_Set_spec_aux l s :
  NoDup s -> NoDup (fold_left set_add l s) /\
  (forall y, In y (fold_left set_add l s) <-> In y s \/ In y l).
Proof.
  revert s; induction l as [| x l IH]; intros s Hs; cbn.
  - split; [exact Hs | tauto].
  - destruct (IH (set_add s x) (set_add_nodup s x Hs)) as [H1 H2]; split; [exact H1 |].
    intros y; rewrite H2, set_add_in; tauto.
Qed.

Lemma new_Set_nodup l : NoDup (new_Set l).
Proof. apply (new_Set_spec_aux l [] (NoDup_nil _)). Qed.

Lemma new_Set_in l y : In y (new_Set l) <-> In y l.
Proof.
  destruct (new_Set_spec_aux l [] (NoDup_nil _)) as [_ H]; rewrite H; cbn; tauto.
Qed.

Lemma set_has_in s x : set_has s x = true <-> In x s.
Proof.
  unfold set_has; rewrite existsb_exists; split.
  - intros [y [Hy E]]; apply jsstr_eqb_eq in E; subst; exact Hy.
  - intros H; exists x; split; [exact H | apply jsstr_eqb_refl].
Qed.

Lemma nodup_same_length (a b : list jsstr) :
  NoDup a -> NoDup b -> (forall x, In x a <-> In x b) -> List.length a = List.length b.
Proof.
  intros Ha Hb H.
  apply Nat.le_antisymm; apply NoDup_incl_length; auto; intros x; apply H.
Qed.

Lemma semantic_inter_sym (A B : list jsstr) :
  List.length (new_Set (filter (fun w => set_has (new_Set B) w) (new_Set A)))
  = List.length (new_Set (filter (fun w => set_has (new_Set A) w) (new_Set B))).
Proof.
  apply nodup_same_length; try apply new_Set_nodup.
  intros x; rewrite !new_Set_in, !filter_In, !set_has_in, !new_Set_in; tauto.
Qed.

Lemma semantic_union_sym (A B : list jsstr) :
  List.length (new_Set (new_Set A ++ new_Set B)) = List.length (new_Set (new_Set B ++ new_Set A)).
Proof.
  apply nodup_same_length; try apply new_Set_nodup.
  intros x; rewrite !new_Set_in, !in_app_iff; tauto.
Qed.

Lemma semantic_inter_le (A B : list jsstr) :
  List.length (new_Set (filter (fun w => set_has (new_Set B) w) (new_Set A)))
  <= List.length (new_Set (new_Set A ++ new_Set B)).
Proof.
  apply NoDup_incl_length; [apply new_Set_nodup |].
  intros x; rewrite !new_Set_in, filter_In, in_app_iff; tauto.
Qed.

End SetFacts.

(** [calculateSemanticSimilarity] (the Jaccard index of the two sets of
    lower-cased words), whatever [toLowerCase] does: it lies in [0, 1], it
    is symmetric, and a text with at least one word scores 1 against
    itself. *)
Theorem calculateSemanticSimilarity_props (toLowerCase : jsstr -> jsstr) (g o : jsstr) :
  (0 <= calculateSemanticSimilarity toLowerCase g o <= 1)%Q /\
  (calculateSemanticSimilarity toLowerCase g o == calculateSemanticSimilarity toLowerCase o g)%Q /\
  (tokenize (toLowerCase g) <> [] -> calculateSemanticSimilarity toLowerCase g g == 1)%Q.
Proof.
  unfold calculateSemanticSimilarity; cbv zeta.
  set (A := tokenize (toLowerCase g)); set (B := tokenize (toLowerCase o)).
  split; [| split].
  - destruct (Nat.eqb_spec (List.length (new_Set (new_Set A ++ new_Set B))) 0) as [E | E];
      [lra |].
    apply Qdiv_unit_interval; [split |].
    + change 0%Q with (inject_Z 0); rewrite <- Zle_Qle; lia.
    + apply inject_nat_le, semantic_inter_le.
    + apply inject_nat_pos; exact E.
  - rewrite semantic_union_sym, semantic_inter_sym; reflexivity.
  - intros HA.
    assert (List.length (new_Set (filter (fun w => set_has (new_Set A) w) (new_Set A)))
            = List.length (new_Set (new_Set A ++ new_Set A))) as Hl.
    { apply nodup_same_length; try apply new_Set_nodup.
      intros x; rewrite !new_Set_in, filter_In, set_has_in, in_app_iff; tauto. }
    rewrite Hl.
    destruct (Nat.eqb_spec (List.length (new_Set (new_Set A ++ new_Set A))) 0) as [E | E].
    + exfalso; destruct A as [| w A']; [contradiction |].
      apply length_zero_iff_nil in E.
      assert (In w (new_Set (new_Set (w :: A') ++ new_Set (w :: A')))) as Hw
        by (rewrite new_Set_in, in_app_iff, new_Set_in; left; left; reflexivity).
      rewrite E in Hw; exact Hw.
    + pose proof (inject_nat_pos _ E) as Hp; field; lra.
Qed.

Section JsonFacts.
Local Open Scope nat_scope.

Lemma obj_get_in_nodup (k : jsstr) (x : json) (fs : list (jsstr * json)) :
  NoDup (map fst fs) -> In (k, x) fs -> obj_get k fs = Some x.
Proof.
  induction fs as [| [k' v] fs IH]; cbn; [intros _ [] |].
  intros Hnd Hin; inversion Hnd as [| ? ? Hk Hnd']; subst.
  destruct Hin as [E | Hin].
  - injection E as -> ->; rewrite jsstr_eqb_refl; reflexivity.
  - destruct (jsstr_eqb k k') eqn:E.
    + apply jsstr_eqb_eq in E; subst k'; exfalso; apply Hk.
      apply (in_map fst) in Hin; exact Hin.
    + apply IH; assumption.
Qed.

Lemma strs_eqb_refl (l : list jsstr) : strs_eqb l l = true.
Proof. induction l as [| x l IH]; cbn; [reflexivity | rewrite jsstr_eqb_refl, IH; reflexivity]. Qed.

Lemma jsnum_eqb_refl (n : jsnum) : jsnum_eqb n n = true.
Proof. destruct n; cbn; rewrite ?Z.eqb_refl; reflexivity. Qed.

Lemma deepEqual_refl (v : json) : parsed_ok v -> deepEqual v v = true.
Proof.
  induction v as [| b | n | s | l IH | fs IH] using json_ind'; intros Hp.
  - reflexivity.
  - destruct b; reflexivity.
  - apply jsnum_eqb_refl.
  - apply jsstr_eqb_refl.
  - apply parsed_arr in Hp.
    assert (HF : Forall (fun x => deepEqual x x = true) l).
    { rewrite Forall_forall in *; intros x Hx; apply IH; [exact Hx | apply Hp; exact Hx]. }
    cbn [deepEqual]; rewrite Nat.eqb_refl; cbn [andb]; clear IH Hp.
    induction HF as [| x r Hx _ IHr]; [reflexivity |]; cbn; rewrite Hx; exact IHr.
  - apply parsed_obj in Hp as [Hnd Hp].
    cbn [deepEqual]; rewrite strs_eqb_refl; cbn [andb get_data].
    match goal with |- ?F fs = true =>
      assert (H : forall r, incl r fs -> F r = true) end.
    { intros r; induction r as [| [k x] r IHr]; intros Hi; [reflexivity |]; cbn.
      rewrite (obj_get_in_nodup k x fs Hnd (Hi _ (or_introl eq_refl))).
      rewrite Forall_forall in IH, Hp.
      pose proof (IH (k, x) (Hi _ (or_introl eq_refl)) (Hp (k, x) (Hi _ (or_introl eq_refl)))) as Hx;
        cbn [snd] in Hx; rewrite Hx; cbn [andb].
      apply IHr; intros y Hy; apply Hi; right; exact Hy. }
    apply H, incl_refl.
Qed.



Lemma addmt_ok x y : mt_ok x -> mt_ok y -> mt_ok (addmt x y).
Proof. unfold mt_ok, addmt; destruct x, y; cbn; lia. Qed.

Lemma sum_mt_ok (l : list (Z * Z)) :
  Forall mt_ok l -> mt_ok (fold_right addmt (0, 0)%Z l) /\
  (Forall (fun x => 1 <= snd x)%Z l -> (Z.of_nat (List.length l) <= snd (fold_right addmt (0, 0)%Z l))%Z).
Proof.
  induction 1 as [| x l Hx _ [IH1 IH2]]; cbn [fold_right]; [split; [unfold mt_ok; cbn; lia | cbn; lia] |].
  split; [apply addmt_ok; assumption |].
  intros H1; inversion H1 as [| ? ? Hx1 Hl1]; subst; specialize (IH2 Hl1).
  destruct x as [m t]; destruct (fold_right addmt (0, 0)%Z l) as [m' t']; cbn in *; lia.
Qed.

Lemma granular_ok (a b : json) :
  mt_ok (granular a b) /\ (1 <= snd (granular a b))%Z.
Proof.
  revert b.
  induction a as [| x | n | s | l IH | fs IH] using json_ind'; intros b.
  - destruct b; cbn; unfold mt_ok; cbn; lia.
  - destruct b; cbn; unfold mt_ok; cbn; try destruct (Bool.eqb _ _); cbn; lia.
  - destruct b; cbn; unfold mt_ok; cbn; try destruct (jsnum_eqb _ _); cbn; lia.
  - destruct b; cbn; unfold mt_ok; cbn; try destruct (jsstr_eqb _ _); cbn; lia.
  - destruct b as [| | | | l2 | f2]; try (cbn; unfold mt_ok; cbn; lia).
    + cbn [granular]; cbv zeta.
      destruct (Nat.eqb_spec (Nat.max (List.length l) (List.length l2)) 0) as [E | E];
        [unfold mt_ok; cbn; lia |].
      match goal with |- context [addmt (?F l l2) ?T] =>
        assert (HG : forall r1 r2, incl r1 l ->
                  mt_ok (F r1 r2) /\
                  (Z.of_nat (Nat.min (List.length r1) (List.length r2)) <= snd (F r1 r2))%Z) end.
      { intros r1; induction r1 as [| x r1 IHr]; intros r2 Hi;
          [unfold mt_ok; cbn; lia |].
        destruct r2 as [| y r2]; [unfold mt_ok; cbn; lia |].
        cbn [List.length Nat.min].
        rewrite Forall_forall in IH; destruct (IH x (Hi _ (or_introl eq_refl)) y) as [Hx1 Hx2].
        destruct (IHr r2 (fun z Hz => Hi z (or_intror Hz))) as [Hr1 Hr2].
        split; [apply addmt_ok; assumption |].
        match goal with |- context [addmt ?A ?B] => destruct A as [m t], B as [m' t'] end.
        cbn in *; lia. }
      destruct (HG l l2 (incl_refl _)) as [H1 H2].
      match goal with |- context [addmt (?G) ?T] => destruct G as [m t] end.
      unfold mt_ok in *; cbn in *; lia.
    + cbn [granular].
      destruct ((List.length l =? 0) && (List.length f2 =? 0)) eqn:Eb;
        [unfold mt_ok; cbn; lia |].
      match goal with |- context [addmt (?F O l) (fold_right addmt ?z (map ?g f2))] =>
        assert (HG : forall r i, incl r l ->
                  mt_ok (F i r) /\ (Z.of_nat (List.length r) <= snd (F i r))%Z);
        [| assert (HF : mt_ok (fold_right addmt z (map g f2)) /\
                        (l = [] -> Z.of_nat (List.length f2) <= snd (fold_right addmt z (map g f2)))%Z)]
      end.
      { intros r; induction r as [| x r IHr]; intros i Hi; [unfold mt_ok; cbn; lia |].
        cbn [List.length].
        destruct (IHr (S i) (fun z Hz => Hi z (or_intror Hz))) as [Hr1 Hr2].
        match goal with |- context [addmt ?A ?B] =>
          assert (HA : mt_ok A /\ (1 <= snd A)%Z) end.
        { destruct (get_data _ _) as [y |];
            [rewrite Forall_forall in IH; apply (IH x (Hi _ (or_introl eq_refl)) y) |].
          unfold mt_ok; cbn; lia. }
        destruct HA as [HA1 HA2]; split; [apply addmt_ok; assumption |].
        match goal with |- context [addmt ?A ?B] => destruct A as [m t], B as [m' t'] end.
        cbn in *; lia. }
      { match goal with |- context [fold_right addmt _ (map ?g f2)] =>
          destruct (sum_mt_ok (map g f2)) as [S1 S2] end.
        - apply Forall_map, Forall_forall; intros [k y] _.
          destruct (existsb _ _); [unfold mt_ok; cbn; lia |].
          destruct (jsstr_eqb _ _); [| unfold mt_ok; cbn; lia].
          destruct y; unfold mt_ok, granular_num; cbn [fst snd]; try destruct (jsnum_eqb _ _); cbn [fst snd]; lia.
        - split; [exact S1 |]; intros ->.
          rewrite length_map in S2; apply S2.
          apply Forall_map, Forall_forall; intros [k y] _; cbn.
          destruct (jsstr_eqb _ _); [destruct y; cbn; lia | cbn; lia]. }
      destruct (HG l 0%nat (incl_refl _)) as [H1 H2]; destruct HF as [F1 F2].
      destruct l as [| x l'].
      * specialize (F2 eq_refl); destruct f2; [discriminate Eb |].
        match goal with |- context [addmt ?A ?B] => destruct A as [m t], B as [m' t'] end.
        unfold mt_ok in *; cbn in *; lia.
      * match goal with |- context [addmt ?A ?B] => destruct A as [m t], B as [m' t'] end.
        unfold mt_ok in *; cbn in *; lia.
  - destruct b as [| | | | l2 | f2]; try (cbn; unfold mt_ok; cbn; lia).
    + cbn [granular];
      (destruct ((List.length fs =? 0) && (List.length (own_keys _) =? 0)) eqn:Eb;
         [unfold mt_ok; cbn; lia |]);
      (match goal with |- context [addmt (?F fs) (fold_right addmt ?z (map ?g ?ks))] =>
         assert (HG : forall r, incl r fs ->
                   mt_ok (F r) /\ (Z.of_nat (List.length r) <= snd (F r))%Z);
         [| assert (HF : mt_ok (fold_right addmt z (map g ks)) /\
                         (fs = [] -> Z.of_nat (List.length ks) <= snd (fold_right addmt z (map g ks)))%Z)]
       end);
      [ intros r; induction r as [| [k x] r IHr]; intros Hi; [unfold mt_ok; cbn; lia |];
        cbn [List.length];
        destruct (IHr (fun z Hz => Hi z (or_intror Hz))) as [Hr1 Hr2];
        (match goal with |- context [addmt ?A ?B] =>
           assert (HA : mt_ok A /\ (1 <= snd A)%Z) end);
        [ destruct (get_data _ _) as [y |];
            [rewrite Forall_forall in IH; apply (IH (k, x) (Hi _ (or_introl eq_refl)) y) |];
          unfold mt_ok; cbn; lia |];
        destruct HA as [HA1 HA2]; split; [apply addmt_ok; assumption |];
        (match goal with |- context [addmt ?A ?B] => destruct A as [m t], B as [m' t'] end);
        cbn in *; lia
      | (match goal with |- context [fold_right addmt _ (map ?g ?ks)] =>
           destruct (sum_mt_ok (map g ks)) as [S1 S2] end);
        [ apply Forall_map, Forall_forall; intros k _;
          destruct (existsb _ _); unfold mt_ok; cbn; lia
        | split; [exact S1 |]; intros ->;
          rewrite length_map in S2; apply S2;
          apply Forall_map, Forall_forall; intros k _; cbn; lia ]
      | destruct (HG fs (incl_refl _)) as [H1 H2]; destruct HF as [F1 F2];
        destruct fs as [| x fs'];
        [ specialize (F2 eq_refl);
          destruct (own_keys _); [discriminate Eb |];
          (match goal with |- context [addmt ?A ?B] => destruct A as [m t], B as [m' t'] end);
          unfold mt_ok in *; cbn in *; lia
        | (match goal with |- context [addmt ?A ?B] => destruct A as [m t], B as [m' t'] end);
          unfold mt_ok in *; cbn in *; lia ] ].
    + cbn [granular];
      (destruct ((List.length fs =? 0) && (List.length (own_keys _) =? 0)) eqn:Eb;
         [unfold mt_ok; cbn; lia |]);
      (match goal with |- context [addmt (?F fs) (fold_right addmt ?z (map ?g ?ks))] =>
         assert (HG : forall r, incl r fs ->
                   mt_ok (F r) /\ (Z.of_nat (List.length r) <= snd (F r))%Z);
         [| assert (HF : mt_ok (fold_right addmt z (map g ks)) /\
                         (fs = [] -> Z.of_nat (List.length ks) <= snd (fold_right addmt z (map g ks)))%Z)]
       end);
      [ intros r; induction r as [| [k x] r IHr]; intros Hi; [unfold mt_ok; cbn; lia |];
        cbn [List.length];
        destruct (IHr (fun z Hz => Hi z (or_intror Hz))) as [Hr1 Hr2];
        (match goal with |- context [addmt ?A ?B] =>
           assert (HA : mt_ok A /\ (1 <= snd A)%Z) end);
        [ destruct (get_data _ _) as [y |];
            [rewrite Forall_forall in IH; apply (IH (k, x) (Hi _ (or_introl eq_refl)) y) |];
          unfold mt_ok; cbn; lia |];
        destruct HA as [HA1 HA2]; split; [apply addmt_ok; assumption |];
        (match goal with |- context [addmt ?A ?B] => destruct A as [m t], B as [m' t'] end);
        cbn in *; lia
      | (match goal with |- context [fold_right addmt _ (map ?g ?ks)] =>
           destruct (sum_mt_ok (map g ks)) as [S1 S2] end);
        [ apply Forall_map, Forall_forall; intros k _;
          destruct (existsb _ _); unfold mt_ok; cbn; lia
        | split; [exact S1 |]; intros ->;
          rewrite length_map in S2; apply S2;
          apply Forall_map, Forall_forall; intros k _; cbn; lia ]
      | destruct (HG fs (incl_refl _)) as [H1 H2]; destruct HF as [F1 F2];
        destruct fs as [| x fs'];
        [ specialize (F2 eq_refl);
          destruct (own_keys _); [discriminate Eb |];
          (match goal with |- context [addmt ?A ?B] => destruct A as [m t], B as [m' t'] end);
          unfold mt_ok in *; cbn in *; lia
        | (match goal with |- context [addmt ?A ?B] => destruct A as [m t], B as [m' t'] end);
          unfold mt_ok in *; cbn in *; lia ] ].
Qed.


Lemma calculateObjectSimilarity_range (a b : json) :
  (0 <= calculateObjectSimilarity a b <= 1)%Q.
Proof.
  unfold calculateObjectSimilarity; destruct (deepEqual a b); [lra |].
  destruct (granular_ok a b) as [H1 H2]; unfold mt_ok in H1.
  destruct (granular a b) as [m t]; cbn in *.
  apply Qdiv_unit_interval.
  - split; [change 0%Q with (inject_Z 0) |]; rewrite <- Zle_Qle; lia.
  - change 0%Q with (inject_Z 0); rewrite <- Zlt_Qlt; lia.
Qed.

Lemma fold_set_parsed (L acc : list (jsstr * json)) :
  NoDup (map fst acc) -> Forall (fun kv => parsed_ok (snd kv)) acc ->
  Forall (fun kv => parsed_ok (snd kv)) L ->
  NoDup (map fst (fold_left (fun acc '(k, y) => obj_set k y acc) L acc)) /\
  Forall (fun kv => parsed_ok (snd kv)) (fold_left (fun acc '(k, y) => obj_set k y acc) L acc).
Proof.
  revert acc; induction L as [| [k y] L IH]; intros acc Hnd Hacc HL; cbn [fold_left];
    [split; assumption |].
  inversion HL as [| ? ? Hy HL']; subst.
  apply IH; [apply obj_set_nodup; exact Hnd | apply obj_set_forall; assumption | exact HL'].
Qed.

Lemma normalizeJsonObject_parsed (lc : jsstr -> jsstr -> comparison) (p : json) :
  forall n, parsed_ok p -> normalizeJsonObject lc p = Ok n -> parsed_ok n.
Proof.
  induction p as [| b | num | str | l IH | fs IH] using json_ind'; intros n Hp Hn;
    cbn [normalizeJsonObject] in Hn.
  - injection Hn as <-; exact I.
  - injection Hn as <-; exact I.
  - injection Hn as <-; exact Hp.
  - injection Hn as <-; exact I.
  - apply parsed_arr in Hp.
    destruct (map_result _ l) as [nl |] eqn:Em; cbn in Hn; [| discriminate].
    assert (Hc : Forall parsed_ok nl).
    { apply (arr_norm_forall lc _ l nl Em).
      rewrite Forall_forall in *; intros x Hx y Hy; apply (IH x Hx y (Hp x Hx) Hy). }
    destruct (sort_by_id nl).
    + destruct (sort_by_key lc nl) as [sl |] eqn:Es; cbn in Hn; [| discriminate].
      injection Hn as <-; apply parsed_arr.
      apply (Forall_perm _ nl); [symmetry; apply (sort_by_key_perm lc); exact Es | exact Hc].
    + injection Hn as <-; apply parsed_arr, Hc.
  - apply parsed_obj in Hp as [Hnd Hp].
    destruct (map_result _ fs) as [nfs |] eqn:Em; cbn in Hn; [| discriminate].
    injection Hn as <-.
    assert (Hc : Forall (fun kv => parsed_ok (snd kv)) nfs).
    { apply (fields_norm_forall lc _ fs nfs Em).
      rewrite Forall_forall in *; intros [k x] Hx y Hy; cbn in *.
      apply (IH _ Hx y (Hp _ Hx) Hy). }
    apply parsed_obj, fold_set_parsed; [constructor | constructor |].
    apply (Forall_perm _ nfs); [symmetry; apply sort_fields_perm | exact Hc].
Qed.

Lemma normalizeJson_parsed (lc : jsstr -> jsstr -> comparison) (s : jsstr) :
  parsed_ok (parsed (normalizeJson lc s)).
Proof.
  unfold normalizeJson, normalize_text.
  destruct (JSON_parse (trim s)) as [p |] eqn:E1; cbn [bind];
    [destruct (normalizeJsonObject lc p) as [n |] eqn:E2;
       [cbn; apply (normalizeJsonObject_parsed lc p n (JSON_parse_parsed_ok _ _ E1) E2) |] |];
    (destruct (JSON_parse (extractJsonFromMarkdown s)) as [p' |] eqn:E3; cbn [bind];
       [destruct (normalizeJsonObject lc p') as [n' |] eqn:E4;
          [cbn; apply (normalizeJsonObject_parsed lc p' n' (JSON_parse_parsed_ok _ _ E3) E4)
          | exact I] | exact I]).
Qed.

Lemma lcs_loop_self (l : list json) :
  Forall parsed_ok l ->
  forall i f ops, (i <= f)%nat ->
  lcs_loop l l f i i ops = (map (equal_op l) (seq 0 i) ++ ops, 0%nat, 0%nat).
Proof.
  intros Hl i; induction i as [| i IH]; intros f ops Hf.
  - destruct f; reflexivity.
  - destruct f as [| f]; [lia |].
    cbn [lcs_loop]; replace ((0 <? S i) || (0 <? S i))%nat with true by reflexivity.
    unfold lcs_step; replace (S i - 1)%nat with i by lia.
    assert (He : deepEqual (el1 l i) (el2 l i) = true).
    { unfold el1, el2; apply deepEqual_refl.
      destruct (Nat.lt_ge_cases i (List.length l)) as [Hi | Hi].
      - rewrite Forall_forall in Hl; apply Hl, nth_In, Hi.
      - rewrite nth_overflow by exact Hi; exact I. }
    rewrite He; cbn [andb Nat.ltb Nat.leb].
    rewrite IH by lia.
    rewrite seq_S, map_app, <- app_assoc; reflexivity.
Qed.

Lemma calculateLCSArrayDiff_self_ops (l : list json) :
  Forall parsed_ok l -> calculateLCSArrayDiff l l = map (equal_op l) (seq 0 (List.length l)).
Proof.
  intros Hl; unfold calculateLCSArrayDiff.
  rewrite (lcs_loop_self l Hl) by lia; rewrite app_nil_r; reflexivity.
Qed.

Lemma count_array_ops_equal (l : list json) (s : list nat) c :
  fold_left (fun c op => match op_type op with
                         | OpAdded => add_counts c (1%nat, 0%nat, 0%nat)
                         | OpRemoved => add_counts c (0%nat, 1%nat, 0%nat)
                         | _ => c
                         end) (map (equal_op l) s) c = c.
Proof. revert c; induction s as [| k s IH]; intros c; [reflexivity | exact (IH c)]. Qed.

Lemma fold_add_zero (l : list counts) :
  Forall (fun x => x = (0%nat, 0%nat, 0%nat)) l ->
  fold_left add_counts l (0%nat, 0%nat, 0%nat) = (0%nat, 0%nat, 0%nat).
Proof. induction 1 as [| x l -> _ IH]; [reflexivity | exact IH]. Qed.

Lemma countChanges_self_zero (v : json) : parsed_ok v -> countChanges v v = (0%nat, 0%nat, 0%nat).
Proof.
  induction v as [| b | n | s | l IH | fs IH] using json_ind'; intros Hp; try reflexivity.
  - apply parsed_arr in Hp; cbn [countChanges].
    unfold count_array_ops; rewrite calculateLCSArrayDiff_self_ops by exact Hp.
    apply count_array_ops_equal.
  - apply parsed_obj in Hp as [Hnd Hp].
    cbn [countChanges own_entries own_keys].
    rewrite fold_add_zero.
    2:{ apply Forall_map, Forall_forall; intros [k y] Hk.
        replace (existsb (jsstr_eqb k) (map fst fs)) with true; [reflexivity |].
        symmetry; apply existsb_exists; exists k; split;
          [apply (in_map fst) in Hk; exact Hk | apply jsstr_eqb_refl]. }
    match goal with |- add_counts (?F fs) _ = _ =>
      assert (H : forall r, incl r fs -> F r = (0%nat, 0%nat, 0%nat)) end.
    { intros r; induction r as [| [k x] r IHr]; intros Hi; [reflexivity |].
      cbn beta iota.
      rewrite (IHr (fun z Hz => Hi z (or_intror Hz))).
      unfold key_of_o1; cbn [get_data].
      rewrite (obj_get_in_nodup k x fs Hnd (Hi _ (or_introl eq_refl))).
      rewrite Forall_forall in IH, Hp.
      pose proof (Hp (k, x) (Hi _ (or_introl eq_refl))) as Hx; cbn [snd] in Hx.
      destruct (is_object_type x); cbn [andb].
      + pose proof (IH (k, x) (Hi _ (or_introl eq_refl)) Hx) as Hc; cbn [snd] in Hc.
        rewrite Hc; reflexivity.
      + rewrite (deepEqual_refl x Hx); reflexivity. }
    rewrite (H fs (incl_refl _)); reflexivity.
Qed.

(** [deepEqual] is reflexive on every value [JSON.parse] builds (distinct
    keys in every object), and such a value has object similarity 1 with
    itself. *)
Theorem deepEqual_reflexive (v : json) :
  parsed_ok v -> deepEqual v v = true /\ (calculateObjectSimilarity v v == 1)%Q.
Proof.
  intros Hp; pose proof (deepEqual_refl v Hp) as H; split; [exact H |].
  unfold calculateObjectSimilarity; rewrite H; reflexivity.
Qed.

Lemma deepEqual_reflexive_witness :
  parsed_ok (JObj [(js "a", JArr [JNum (NFin 15 (-1)); JStr (js "x")])]) /\
  deepEqual (JObj [(js "a", JArr [JNum (NFin 15 (-1)); JStr (js "x")])])
            (JObj [(js "a", JArr [JNum (NFin 15 (-1)); JStr (js "x")])]) = true /\
  (calculateObjectSimilarity (JObj [(js "a", JArr [JNum (NFin 15 (-1)); JStr (js "x")])])
                             (JObj [(js "a", JArr [JNum (NFin 15 (-1)); JStr (js "x")])]) == 1)%Q.
Proof.
  assert (H : parsed_ok (JObj [(js "a", JArr [JNum (NFin 15 (-1)); JStr (js "x")])]))
    by (vm_compute; repeat constructor; intros []).
  split; [exact H | apply (deepEqual_reflexive _ H)].
Defined.

Lemma objectSimilarity_range_aux (a b : json) :
  (0 <= calculateObjectSimilarity a b <= 1)%Q /\
  (0 <= calculateJsonStructuralSimilarity a b <= 1)%Q.
Proof.
  split; [apply calculateObjectSimilarity_range |].
  unfold calculateJsonStructuralSimilarity; destruct (deepEqual a b);
    [lra | apply calculateObjectSimilarity_range].
Qed.

(** [calculateObjectSimilarity] and [calculateJsonStructuralSimilarity]
    always lie in [0, 1]: the granular count never matches more than it
    visits, and visits at least one value. *)
Theorem objectSimilarity_range (a b : json) :
  (0 <= calculateObjectSimilarity a b <= 1)%Q /\
  (0 <= calculateJsonStructuralSimilarity a b <= 1)%Q.
Proof. exact (objectSimilarity_range_aux a b). Qed.

(** On two copies of a parsed array, [calculateLCSArrayDiff] pairs every
    element with itself: it returns one Equal operation per index, in
    order, with equal old and new index. *)
Theorem calculateLCSArrayDiff_self (l : list json) :
  Forall parsed_ok l ->
  calculateLCSArrayDiff l l = map (equal_op l) (seq 0 (List.length l)).
Proof. apply calculateLCSArrayDiff_self_ops. Qed.

Lemma calculateLCSArrayDiff_self_witness :
  Forall parsed_ok [JNum (NFin 1 0); JStr (js "x")] /\
  calculateLCSArrayDiff [JNum (NFin 1 0); JStr (js "x")] [JNum (NFin 1 0); JStr (js "x")]
  = map (equal_op [JNum (NFin 1 0); JStr (js "x")]) (seq 0 2).
Proof.
  assert (H : Forall parsed_ok [JNum (NFin 1 0); JStr (js "x")])
    by (repeat constructor).
  split; [exact H | apply (calculateLCSArrayDiff_self _ H)].
Defined.

Lemma calculateImprovedJsonChanges_self_aux (v : json) (t : jsstr) :
  parsed_ok v ->
  calculateImprovedJsonChanges v v t t
  = {| structuralChanges := RNum 0; valueChanges := RNum 0;
       additions := RNum 0; removals := RNum 0 |}.
Proof.
  intros Hp; unfold calculateImprovedJsonChanges.
  destruct (truthy v); cbn [negb orb].
  - rewrite (countChanges_self_zero v Hp); reflexivity.
  - unfold text_changes; destruct (calculateDiff_self_aux t) as (_ & _ & _ & ->); reflexivity.
Qed.

(** [calculateImprovedJsonChanges] reports no change at all between a
    parsed value and itself, by [countChanges] for a truthy value and by
    the word diff of the text otherwise. *)
Theorem calculateImprovedJsonChanges_self (v : json) (t : jsstr) :
  parsed_ok v ->
  calculateImprovedJsonChanges v v t t
  = {| structuralChanges := RNum 0; valueChanges := RNum 0;
       additions := RNum 0; removals := RNum 0 |}.
Proof. exact (calculateImprovedJsonChanges_self_aux v t). Qed.

Lemma calculateImprovedJsonChanges_self_witness :
  parsed_ok (JArr [JNull; JBool true]) /\
  calculateImprovedJsonChanges (JArr [JNull; JBool true]) (JArr [JNull; JBool true]) (js "x") (js "x")
  = {| structuralChanges := RNum 0; valueChanges := RNum 0;
       additions := RNum 0; removals := RNum 0 |}.
Proof.
  assert (H : parsed_ok (JArr [JNull; JBool true])) by (vm_compute; repeat constructor).
  split; [exact H | apply (calculateImprovedJsonChanges_self _ _ H)].
Defined.

Lemma insert_str_in (k x : jsstr) (l : list jsstr) : In x (insert_str k l) <-> k = x \/ In x l.
Proof.
  induction l as [| k' l IH]; cbn; [tauto |].
  destruct (jsstr_compare k k'); cbn; rewrite ?IH; tauto.
Qed.

Lemma sort_strings_in (l : list jsstr) (x : jsstr) : In x (sort_strings l) <-> In x l.
Proof.
  unfold sort_strings; induction l as [| k l IH]; cbn [fold_right In]; [tauto |].
  rewrite insert_str_in, IH; tauto.
Qed.

Lemma obj_get_in_fst (k : jsstr) (fs : list (jsstr * json)) :
  In k (map fst fs) -> exists x, obj_get k fs = Some x /\ In x (map snd fs).
Proof.
  induction fs as [| [k' x] r IH]; cbn; [tauto |].
  intros H; destruct (jsstr_eqb k k') eqn:E; [eexists; split; [reflexivity | left; reflexivity] |].
  destruct H as [<- | H]; [rewrite jsstr_eqb_refl in E; discriminate |].
  destruct (IH H) as (y & Hy & Hin); exists y; split; [exact Hy | right; exact Hin].
Qed.

Lemma lookup_sub_fields (f : json -> json -> result jsstr) (k : jsstr) (fs : list (jsstr * json)) :
  lookup_sub k ((fix go (fs : list (jsstr * json)) : list (jsstr * (json -> result jsstr)) :=
                   match fs with
                   | (k, x) :: r => (k, f x) :: go r
                   | [] => []
                   end) fs)
  = match obj_get k fs with Some x => Some (f x) | None => None end.
Proof.
  induction fs as [| [k' x] r IH]; cbn; [reflexivity |].
  destruct (jsstr_eqb k k'); [reflexivity | exact IH].
Qed.

Lemma map_result_total {A B} (f : A -> result B) (l : list A) :
  (forall x, In x l -> exists y, f x = Ok y) -> exists ys, map_result f l = Ok ys.
Proof.
  induction l as [| x r IH]; intros H; cbn; [eexists; reflexivity |].
  destruct (H x (or_introl eq_refl)) as [y ->]; cbn [bind].
  destruct IH as [ys ->]; [intros z Hz; apply H; right; exact Hz |].
  eexists; reflexivity.
Qed.

Lemma generateArrayDiffHtml_ok (ops : list ArrayDiffOperation) :
  exists h, generateArrayDiffHtml ops = Ok h.
Proof.
  unfold generateArrayDiffHtml.
  destruct (map_result_total (fun '(index, op) => array_op_html index op)
              (combine (seq 0 (List.length ops)) ops)) as [parts ->].
  - intros [i op] _; unfold array_op_html, value_str.
    destruct (op_value op); cbn [js_to_string bind]; eexists; reflexivity.
  - cbn [bind]; eexists; reflexivity.
Qed.

Lemma generateStructuralDiffHtml_self (v : json) :
  exists h, generateStructuralDiffHtml v v = Ok h.
Proof.
  induction v as [| b | n | s | l _ | fs IH] using json_ind';
    cbn [generateStructuralDiffHtml]; cbv zeta; unfold structural_head.
  - cbn; eexists; reflexivity.
  - cbn [strict_eq]; rewrite Bool.eqb_reflx; eexists; reflexivity.
  - cbn [strict_eq]; rewrite jsnum_eqb_refl; eexists; reflexivity.
  - cbn [strict_eq]; rewrite jsstr_eqb_refl; eexists; reflexivity.
  - cbn [strict_eq is_null typeof orb negb Nat.eqb].
    destruct (generateArrayDiffHtml_ok (calculateLCSArrayDiff l l)) as [h ->]; cbn [bind].
    eexists; reflexivity.
  - cbn [strict_eq is_null typeof orb negb Nat.eqb].
    match goal with
    | |- context [map_result (key_html ?S (JObj fs) (JObj fs)) ?K] =>
        destruct (map_result_total (key_html S (JObj fs) (JObj fs)) K) as [parts ->]
    end.
    + intros k Hk; rewrite sort_strings_in, new_Set_in, in_app_iff in Hk.
      assert (Hk' : In k (map fst fs)) by (destruct Hk; assumption).
      destruct (obj_get_in_fst k fs Hk') as (x & Hx & Hin).
      unfold key_html, get_prop; cbn [get_data]; rewrite Hx.
      destruct (strict_eq x x); [eexists; reflexivity |].
      rewrite lookup_sub_fields, Hx.
      rewrite Forall_forall in IH.
      apply in_map_iff in Hin as ([k' x'] & Hx' & Hin); cbn in Hx'; subst x'.
      destruct (IH _ Hin) as [h Hh]; cbn [snd] in Hh; rewrite Hh; cbn [bind].
      eexists; reflexivity.
    + cbn [bind]; eexists; reflexivity.
Qed.

(** [calculateJsonDiff] of a valid JSON text with itself returns (its HTML
    diff does not throw) and counts no change; its similarity is 1
    (difference 0) when the parsed value is truthy, and 0 (difference 1)
    when it is [null], [false], [0] (also written [1e-400], which binary64
    rounds to [0]) or ['']. *)
Theorem calculateJsonDiff_self (lc : jsstr -> jsstr -> comparison) (g : jsstr) :
  isValidJson g = true ->
  exists r, calculateJsonDiff lc g g = Ok r /\
  let p := parsed (normalizeJson lc g) in
  j_changes r = {| structuralChanges := RNum 0; valueChanges := RNum 0;
                   additions := RNum 0; removals := RNum 0 |} /\
  (truthy p = true -> rnum_eqQ (j_similarity r) 1 /\ rnum_eqQ (j_diffScore r) 0) /\
  (truthy p = false -> rnum_eqQ (j_similarity r) 0 /\ rnum_eqQ (j_diffScore r) 1).
Proof.
  intros Hv; unfold calculateJsonDiff; rewrite Hv; cbn [negb andb].
  unfold generateImprovedJsonDiffHtml.
  pose proof (normalizeJson_parsed lc g) as Hp.
  pose proof (calculateImprovedJsonChanges_self_aux _ (normalized (normalizeJson lc g)) Hp) as Hc.
  destruct (truthy (parsed (normalizeJson lc g))) eqn:Ht; cbn [andb].
  - destruct (generateStructuralDiffHtml_self (parsed (normalizeJson lc g))) as [h ->]; cbn [bind].
    eexists; split; [reflexivity |]; cbv zeta; cbn [j_changes j_similarity j_diffScore].
    split; [exact Hc |]; split; intros Ht'; [| discriminate Ht'].
    unfold calculateJsonStructuralSimilarity; rewrite (deepEqual_refl _ Hp); split; reflexivity.
  - cbn [bind]; eexists; split; [reflexivity |]; cbv zeta; cbn [j_changes j_similarity j_diffScore].
    split; [exact Hc |]; split; intros Ht'; [discriminate Ht' | split; reflexivity].
Qed.

Lemma calculateJsonDiff_self_witness :
  isValidJson (jsq "{'b':[1,2],'a':null}") = true /\
  exists r, calculateJsonDiff jsstr_compare (jsq "{'b':[1,2],'a':null}")
                                            (jsq "{'b':[1,2],'a':null}") = Ok r /\
  let p := parsed (normalizeJson jsstr_compare (jsq "{'b':[1,2],'a':null}")) in
  j_changes r = {| structuralChanges := RNum 0; valueChanges := RNum 0;
                   additions := RNum 0; removals := RNum 0 |} /\
  (truthy p = true -> rnum_eqQ (j_similarity r) 1 /\ rnum_eqQ (j_diffScore r) 0) /\
  (truthy p = false -> rnum_eqQ (j_similarity r) 0 /\ rnum_eqQ (j_diffScore r) 1).
Proof.
  assert (H : isValidJson (jsq "{'b':[1,2],'a':null}") = true) by (vm_compute; reflexivity).
  split; [exact H | apply (calculateJsonDiff_self jsstr_compare _ H)].
Defined.

(** Whenever [calculateJsonDiff] returns with a numeric similarity, it lies
    in [0, 1] and the difference score is its complement; otherwise both
    are [NaN]. *)
Theorem calculateJsonDiff_range (lc : jsstr -> jsstr -> comparison) (g o : jsstr)
  (r : JsonDiffResult) :
  calculateJsonDiff lc g o = Ok r ->
  match j_similarity r with
  | RNum q => (0 <= q <= 1)%Q /\ j_diffScore r = RNum (1 - q)%Q
  | RNaN => j_diffScore r = RNaN
  end.
Proof.
  unfold calculateJsonDiff.
  destruct (isValidJson g) eqn:Eg; cbn [negb]; [| intros H; injection H as <-; reflexivity].
  destruct (isValidJson o) eqn:Eo; cbn [negb]; [| intros H; injection H as <-; reflexivity].
  destruct (generateImprovedJsonDiffHtml _ _ _ _); cbn [bind]; [| discriminate].
  intros H; injection H as <-; cbn [andb j_similarity j_diffScore]; split; [| reflexivity].
  destruct (truthy _ && truthy _); [apply objectSimilarity_range_aux | lra].
Qed.

Lemma calculateJsonDiff_range_witness :
  exists r, calculateJsonDiff jsstr_compare (js "[1,2]") (js "[1,3]") = Ok r /\
  match j_similarity r with
  | RNum q => (0 <= q <= 1)%Q /\ j_diffScore r = RNum (1 - q)%Q
  | RNaN => j_diffScore r = RNaN
  end.
Proof.
  destruct (calculateJsonDiff jsstr_compare (js "[1,2]") (js "[1,3]")) as [r | e] eqn:E;
    [| vm_compute in E; discriminate E].
  exists r; split; [reflexivity | exact (calculateJsonDiff_range jsstr_compare _ _ r E)].
Defined.

(** Round trip of [normalizeJson]: when it succeeds on a text whose parsed
    values have only finite numbers and no key ["__proto__"], parsing its
    [normalized] text gives back exactly its [parsed] value. *)
Theorem normalizeJson_roundtrip (lc : jsstr -> jsstr -> comparison) (s : jsstr) :
  (forall p, JSON_parse (trim s) = Ok p \/ JSON_parse (extractJsonFromMarkdown s) = Ok p ->
             plain_tree p = true) ->
  error (normalizeJson lc s) = None ->
  JSON_parse (normalized (normalizeJson lc s)) = Ok (parsed (normalizeJson lc s)).
Proof.
  intros Hpl He; unfold normalizeJson, normalize_text in *.
  destruct (JSON_parse (trim s)) as [p |] eqn:E1; cbn [bind] in *.
  - destruct (normalizeJsonObject lc p) as [n |] eqn:E2.
    + cbn [normalized parsed]; unfold JSON_stringify; apply JSON_parse_stringify.
      apply (normalize_output_canon lc p n (JSON_parse_parsed_ok _ _ E1)); [| exact E2].
      apply Hpl; left; reflexivity.
    + destruct (JSON_parse (extractJsonFromMarkdown s)) as [p' |] eqn:E3; cbn [bind] in *;
        [| discriminate He].
      destruct (normalizeJsonObject lc p') as [n' |] eqn:E4; [| discriminate He].
      cbn [normalized parsed]; unfold JSON_stringify; apply JSON_parse_stringify.
      apply (normalize_output_canon lc p' n' (JSON_parse_parsed_ok _ _ E3)); [| exact E4].
      apply Hpl; right; reflexivity.
  - destruct (JSON_parse (extractJsonFromMarkdown s)) as [p' |] eqn:E3; cbn [bind] in *;
      [| discriminate He].
    destruct (normalizeJsonObject lc p') as [n' |] eqn:E4; [| discriminate He].
    cbn [normalized parsed]; unfold JSON_stringify; apply JSON_parse_stringify.
    apply (normalize_output_canon lc p' n' (JSON_parse_parsed_ok _ _ E3)); [| exact E4].
    apply Hpl; right; reflexivity.
Qed.

Lemma normalizeJson_roundtrip_witness :
  error (normalizeJson jsstr_compare (jsq " {'b':1.50,'a':[2,{'c':null}]} ")) = None /\
  JSON_parse (normalized (normalizeJson jsstr_compare (jsq " {'b':1.50,'a':[2,{'c':null}]} ")))
  = Ok (parsed (normalizeJson jsstr_compare (jsq " {'b':1.50,'a':[2,{'c':null}]} "))).
Proof.
  assert (H : error (normalizeJson jsstr_compare (jsq " {'b':1.50,'a':[2,{'c':null}]} ")) = None)
    by (vm_compute; reflexivity).
  split; [exact H |].
  apply (normalizeJson_roundtrip jsstr_compare); [| exact H].
  intros p [Hp | Hp]; vm_compute in Hp; injection Hp as <-; vm_compute; reflexivity.
Defined.

End JsonFacts.

Section ArrayHtml.
Local Open Scope nat_scope.

Lemma value_str_ok (v : json) : exists s, value_str v = Ok s.
Proof. destruct v; cbn; eexists; reflexivity. Qed.

Lemma index_label_lt (o : option nat) : count_unit 60 (index_label o) = 0.
Proof. destruct o; [apply index_key_lt | reflexivity]. Qed.

Lemma array_op_html_tags (i : nat) (op : ArrayDiffOperation) :
  exists h, array_op_html i op = Ok h /\
  count_unit 60 h = match op_type op with OpAdded | OpRemoved => 6 | _ => 2 end.
Proof.
  unfold array_op_html; destruct (value_str_ok (op_value op)) as [s ->]; cbn [bind].
  eexists; split; [reflexivity |].
  destruct (op_type op); rewrite ?count_unit_app, ?escapeHtml_lt, ?index_key_lt, ?index_label_lt;
    reflexivity.
Qed.

Lemma count_aop_cons (t : array_op_type) (op : ArrayDiffOperation) ops :
  count_aop t (op :: ops) = (if aop_eqb (op_type op) t then 1 else 0) + count_aop t ops.
Proof. unfold count_aop; cbn; destruct (aop_eqb (op_type op) t); reflexivity. Qed.

(** [generateArrayDiffHtml] never throws, and its markup depends only on
    the operations: two ['<'] per equal or moved item and six per added or
    removed item, whatever the values hold. *)
Theorem generateArrayDiffHtml_tags (ops : list ArrayDiffOperation) :
  exists h, generateArrayDiffHtml ops = Ok h /\
  count_unit 60 h = 2 * count_aop OpEqual ops + 6 * count_aop OpAdded ops
                    + 6 * count_aop OpRemoved ops + 2 * count_aop OpMoved ops.
Proof.
  unfold generateArrayDiffHtml.
  assert (H : forall k, exists parts,
             map_result (fun '(index, op) => array_op_html index op)
                        (combine (seq k (List.length ops)) ops) = Ok parts /\
             fold_right (fun x acc => count_unit 60 x + acc) 0 parts
             = 2 * count_aop OpEqual ops + 6 * count_aop OpAdded ops
               + 6 * count_aop OpRemoved ops + 2 * count_aop OpMoved ops).
  { induction ops as [| op ops IH]; intros k; [exists []; split; reflexivity |].
    cbn [List.length seq combine map_result].
    destruct (array_op_html_tags k op) as [h [Eh Ch]].
    destruct (IH (S k)) as [parts [Ep Cp]].
    rewrite Eh; cbn [bind]; rewrite Ep; cbn [bind].
    eexists; split; [reflexivity |].
    cbn [fold_right]; rewrite Cp, Ch, !count_aop_cons.
    destruct (op_type op); cbn [aop_eqb]; lia. }
  destruct (H 0) as [parts [Ep Cp]]; rewrite Ep; cbn [bind].
  eexists; split; [reflexivity |].
  rewrite join_with_count by reflexivity; exact Cp.
Qed.

End ArrayHtml.
